(** * File-based service discovery ([discovery/file]): model and properties

    A shallow embedding of the Go package [file] (file based target
    discovery): the pattern validator of [SDConfig.UnmarshalYAML], the
    content reader [readFile], the reconciliation step [refresh], the event
    dispatch of [Run] and the timestamp collector.

    Conventions.
    - Go [string]s are byte strings: [string] of Rocq, one [ascii] per byte.
    - Go [int] values are [Z]; the group counts handled here come from [len]
      and stay far from the 64-bit bounds.
    - A Go [map] is a [gmap]; reading a missing key yields the zero value
      ([zlookup]); the order in which [range] visits a map is not specified
      by Go, so every [range] over a map takes the visiting order as an
      explicit argument, constrained in the theorems to be a permutation of
      the map's entries.
    - A function returning [(T, error)] returns [res T]; a function that can
      panic, or abandon its work on [ctx.Done()], runs in the monad [M].
    - The modification time is kept as the integer number of Unix seconds
      that the source converts with [float64(...)].
    - Logging is not modelled. *)

From Stdlib Require Import ZArith Ascii String DecimalString DecimalPos DecimalZ Lia.
From stdpp Require Import base tactics option list gmap strings sorting.

Local Open Scope Z_scope.

(* ================================================================= *)
(** ** Go runtime and library helpers *)

(** [m[k]] on a [map[string]int]: the zero value when [k] is missing. *)
Definition zlookup (m : gmap string Z) (k : string) : Z := default 0 (m !! k).

(** The [%d] verb of [fmt.Sprintf] on an [int]. *)
Definition itoa (i : Z) : string := NilZero.string_of_int (Z.to_int i).

(** Go strings as byte lists, for the library functions that index them. *)
Definition bytes (s : string) : list ascii := list_ascii_of_string s.
Definition str (l : list ascii) : string := string_of_list_ascii l.

Definition Separator : ascii := "/"%char.
Definition IsPathSeparator (c : ascii) : bool := bool_decide (c = Separator).

(** [filepath.Ext]: the loop runs [i] from [len(path)-1] down to [0] and
    stops at the first separator; [n] below is [i+1]. *)
Fixpoint Ext_loop (path : list ascii) (n : nat) : list ascii :=
  match n with
  | O => []
  | S i =>
      match path !! i with
      | Some c =>
          if IsPathSeparator c then []
          else if bool_decide (c = "."%char) then drop i path
          else Ext_loop path i
      | None => []
      end
  end.

Definition Ext (path : string) : string :=
  str (Ext_loop (bytes path) (length (bytes path))).

(** [strings.ToLower] on the ASCII range. A string that holds a byte outside
    ASCII is never lowered to one of the ASCII literals it is compared with
    in this package, so only the letters [A-Z] matter. *)
Definition lower_byte (c : ascii) : ascii :=
  let n := N_of_ascii c in
  if ((65 <=? n) && (n <=? 90))%N then ascii_of_N (n + 32) else c.

Fixpoint ToLower (s : string) : string :=
  match s with
  | EmptyString => EmptyString
  | String c s' => String (lower_byte c) (ToLower s')
  end.

(** Go [error] values, by origin. *)
Inductive error : Type :=
  | os_error (msg : string)       (* open, read, stat *)
  | decode_error (msg : string)   (* json.Unmarshal, yaml.UnmarshalStrict *)
  | errors_New (msg : string).    (* errors.New / errors.Errorf *)

(** A Go result pair [(T, error)]. *)
Inductive res (A : Type) : Type :=
  | ok (a : A)
  | fail (e : error).
Arguments ok {A} a.
Arguments fail {A} e.

(** An opened file: what [ioutil.ReadAll] and [fd.Stat] give on it, the
    latter reduced to [info.ModTime().Unix()]. *)
Record File : Type := mkFile {
  ReadAll : res string;
  StatModTime : res Z;
}.

(** The file system as one scan sees it. [readdir dir] is [None] when [dir]
    cannot be listed (missing, not a directory, unreadable). *)
Record FileSystem : Type := mkFS {
  os_Open : string -> res File;
  os_Lstat : string -> bool;
  readdir : string -> option (list string);
}.

(* ================================================================= *)
(** ** [path/filepath] (Unix): [Match], [Clean], [Join], [Glob] *)

Definition byteZ (c : ascii) : Z := Z.of_N (N_of_ascii c).
Definition RuneError : Z := 65533.

(** [utf8.DecodeRuneInString]: the rune at the head of [s] and its width in
    bytes; [(RuneError, 1)] on an invalid encoding. *)
Definition DecodeRuneInString (s : list ascii) : Z * nat :=
  match s with
  | [] => (RuneError, 0%nat)
  | c0 :: t =>
      let s0 := byteZ c0 in
      if s0 <? 128 then (s0, 1%nat)
      else if (s0 <? 194) || (244 <? s0) then (RuneError, 1%nat)
      else
        let sz := if s0 <? 224 then 2%nat else if s0 <? 240 then 3%nat else 4%nat in
        let lo := if s0 =? 224 then 160 else if s0 =? 240 then 144 else 128 in
        let hi := if s0 =? 237 then 159 else if s0 =? 244 then 143 else 191 in
        if (length s <? sz)%nat then (RuneError, 1%nat)
        else
          match t with
          | [] => (RuneError, 1%nat)
          | c1 :: t1 =>
              let s1 := byteZ c1 in
              if (s1 <? lo) || (hi <? s1) then (RuneError, 1%nat)
              else if (sz <=? 2)%nat
                   then (Z.lor (Z.shiftl (Z.land s0 31) 6) (Z.land s1 63), 2%nat)
              else
                match t1 with
                | [] => (RuneError, 1%nat)
                | c2 :: t2 =>
                    let s2 := byteZ c2 in
                    if (s2 <? 128) || (191 <? s2) then (RuneError, 1%nat)
                    else if (sz <=? 3)%nat
                         then (Z.lor (Z.shiftl (Z.land s0 15) 12)
                                 (Z.lor (Z.shiftl (Z.land s1 63) 6) (Z.land s2 63)),
                               3%nat)
                    else
                      match t2 with
                      | [] => (RuneError, 1%nat)
                      | c3 :: _ =>
                          let s3 := byteZ c3 in
                          if (s3 <? 128) || (191 <? s3) then (RuneError, 1%nat)
                          else (Z.lor (Z.shiftl (Z.land s0 7) 18)
                                  (Z.lor (Z.shiftl (Z.land s1 63) 12)
                                     (Z.lor (Z.shiftl (Z.land s2 63) 6)
                                        (Z.land s3 63))),
                                4%nat)
                      end
                end
          end
  end.

(** [scanChunk]'s [Scan] loop: the index of the first [*] outside brackets,
    or the length of the pattern. *)
Fixpoint scanLoop (pattern : list ascii) (inrange : bool) : nat :=
  match pattern with
  | [] => 0%nat
  | c :: rest =>
      if bool_decide (c = "\"%char) then
        match rest with
        | [] => 1%nat
        | _ :: rest' => S (S (scanLoop rest' inrange))
        end
      else if bool_decide (c = "["%char) then S (scanLoop rest true)
      else if bool_decide (c = "]"%char) then S (scanLoop rest false)
      else if bool_decide (c = "*"%char) then
        if inrange then S (scanLoop rest inrange) else 0%nat
      else S (scanLoop rest inrange)
  end.

Fixpoint skipStars (pattern : list ascii) : bool * list ascii :=
  match pattern with
  | c :: rest =>
      if bool_decide (c = "*"%char) then (true, (skipStars rest).2)
      else (false, pattern)
  | [] => (false, [])
  end.

(** [scanChunk] gets the next segment of pattern, which is a non-star string
    possibly preceded by a star. *)
Definition scanChunk (pattern : list ascii) : bool * list ascii * list ascii :=
  let '(star, p) := skipStars pattern in
  let i := scanLoop p false in
  (star, take i p, drop i p).

(** [getEsc] gets a possibly-escaped character from chunk, for a character
    class; [None] is [ErrBadPattern]. *)
Definition getEsc (chunk : list ascii) : option (Z * list ascii) :=
  match chunk with
  | [] => None
  | c :: rest =>
      if bool_decide (c = "-"%char) || bool_decide (c = "]"%char) then None
      else
        let chunk1 := if bool_decide (c = "\"%char) then rest else chunk in
        match chunk1 with
        | [] => None
        | _ :: _ =>
            let '(r, n) := DecodeRuneInString chunk1 in
            if bool_decide (r = RuneError) && bool_decide (n = 1%nat) then None
            else
              match drop n chunk1 with
              | [] => None
              | nchunk => Some (r, nchunk)
              end
        end
  end.

(** The range loop of a character class: rune [r] against the ranges up to
    the closing bracket. [None] is [ErrBadPattern]. *)
Fixpoint classLoop (fuel : nat) (r : Z) (chunk : list ascii)
    (matched : bool) (nrange : nat) : option (bool * list ascii) :=
  match fuel with
  | O => None
  | S fuel' =>
      let parse :=
        match getEsc chunk with
        | None => None
        | Some (lo, chunk1) =>
            let hi_chunk :=
              match chunk1 with
              | c :: chunk1' =>
                  if bool_decide (c = "-"%char) then getEsc chunk1'
                  else Some (lo, chunk1)
              | [] => None
              end in
            match hi_chunk with
            | None => None
            | Some (hi, chunk2) =>
                classLoop fuel' r chunk2
                  (matched || ((lo <=? r) && (r <=? hi))) (S nrange)
            end
        end in
      match chunk with
      | c :: rest =>
          if bool_decide (c = "]"%char) && (0 <? nrange)%nat
          then Some (matched, rest)
          else parse
      | [] => parse
      end
  end.

(** What [matchChunk] returns: a bad pattern, no match, or the remainder of
    [s] after the match. *)
Inductive chunk_result : Type :=
  | ChunkErr
  | ChunkNo
  | ChunkOk (rest : list ascii).

Fixpoint matchChunkLoop (fuel : nat) (chunk s : list ascii) (failed : bool)
  : chunk_result :=
  match chunk with
  | [] => if failed then ChunkNo else ChunkOk s
  | c :: chunk' =>
      match fuel with
      | O => ChunkErr
      | S fuel' =>
          let failed := failed || bool_decide (s = []) in
          if bool_decide (c = "["%char) then
            let '(r, s1) :=
              if failed then (0, s)
              else let '(r, n) := DecodeRuneInString s in (r, drop n s) in
            let '(negated, chunk1) :=
              match chunk' with
              | c1 :: chunk'' =>
                  if bool_decide (c1 = "^"%char) then (true, chunk'')
                  else (false, chunk')
              | [] => (false, chunk')
              end in
            match classLoop (S (length chunk1)) r chunk1 false 0 with
            | None => ChunkErr
            | Some (m, chunk2) =>
                matchChunkLoop fuel' chunk2 s1
                  (failed || bool_decide (m = negated))
            end
          else if bool_decide (c = "?"%char) then
            if failed then matchChunkLoop fuel' chunk' s failed
            else
              let failed' := bool_decide (head s = Some Separator) in
              let '(_, n) := DecodeRuneInString s in
              matchChunkLoop fuel' chunk' (drop n s) failed'
          else
            let lit :=
              if bool_decide (c = "\"%char) then chunk' else chunk in
            match lit with
            | [] => ChunkErr
            | l :: chunk1 =>
                if failed then matchChunkLoop fuel' chunk1 s failed
                else matchChunkLoop fuel' chunk1 (drop 1 s)
                       (bool_decide (head s ≠ Some l))
            end
      end
  end.

(** [matchChunk] checks whether chunk matches the beginning of [s]. *)
Definition matchChunk (chunk s : list ascii) : chunk_result :=
  matchChunkLoop (length chunk) chunk s false.

(** The inner loop of [Match] after a star: skip [i+1] bytes of [name], never
    a separator, and try the chunk again. *)
Inductive star_result : Type :=
  | StarErr
  | StarNone
  | StarFound (rest : list ascii).

Fixpoint starLoop (chunk : list ascii) (lastChunk : bool) (name : list ascii)
  : star_result :=
  match name with
  | [] => StarNone
  | c :: name' =>
      if bool_decide (c = Separator) then StarNone
      else
        match matchChunk chunk name' with
        | ChunkOk t =>
            if lastChunk && negb (bool_decide (t = []))
            then starLoop chunk lastChunk name'
            else StarFound t
        | ChunkErr => StarErr
        | ChunkNo => starLoop chunk lastChunk name'
        end
  end.

(** The closing loop of [Match]: the rest of the pattern is checked for
    syntax before [false] is returned. [None] is [ErrBadPattern]. *)
Fixpoint checkRest (fuel : nat) (pattern : list ascii) : option bool :=
  match pattern with
  | [] => Some false
  | _ :: _ =>
      match fuel with
      | O => None
      | S fuel' =>
          let '(_, chunk, pattern') := scanChunk pattern in
          match matchChunk chunk [] with
          | ChunkErr => None
          | _ => checkRest fuel' pattern'
          end
      end
  end.

Fixpoint MatchLoop (fuel : nat) (pattern name : list ascii) : option bool :=
  match pattern with
  | [] => Some (bool_decide (name = []))
  | _ :: _ =>
      match fuel with
      | O => None
      | S fuel' =>
          let '(star, chunk, pattern') := scanChunk pattern in
          if star && bool_decide (chunk = [])
          then Some (negb (bool_decide (Separator ∈ name)))
          else
            let after_miss (r : chunk_result) :=
              match r with
              | ChunkErr => None
              | _ =>
                  if star then
                    match starLoop chunk (bool_decide (pattern' = [])) name with
                    | StarFound t => MatchLoop fuel' pattern' t
                    | StarErr => None
                    | StarNone => checkRest (length pattern') pattern'
                    end
                  else checkRest (length pattern') pattern'
              end in
            match matchChunk chunk name with
            | ChunkOk t =>
                if bool_decide (t = []) || negb (bool_decide (pattern' = []))
                then MatchLoop fuel' pattern' t
                else after_miss (ChunkOk t)
            | r => after_miss r
            end
      end
  end.

(** [filepath.Match] reports whether name matches the shell file name
    pattern; [None] is [ErrBadPattern]. *)
Definition Match (pattern name : list ascii) : option bool :=
  MatchLoop (length pattern) pattern name.

(** [hasMeta] reports whether path contains any of the magic characters
    recognized by [Match]. *)
Definition hasMeta (path : list ascii) : bool :=
  existsb (fun c => bool_decide (c ∈ bytes "*?[\")) path.

(** [strings.LastIndex(s, "/")], as [Some i] or [None] for [-1]. *)
Fixpoint lastIndexSep (s : list ascii) : option nat :=
  match s with
  | [] => None
  | c :: s' =>
      match lastIndexSep s' with
      | Some i => Some (S i)
      | None => if IsPathSeparator c then Some 0%nat else None
      end
  end.

(** [filepath.Split]: the directory, with its final separator, and the
    file. *)
Definition Split (path : list ascii) : list ascii * list ascii :=
  match lastIndexSep path with
  | Some i => (take (S i) path, drop (S i) path)
  | None => ([], path)
  end.

(** [cleanGlobPath] prepares path for glob matching. *)
Definition cleanGlobPath (path : list ascii) : list ascii :=
  match path with
  | [] => bytes "."
  | [c] => if IsPathSeparator c then path else []
  | _ => take (length path - 1) path
  end.

(** The [..] case of [Clean] when it can backtrack: [out.w--], then again
    while [out.w > dotdot] and the byte just dropped is no separator. The
    buffer is kept truncated at [out.w]. *)
Fixpoint backtrack (fuel : nat) (out : list ascii) (dotdot : nat) : list ascii :=
  match fuel with
  | O => out
  | S fuel' =>
      let out' := take (length out - 1) out in
      if (dotdot <? length out')%nat
         && negb (from_option IsPathSeparator false (last out))
      then backtrack fuel' out' dotdot
      else out'
  end.

(** The copy of one real path element into the buffer, up to a separator. *)
Fixpoint copyElem (path out : list ascii) : list ascii * list ascii :=
  match path with
  | c :: path' =>
      if IsPathSeparator c then (path, out) else copyElem path' (out ++ [c])
  | [] => ([], out)
  end.

(** The main loop of [Clean] on the part of the path still to read. *)
Fixpoint cleanLoop (fuel : nat) (rooted : bool) (path out : list ascii)
    (dotdot : nat) : list ascii :=
  match path with
  | [] => out
  | c :: path1 =>
      match fuel with
      | O => out
      | S fuel' =>
          let at_end (p : list ascii) :=
            match p with
            | [] => true
            | c' :: _ => IsPathSeparator c'
            end in
          if IsPathSeparator c then cleanLoop fuel' rooted path1 out dotdot
          else if bool_decide (c = "."%char) && at_end path1
          then cleanLoop fuel' rooted path1 out dotdot
          else if bool_decide (c = "."%char)
                  && bool_decide (head path1 = Some "."%char)
                  && at_end (drop 1 path1)
          then
            let path2 := drop 1 path1 in
            if (dotdot <? length out)%nat then
              cleanLoop fuel' rooted path2 (backtrack (length out) out dotdot)
                dotdot
            else if negb rooted then
              let out1 := if (0 <? length out)%nat then out ++ [Separator] else out in
              let out2 := out1 ++ bytes ".." in
              cleanLoop fuel' rooted path2 out2 (length out2)
            else cleanLoop fuel' rooted path2 out dotdot
          else
            let out1 :=
              if (rooted && negb (length out =? 1)%nat)
                 || (negb rooted && negb (length out =? 0)%nat)
              then out ++ [Separator] else out in
            let '(path2, out2) := copyElem path out1 in
            cleanLoop fuel' rooted path2 out2 dotdot
      end
  end.

(** [filepath.Clean] returns the shortest path name equivalent to path by
    purely lexical processing. *)
Definition Clean (path : list ascii) : list ascii :=
  match path with
  | [] => bytes "."
  | c :: rest =>
      let rooted := IsPathSeparator c in
      let out :=
        if rooted then cleanLoop (length rest) true rest [Separator] 1
        else cleanLoop (length path) false path [] 0 in
      match out with
      | [] => bytes "."
      | _ => out
      end
  end.

(** [filepath.Join] of a directory and a name. *)
Definition Join (dir name : list ascii) : list ascii :=
  match dir, name with
  | [], [] => []
  | [], _ => Clean name
  | _, _ => Clean (dir ++ Separator :: name)
  end.

(** [sort.Strings]: byte-wise lexicographic order. *)
Definition sortStrings (names : list string) : list string :=
  merge_sort String.le names.

(** [glob] searches for files matching pattern in the directory [dir] and
    appends them to [matches]; a directory that cannot be listed adds
    nothing. [None] is an error of [Match]. *)
Fixpoint globNames (dir pattern : list ascii) (names : list string)
    (m : list string) : option (list string) :=
  match names with
  | [] => Some m
  | n :: names' =>
      match Match pattern (bytes n) with
      | None => None
      | Some matched =>
          globNames dir pattern names'
            (if matched then m ++ [str (Join dir (bytes n))] else m)
      end
  end.

(** [glob]: list [dir], sort the names and keep the matching ones. *)
Definition glob (fs : FileSystem) (dir pattern : list ascii) (matches : list string)
  : option (list string) :=
  match readdir fs (str dir) with
  | None => Some matches
  | Some names => globNames dir pattern (sortStrings names) matches
  end.

Fixpoint globDirs (fs : FileSystem) (dirs : list string) (file : list ascii)
    (matches : list string) : option (list string) :=
  match dirs with
  | [] => Some matches
  | d :: dirs' =>
      match glob fs (bytes d) file matches with
      | None => None
      | Some matches' => globDirs fs dirs' file matches'
      end
  end.

(** [filepath.Glob] returns the names of all files matching pattern; [None]
    is [ErrBadPattern]. The recursion is on the directory part of the
    pattern, which is shorter than the pattern. *)
Fixpoint GlobLoop (fuel : nat) (fs : FileSystem) (pattern : list ascii)
  : option (list string) :=
  match fuel with
  | O => None
  | S fuel' =>
      match Match pattern [] with
      | None => None
      | Some _ =>
          if negb (hasMeta pattern) then
            Some (if os_Lstat fs (str pattern) then [str pattern] else [])
          else
            let '(dir0, file) := Split pattern in
            let dir := cleanGlobPath dir0 in
            if negb (hasMeta dir) then glob fs dir file []
            else if bool_decide (dir = pattern) then None
            else
              match GlobLoop fuel' fs dir with
              | None => None
              | Some m => globDirs fs m file []
              end
      end
  end.

Definition Glob (fs : FileSystem) (pattern : string) : option (list string) :=
  GlobLoop (S (length (bytes pattern))) fs (bytes pattern).

(* ================================================================= *)
(** ** Data model *)

(** Modelled from the spec: the record [targetgroup.Group], declared in the
    package [discovery/targetgroup]. It carries a label set (string to
    string, keys unique; [None] is the nil map), a list of target addresses,
    each with its own labels, and the source string. *)
Record Group : Type := mkGroup {
  Targets : list (gmap string string);
  Labels : option (gmap string string);
  Source : string;
}.

(** [model.MetaLabelPrefix] of prometheus/common. *)
Definition MetaLabelPrefix : string := "__meta_".
Definition fileSDFilepathLabel : string := MetaLabelPrefix +:+ "filepath".

(** [fileSource] returns a source ID for the i-th target group in the file. *)
Definition fileSource (filename : string) (i : Z) : string :=
  filename +:+ ":" +:+ itoa i.

(** The two decoders, opaque: content to a slice of group pointers, where a
    nil pointer is [None]. *)
Class Codec : Type := mkCodec {
  json_Unmarshal : string -> res (list (option Group));
  yaml_UnmarshalStrict : string -> res (list (option Group));
}.

(** [SDConfig] is the configuration for file based discovery; the interval
    is a [model.Duration], in nanoseconds. *)
Record SDConfig : Type := mkSDConfig {
  Files : list string;
  RefreshInterval : Z;
}.

(** [DefaultSDConfig] is the default file SD configuration: five minutes. *)
Definition DefaultSDConfig : SDConfig :=
  {| Files := []; RefreshInterval := 5 * 60 * 1000000000 |}.

(** [Discovery]: the fields the scan and [Run] read and write. The watcher
    is reduced to the directories handed to [watcher.Add]; [interval] is a
    [time.Duration], in nanoseconds. *)
Record Discovery : Type := mkDiscovery {
  paths : list string;
  watcher : option (list string);
  interval : Z;
  timestamps : gmap string Z;
  lastRefresh : gmap string Z;
}.

(** The state one engine instance runs in: the instance, the package level
    metrics, the batches sent on the output channel so far, and how many
    more sends go through before a [select] takes [ctx.Done()] ([None]:
    cancellation never wins). *)
Record State : Type := mkState {
  disc : Discovery;
  fileSDReadErrorsCount : Z;
  fileSDScanDuration : nat;
  sent : list (list Group);
  ctx : option nat;
}.

Definition set_disc (d : Discovery) (st : State) : State :=
  mkState d (fileSDReadErrorsCount st) (fileSDScanDuration st) (sent st) (ctx st).

Definition set_timestamps (ts : gmap string Z) (d : Discovery) : Discovery :=
  mkDiscovery (paths d) (watcher d) (interval d) ts (lastRefresh d).

Definition set_lastRefresh (r : gmap string Z) (d : Discovery) : Discovery :=
  mkDiscovery (paths d) (watcher d) (interval d) (timestamps d) r.

Definition set_watcher (w : option (list string)) (d : Discovery) : Discovery :=
  mkDiscovery (paths d) w (interval d) (timestamps d) (lastRefresh d).

(** How a call ends: it returns, it gives up on cancellation, or it
    panics. *)
Inductive outcome (A : Type) : Type :=
  | Ret (a : A)
  | Cancelled
  | Panicked (msg : string).
Arguments Ret {A} a.
Arguments Cancelled {A}.
Arguments Panicked {A} msg.

Definition M (A : Type) : Type := State -> outcome A * State.

Definition ret {A} (a : A) : M A := fun st => (Ret a, st).

Definition bind {A B} (c : M A) (k : A -> M B) : M B := fun st =>
  match c st with
  | (Ret a, st') => k a st'
  | (Cancelled, st') => (Cancelled, st')
  | (Panicked msg, st') => (Panicked msg, st')
  end.

Global Instance M_ret : MRet M := @ret.
Global Instance M_bind : MBind M := fun A B k c => bind c k.

Definition panic {A} (msg : string) : M A := fun st => (Panicked msg, st).

Definition modify_disc (f : Discovery -> Discovery) : M unit := fun st =>
  (Ret tt, set_disc (f (disc st)) st).

Definition get_disc : M Discovery := fun st => (Ret (disc st), st).

(* ================================================================= *)
(** ** The content reader *)

Definition writeTimestamp (filename : string) (timestamp : Z) : M unit :=
  modify_disc (fun d => set_timestamps (<[filename := timestamp]> (timestamps d)) d).

Definition deleteTimestamp (filename : string) : M unit :=
  modify_disc (fun d => set_timestamps (delete filename (timestamps d)) d).

(** The loop of [readFile] over the decoded groups, from index [i] on: a nil
    element ends it with an error; every other group gets its source and
    the file path label, in a label set created when it was nil. *)
Fixpoint stampGroups (filename : string) (i : Z) (tgs : list (option Group))
  : res (list Group) :=
  match tgs with
  | [] => ok []
  | None :: _ => fail (errors_New "nil target group item found")
  | Some tg :: rest =>
      let tg' := {| Targets := Targets tg;
                    Labels := Some (<[fileSDFilepathLabel := filename]>
                                      (default ∅ (Labels tg)));
                    Source := fileSource filename i |} in
      match stampGroups filename (i + 1) rest with
      | ok l => ok (tg' :: l)
      | fail e => fail e
      end
  end.

(** The decode dispatch of [readFile] on the lowered extension; [None] is
    the [default] branch, which panics (the panic message is kept without
    the quoted extension that [%q] appends). *)
Definition decodeByExt {codec : Codec} (filename content : string)
  : option (res (list (option Group))) :=
  let ext := ToLower (Ext filename) in
  if bool_decide (ext = ".json") then Some (json_Unmarshal content)
  else if bool_decide (ext = ".yml") || bool_decide (ext = ".yaml")
       then Some (yaml_UnmarshalStrict content)
  else None.

(** [readFile] reads a JSON or YAML list of targets groups from the file,
    depending on its file extension. *)
Definition readFile {codec : Codec} (fs : FileSystem) (filename : string)
  : M (res (list Group)) :=
  match os_Open fs filename with
  | fail e => ret (fail e)
  | ok fd =>
      match ReadAll fd with
      | fail e => ret (fail e)
      | ok content =>
          match StatModTime fd with
          | fail e => ret (fail e)
          | ok mtime =>
              match decodeByExt filename content with
              | None => panic "discovery.File.readFile: unhandled file extension"
              | Some (fail e) => ret (fail e)
              | Some (ok targetGroups) =>
                  match stampGroups filename 0 targetGroups with
                  | fail e => ret (fail e)
                  | ok tgs => writeTimestamp filename mtime;; ret (ok tgs)
                  end
              end
          end
      end
  end.

(* ================================================================= *)
(** ** The file enumerator and the watch manager *)

Fixpoint listFilesLoop (fs : FileSystem) (patterns paths : list string)
  : list string :=
  match patterns with
  | [] => paths
  | p :: patterns' =>
      match Glob fs p with
      | None => listFilesLoop fs patterns' paths
      | Some files => listFilesLoop fs patterns' (paths ++ files)
      end
  end.

(** [listFiles] returns a list of all files that match the configured
    patterns. *)
Definition listFiles (fs : FileSystem) (d : Discovery) : list string :=
  listFilesLoop fs (paths d) [].

(** The directory [watchFiles] derives from one pattern. *)
Definition watchDir (p : string) : string :=
  match lastIndexSep (bytes p) with
  | Some idx => str (take idx (bytes p))
  | None => "./"
  end.

(** [watchFiles] sets watches on all full paths or directories that were
    configured for this file discovery. *)
Definition watchFiles : M unit := fun st =>
  match watcher (disc st) with
  | None => (Panicked "no watcher configured", st)
  | Some w =>
      (Ret tt, set_disc (set_watcher (Some (w ++ (watchDir <$> paths (disc st))))
                           (disc st)) st)
  end.

(* ================================================================= *)
(** ** The reconciliation engine *)

(** [select { case ch <- batch: case <-ctx.Done(): return }]. *)
Definition send (batch : list Group) : M unit := fun st =>
  let deliver (c : option nat) :=
    mkState (disc st) (fileSDReadErrorsCount st) (fileSDScanDuration st)
      (sent st ++ [batch]) c in
  match ctx st with
  | None => (Ret tt, deliver None)
  | Some (S k) => (Ret tt, deliver (Some k))
  | Some O => (Cancelled, st)
  end.

(** [fileSDReadErrorsCount.Inc()]. *)
Definition incReadErrors : M unit := fun st =>
  (Ret tt, mkState (disc st) (fileSDReadErrorsCount st + 1) (fileSDScanDuration st)
             (sent st) (ctx st)).

(** The deferred [fileSDScanDuration.Observe(...)]: one more observation. *)
Definition observeScan (st : State) : State :=
  mkState (disc st) (fileSDReadErrorsCount st) (S (fileSDScanDuration st))
    (sent st) (ctx st).

(** The first loop of [refresh], over the listed files. *)
Fixpoint readLoop {codec : Codec} (fs : FileSystem) (files : list string)
    (ref : gmap string Z) : M (gmap string Z) :=
  match files with
  | [] => mret ref
  | p :: files' =>
      r ← readFile fs p;
      match r with
      | fail _ =>
          incReadErrors;;
          d ← get_disc;
          readLoop fs files' (<[p := zlookup (lastRefresh d) p]> ref)
      | ok tgroups =>
          send tgroups;;
          readLoop fs files' (<[p := Z.of_nat (length tgroups)]> ref)
      end
  end.

(** The group sent for a source that disappeared. *)
Definition tombstone (f : string) (i : Z) : Group :=
  {| Targets := []; Labels := None; Source := fileSource f i |}.

(** [for i := m; i < n; i++ { send one tombstone }], with [count] the number
    of iterations left. *)
Fixpoint sendTombstones (f : string) (i : Z) (count : nat) : M unit :=
  match count with
  | O => mret tt
  | S count' => send [tombstone f i];; sendTombstones f (i + 1) count'
  end.

(** The second loop of [refresh], over the entries of [d.lastRefresh] in
    the order [range] visits them. *)
Fixpoint deleteLoop (order : list (string * Z)) (ref : gmap string Z) : M unit :=
  match order with
  | [] => mret tt
  | (f, n) :: order' =>
      let m := zlookup ref f in
      let ok := bool_decide (is_Some (ref !! f)) in
      (if negb ok || (m <? n)
       then deleteTimestamp f;; sendTombstones f m (Z.to_nat (n - m))
       else mret tt);;
      deleteLoop order' ref
  end.

(** [refresh] reads all files matching the discovery's patterns and sends
    the respective updated target groups through the channel. [Cancelled]
    is its early return on [ctx.Done()]. *)
Definition refresh {codec : Codec} (fs : FileSystem) (order : list (string * Z)) : M unit :=
  fun st =>
    let body : M unit :=
      d ← get_disc;
      ref ← readLoop fs (listFiles fs d) ∅;
      deleteLoop order ref;;
      modify_disc (set_lastRefresh ref);;
      watchFiles in
    let '(r, st') := body st in
    (r, observeScan st').

(* ================================================================= *)
(** ** The event loop *)

(** [fsnotify.Op], a bit mask. *)
Definition Create : Z := 1.
Definition Write : Z := 2.
Definition Remove : Z := 4.
Definition Rename : Z := 8.
Definition Chmod : Z := 16.

Record Event : Type := mkEvent {
  Name : string;
  Op : Z;
}.

(** The case a [select] of [Run] takes. *)
Inductive selected : Type :=
  | SelDone
  | SelEvent (event : Event)
  | SelTick
  | SelError (err : option error).

(** What the scheduler settles for one refresh: the order in which [range]
    visits the previous baseline, and how many sends go through before
    [ctx.Done()] is taken. *)
Record choice : Type := mkChoice {
  range_order : list (string * Z);
  send_budget : option nat;
}.

Definition set_ctx (c : option nat) (st : State) : State :=
  mkState (disc st) (fileSDReadErrorsCount st) (fileSDScanDuration st) (sent st) c.

(** [d.refresh(ctx, ch)] as [Run] calls it: an early return is a return. *)
Definition callRefresh {codec : Codec} (fs : FileSystem) (c : choice) : M unit := fun st =>
  match refresh fs (range_order c) (set_ctx (send_budget c) st) with
  | (Cancelled, st') => (Ret tt, st')
  | r => r
  end.

(** The two filters of the [d.watcher.Events] case: [true] when the event
    gets past both [break]s. *)
Definition eventRequiresRefresh (event : Event) : bool :=
  if (String.length (Name event) =? 0)%nat then false
  else if Z.lxor (Op event) Chmod =? 0 then false
  else true.

(** The body of the [d.watcher.Events] case. *)
Definition onEvent {codec : Codec} (fs : FileSystem) (event : Event) (c : choice) : M unit :=
  if eventRequiresRefresh event then callRefresh fs c else mret tt.

(** The [for { select { ... } }] of [Run] against the cases taken so far,
    in order. The loop has no exit but the [return] of the [ctx.Done()]
    case: the result is [true] when that [return] was reached, and [false]
    when the cases run out with the loop still waiting in its [select]. *)
Fixpoint runLoop {codec : Codec} (fs : FileSystem) (sched : list (selected * choice))
  : M bool :=
  match sched with
  | [] => mret false
  | (SelDone, _) :: _ => mret true
  | (SelEvent event, c) :: sched' => onEvent fs event c;; runLoop fs sched'
  | (SelTick, c) :: sched' => callRefresh fs c;; runLoop fs sched'
  | (SelError _, _) :: sched' => runLoop fs sched'
  end.

(** [stop] shuts down the file watcher. *)
Definition stop : M unit := modify_disc (set_watcher None).

(** [time.NewTicker(d.interval)]: it panics unless the interval is
    positive. *)
Definition NewTicker : M unit := fun st =>
  if interval (disc st) <=? 0
  then panic "non-positive interval for NewTicker" st
  else (Ret tt, st).

(** [Run]: [newWatcher] is the result of [fsnotify.NewWatcher()]. The
    result is [true] when [Run] has returned and [false] when it is still
    in its loop after the cases of [sched]; the deferred [d.stop()] runs
    when [Run] returns or panics once the watcher is set, and not while the
    loop is waiting. *)
Definition Run {codec : Codec} (fs : FileSystem) (newWatcher : res unit)
    (first : choice) (sched : list (selected * choice)) : M bool :=
  match newWatcher with
  | fail _ => mret true
  | ok _ => fun st =>
      let body : M bool :=
        modify_disc (set_watcher (Some []));;
        callRefresh fs first;;
        NewTicker;;
        runLoop fs sched in
      match body st with
      | (Ret false, st') => (Ret false, st')
      | (r, st') => (r, (stop st').2)
      end
  end.

(* ================================================================= *)
(** ** The timestamp collector *)

(** [TimestampCollector]: the set of registered instances, by address. *)
Record TimestampCollector : Type := mkCollector {
  discoverers : gset positive;
}.

Definition NewTimestampCollector : TimestampCollector :=
  {| discoverers := ∅ |}.

Definition addDiscoverer (a : positive) (t : TimestampCollector) : TimestampCollector :=
  {| discoverers := {[a]} ∪ discoverers t |}.

Definition removeDiscoverer (a : positive) (t : TimestampCollector) : TimestampCollector :=
  {| discoverers := discoverers t ∖ {[a]} |}.

(** The inner loop of [Collect]: every entry of one instance goes into
    [uniqueFiles]. *)
Definition mergeTimestamps (uniqueFiles : gmap string Z) (entries : list (string * Z))
  : gmap string Z :=
  foldl (fun u '(filename, timestamp) => <[filename := timestamp]> u)
    uniqueFiles entries.

(** The outer loop of [Collect] over the registered instances, in the order
    [order] in which [range] visits the set; [heap] holds the instances. The
    entries of one instance have distinct keys, so the order of the inner
    [range] does not show. *)
Definition collectUnique (heap : gmap positive Discovery) (order : list positive)
  : gmap string Z :=
  foldl (fun u a =>
           match heap !! a with
           | Some fileSD => mergeTimestamps u (map_to_list (timestamps fileSD))
           | None => u
           end) ∅ order.

(** A constant gauge sample: its value and its [filename] label. *)
Record Metric : Type := mkMetric {
  metric_value : Z;
  metric_filename : string;
}.

(** [Collect] creates constant metrics for each file with last modified time
    of the file; [visit] and [emit] give the orders in which the two
    [range] loops visit the set of instances and [uniqueFiles]. *)
Definition Collect (heap : gmap positive Discovery) (t : TimestampCollector)
    (visit : gset positive -> list positive)
    (emit : gmap string Z -> list (string * Z)) : list Metric :=
  let uniqueFiles := collectUnique heap (visit (discoverers t)) in
  (fun '(filename, timestamp) => mkMetric timestamp filename) <$> emit uniqueFiles.

(** [NewDiscovery] returns a new file discovery for the given paths: the
    instance is allocated at the fresh address [a] and registered. *)
Definition NewDiscovery (conf : SDConfig) (a : positive)
    (heap : gmap positive Discovery) (t : TimestampCollector)
  : gmap positive Discovery * TimestampCollector :=
  let d := {| paths := Files conf; watcher := None;
              interval := RefreshInterval conf;
              timestamps := ∅; lastRefresh := ∅ |} in
  (<[a := d]> heap, addDiscoverer a t).

(* ================================================================= *)
(** ** The pattern validator *)

(** Regular expressions over bytes, as far as [patFileSDName] needs them. A
    class is given by its membership test. *)
Inductive regexp : Type :=
  | Void
  | Eps
  | Class (p : ascii -> bool)
  | Cat (r1 r2 : regexp)
  | Alt (r1 r2 : regexp)
  | Star (r : regexp).

Fixpoint nullable (r : regexp) : bool :=
  match r with
  | Void => false
  | Eps => true
  | Class _ => false
  | Cat r1 r2 => nullable r1 && nullable r2
  | Alt r1 r2 => nullable r1 || nullable r2
  | Star _ => true
  end.

Fixpoint deriv (c : ascii) (r : regexp) : regexp :=
  match r with
  | Void => Void
  | Eps => Void
  | Class p => if p c then Eps else Void
  | Cat r1 r2 =>
      if nullable r1 then Alt (Cat (deriv c r1) r2) (deriv c r2)
      else Cat (deriv c r1) r2
  | Alt r1 r2 => Alt (deriv c r1) (deriv c r2)
  | Star r1 => Cat (deriv c r1) (Star r1)
  end.

(** A match of the whole text. *)
Fixpoint matches (r : regexp) (s : list ascii) : bool :=
  match s with
  | [] => nullable r
  | c :: s' => matches (deriv c r) s'
  end.

Definition Char (c : ascii) : regexp := Class (fun x => bool_decide (x = c)).
Definition NotChar (c : ascii) : regexp := Class (fun x => negb (bool_decide (x = c))).
Definition Opt (r : regexp) : regexp := Alt r Eps.

Fixpoint Lit (s : list ascii) : regexp :=
  match s with
  | [] => Eps
  | c :: s' => Cat (Char c) (Lit s')
  end.

(** [patFileSDName], anchored at both ends: any bytes but a star; then,
    optionally, a star followed by any bytes but a slash; then a dot and one
    of json, yml, yaml, JSON, YML, YAML. With both anchors, [MatchString] is
    a match of the whole name. A negated class matches any byte but the one
    it excludes; the excluded bytes are ASCII, so matching bytes and
    matching runes agree. *)
Definition patFileSDName : regexp :=
  Cat (Star (NotChar "*"))
    (Cat (Opt (Cat (Char "*") (Star (NotChar "/"))))
       (Cat (Char ".")
          (Alt (Lit (bytes "json"))
             (Alt (Lit (bytes "yml"))
                (Alt (Lit (bytes "yaml"))
                   (Alt (Lit (bytes "JSON"))
                      (Alt (Lit (bytes "YML")) (Lit (bytes "YAML"))))))))).

Definition MatchString (re : regexp) (s : string) : bool := matches re (bytes s).

(** The loop of [UnmarshalYAML] over the path names; the message is kept
    without the quoting of [%q]. *)
Fixpoint checkNames (names : list string) : option error :=
  match names with
  | [] => None
  | name :: names' =>
      if negb (MatchString patFileSDName name)
      then Some (errors_New ("path name " +:+ name +:+ " is not valid for file discovery"))
      else checkNames names'
  end.

(** [UnmarshalYAML] implements the [yaml.Unmarshaler] interface: [unmarshal]
    fills the configuration it is given, or fails. The result is the
    configuration left in [*c] and the error returned. *)
Definition UnmarshalYAML (unmarshal : SDConfig -> res SDConfig)
  : SDConfig * option error :=
  let c := DefaultSDConfig in
  match unmarshal c with
  | fail err => (c, Some err)
  | ok c =>
      if (length (Files c) =? 0)%nat
      then (c, Some (errors_New
                       "file service discovery config must contain at least one path name"))
      else (c, checkNames (Files c))
  end.

(** The words a regular expression denotes. *)
Fixpoint lang (r : regexp) (s : list ascii) : Prop :=
  match r with
  | Void => False
  | Eps => s = []
  | Class p => exists c, s = [c] /\ p c = true
  | Cat r1 r2 => exists s1 s2, s = s1 ++ s2 /\ lang r1 s1 /\ lang r2 s2
  | Alt r1 r2 => lang r1 s \/ lang r2 s
  | Star r1 => exists ss, s = concat ss /\ Forall (lang r1) ss
  end.

(** The shape of a path name: bytes without a star; then nothing, or a star
    and bytes without a slash; then a dot and an extension that [okExt]
    accepts. *)
Definition shape (okExt : list ascii -> Prop) (name : list ascii) : Prop :=
  exists prefix wild ext,
    name = prefix ++ wild ++ "."%char :: ext /\
    ("*"%char ∉ prefix) /\
    (wild = [] \/ exists suffix, wild = "*"%char :: suffix /\ ("/"%char ∉ suffix)) /\
    okExt ext.

(** The extensions [patFileSDName] lists. *)
Definition listedExt (ext : list ascii) : Prop :=
  ext ∈ (bytes <$> ["json"; "yml"; "yaml"; "JSON"; "YML"; "YAML"]).

(** The extensions as the specification words them: json, yml or yaml in
    any mix of cases. *)
Definition specExt (ext : list ascii) : Prop :=
  ToLower (str ext) ∈ ["json"; "yml"; "yaml"].

(** The bytes that [Match], [Clean] or [Ext] treat in a special way. An
    extension is plain when it is not empty and holds none of them. *)
Definition special (c : ascii) : bool :=
  bool_decide (c ∈ bytes "*?[]\/.").

Definition plainExt (ext : list ascii) : bool :=
  negb (bool_decide (ext = [])) && forallb (fun c => negb (special c)) ext.

(** The extensions the decode dispatch of [readFile] handles. *)
Definition handledExt (filename : string) : bool :=
  bool_decide (ToLower (Ext filename) ∈ [".json"; ".yml"; ".yaml"]).

(* ================================================================= *)
(** ** A small world to run the model in *)

Definition exGroup (addr : string) : Group :=
  {| Targets := [{["__address__" := addr]}]; Labels := None; Source := "" |}.

Definition exLabelled (addr : string) : Group :=
  {| Targets := [{["__address__" := addr]}];
     Labels := Some {["k" := "v"]};
     Source := "" |}.

(** A decoder that knows five contents. *)
Definition exDecode (content : string) : res (list (option Group)) :=
  if bool_decide (content = "[]") then ok []
  else if bool_decide (content = "[a]") then ok [Some (exLabelled "a:1")]
  else if bool_decide (content = "[a,b]")
       then ok [Some (exGroup "a:1"); Some (exLabelled "b:2")]
  else if bool_decide (content = "[a,b,c]")
       then ok [Some (exGroup "a:1"); Some (exLabelled "b:2"); Some (exGroup "c:3")]
  else if bool_decide (content = "[a,null]") then ok [Some (exGroup "a:1"); None]
  else fail (decode_error "cannot unmarshal").

Definition exCodec : Codec := mkCodec exDecode exDecode.

Definition exFile (content : string) (mtime : Z) : File :=
  {| ReadAll := ok content; StatModTime := ok mtime |}.

(** A directory [conf] with three readable files, one that holds a null
    group and one that cannot be opened. *)
Definition exFS : FileSystem :=
  {| os_Open := fun p =>
       if bool_decide (p = "conf/a.json") then ok (exFile "[a,b]" 1700000000)
       else if bool_decide (p = "conf/b.yml") then ok (exFile "[a]" 1700000100)
       else if bool_decide (p = "conf/e.json") then ok (exFile "[]" 1700000200)
       else if bool_decide (p = "conf/n.json") then ok (exFile "[a,null]" 1700000300)
       else fail (os_error "no such file or directory");
     os_Lstat := fun p =>
       bool_decide (p ∈ ["conf/a.json"; "conf/b.yml"; "conf/e.json";
                         "conf/n.json"; "conf/x.json"]);
     readdir := fun d =>
       if bool_decide (d = "conf")
       then Some ["b.yml"; "a.json"; "x.json"; "notes.txt"]
       else None |}.

Definition exDiscovery (files : list string) (last : gmap string Z) : Discovery :=
  {| paths := files; watcher := Some [];
     interval := RefreshInterval DefaultSDConfig;
     timestamps := ∅; lastRefresh := last |}.

Definition exState (d : Discovery) : State :=
  {| disc := d; fileSDReadErrorsCount := 0; fileSDScanDuration := 0;
     sent := []; ctx := None |}.

(** A previous baseline: [conf/a.json] had three groups, [conf/gone.json],
    which is no longer listed, had two, and [conf/x.json] had four. *)
Definition exLast : gmap string Z :=
  {["conf/a.json" := 3; "conf/gone.json" := 2; "conf/x.json" := 4]}.

(** An instance on a glob and a plain name, with that baseline; listing
    finds [conf/a.json], [conf/x.json] (which cannot be opened) and
    [conf/b.yml]. *)
Definition exShrunk : State :=
  exState (exDiscovery ["conf/*.json"; "conf/b.yml"] exLast).

(** An instance on two plain names that both read without error. *)
Definition exSteady : State :=
  exState (exDiscovery ["conf/a.json"; "conf/b.yml"] ∅).

(** A configuration with the default refresh interval. *)
Definition exConf (files : list string) : SDConfig :=
  {| Files := files; RefreshInterval := RefreshInterval DefaultSDConfig |}.

(** Two instances on the same path: the one at address 1 is registered
    first and read the file at time 100, the one at address 2 is registered
    second and read it at time 200. *)
Definition exRegistered : gmap positive Discovery * TimestampCollector :=
  let '(heap1, t1) := NewDiscovery (exConf ["conf/a.json"]) 1 ∅ NewTimestampCollector in
  NewDiscovery (exConf ["conf/a.json"]) 2 heap1 t1.

Definition exHeap : gmap positive Discovery :=
  alter (set_timestamps {["conf/a.json" := 200]}) 2%positive
    (alter (set_timestamps {["conf/a.json" := 100]}) 1%positive exRegistered.1).

Definition exCollector : TimestampCollector := exRegistered.2.

(** A configuration source holding one path name with a mixed-case
    extension. *)
Definition exMixedCase (c : SDConfig) : res SDConfig :=
  ok {| Files := ["conf/targets.Json"]; RefreshInterval := RefreshInterval c |}.


(** A configuration source holding two well-formed path names. *)
Definition exTwoNames (c : SDConfig) : res SDConfig :=
  ok {| Files := ["conf/*.json"; "conf/b.yml"]; RefreshInterval := RefreshInterval c |}.

(* ================================================================= *)
(** ** What one scan computes, read off the state it starts in *)

(** A state with nothing in it, to read [readFile]'s value off. *)
Definition idleState : State :=
  {| disc := {| paths := []; watcher := None; interval := 0; timestamps := ∅;
                lastRefresh := ∅ |};
     fileSDReadErrorsCount := 0; fileSDScanDuration := 0; sent := []; ctx := None |}.

(** The value [readFile] returns for a path: it depends on the file system
    only ([readFile_value] below). *)
Definition readValue {codec : Codec} (fs : FileSystem) (p : string)
  : outcome (res (list Group)) :=
  (readFile fs p idleState).1.

Definition readPanics {codec : Codec} (fs : FileSystem) (p : string) : bool :=
  match readValue fs p with Panicked _ => true | _ => false end.

Definition readFails {codec : Codec} (fs : FileSystem) (p : string) : bool :=
  match readValue fs p with Ret (fail _) => true | _ => false end.

Definition readGroups {codec : Codec} (fs : FileSystem) (p : string) : option (list Group) :=
  match readValue fs p with Ret (ok tgs) => Some tgs | _ => None end.

(** The modification time [readFile] records for a path it reads. *)
Definition mtimeOf (fs : FileSystem) (p : string) : Z :=
  match os_Open fs p with
  | ok fd => match StatModTime fd with ok t => t | fail _ => 0 end
  | fail _ => 0
  end.

(** The new count map after the first loop of [refresh] over [files]. *)
Fixpoint scanRef {codec : Codec} (fs : FileSystem) (last : gmap string Z)
    (files : list string) (ref : gmap string Z) : gmap string Z :=
  match files with
  | [] => ref
  | p :: files' =>
      match readGroups fs p with
      | Some tgs => scanRef fs last files' (<[p := Z.of_nat (length tgs)]> ref)
      | None => scanRef fs last files' (<[p := zlookup last p]> ref)
      end
  end.

(** The batches the first loop sends: one per file read, in order. *)
Definition scanBatches {codec : Codec} (fs : FileSystem) (files : list string)
  : list (list Group) :=
  omap (readGroups fs) files.

(** The number of reads that fail in the first loop. *)
Definition scanErrors {codec : Codec} (fs : FileSystem) (files : list string) : Z :=
  Z.of_nat (length (filter (fun p => readFails fs p = true) files)).

(** The timestamp map after the first loop. *)
Definition scanTimestamps {codec : Codec} (fs : FileSystem) (files : list string)
    (ts : gmap string Z) : gmap string Z :=
  foldl (fun ts p => match readGroups fs p with
                     | Some _ => <[p := mtimeOf fs p]> ts
                     | None => ts
                     end) ts files.

(** A computation that leaves the number of observed scans alone. *)
Definition keeps_scans {A} (c : M A) : Prop :=
  forall st, fileSDScanDuration (c st).2 = fileSDScanDuration st.

(** The test of the second loop: the path is gone or has fewer groups. *)
Definition shrunk (ref : gmap string Z) (f : string) (n : Z) : bool :=
  negb (bool_decide (is_Some (ref !! f))) || (zlookup ref f <? n).

(** The batches sent for one path of the previous baseline with count [n]
    whose new count is [m]: one tombstone per index from [m] to [n-1]. *)
Definition tombstoneBatches (f : string) (m n : Z) : list (list Group) :=
  (fun i => [tombstone f i]) <$> seqZ m (n - m).

(** The batches the second loop sends, path by path in visiting order. *)
Definition deleteBatches (order : list (string * Z)) (ref : gmap string Z)
  : list (list Group) :=
  concat ((fun '(f, n) => tombstoneBatches f (zlookup ref f) n) <$> order).

(** The timestamp map after the second loop. *)
Definition deleteTimestamps (order : list (string * Z)) (ref : gmap string Z)
    (ts : gmap string Z) : gmap string Z :=
  foldl (fun ts '(f, n) => if shrunk ref f n then delete f ts else ts) ts order.

(* ================================================================= *)
(** ** Views of the engine as a whole *)

(** A computation of the engine: it leaves the patterns, the watcher and the
    baseline alone, only appends to the channel, and accounts for every send
    against the budget of the context. *)
Definition engine_step {A} (c : M A) : Prop :=
  forall st,
    paths (disc (c st).2) = paths (disc st) /\
    watcher (disc (c st).2) = watcher (disc st) /\
    lastRefresh (disc (c st).2) = lastRefresh (disc st) /\
    exists new,
      sent (c st).2 = sent st ++ new /\
      match ctx st with
      | None => ctx (c st).2 = None /\ (c st).1 <> Cancelled
      | Some k =>
          ctx (c st).2 = Some (k - length new)%nat /\ (length new <= k)%nat /\
          ((c st).1 = Cancelled -> length new = k)
      end.

(** A computation that never panics. *)
Definition never_panics {A} (c : M A) : Prop :=
  forall st msg, (c st).1 <> Panicked msg.

(** The two loops of [refresh], one after the other, returning the new count
    map. *)
Definition scanAndDelete {codec : Codec} (fs : FileSystem) (order : list (string * Z))
  : M (gmap string Z) :=
  d ← get_disc;
  ref ← readLoop fs (listFiles fs d) ∅;
  deleteLoop order ref;;
  mret ref.

(** The number of refreshes the loop of [Run] starts on a schedule: one per
    tick and per event that gets past the filters, up to the first
    [ctx.Done()]. *)
Fixpoint refreshCount (sched : list (selected * choice)) : nat :=
  match sched with
  | [] => 0
  | (SelDone, _) :: _ => 0
  | (SelEvent event, _) :: sched' =>
      (if eventRequiresRefresh event then 1 else 0) + refreshCount sched'
  | (SelTick, _) :: sched' => S (refreshCount sched')
  | (SelError _, _) :: sched' => refreshCount sched'
  end.

(** Whether the loop of [Run] reaches its [return] on a schedule: the
    [ctx.Done()] case is among the cases taken. *)
Fixpoint loopReturns (sched : list (selected * choice)) : bool :=
  match sched with
  | [] => false
  | (SelDone, _) :: _ => true
  | _ :: sched' => loopReturns sched'
  end.

(** A computation that leaves the refresh interval alone. *)
Definition keeps_interval {A} (c : M A) : Prop :=
  forall st, interval (disc (c st).2) = interval (disc st).

(** The instance of [exShrunk] under a context that lets one send through
    before it is done. *)
Definition exImpatient : State := set_ctx (Some 1%nat) exShrunk.

(** An instance whose watcher was never set. *)
Definition exUnwatched : State :=
  exState {| paths := ["conf/b.yml"]; watcher := None;
             interval := RefreshInterval DefaultSDConfig; timestamps := ∅;
             lastRefresh := ∅ |}.

(** A schedule for [Run]: a tick, a permission change, a write, then
    [ctx.Done()], and a tick that is never taken. *)
Definition exSchedule : list (selected * choice) :=
  [(SelTick, mkChoice [] None);
   (SelEvent (mkEvent "conf/a.json" Chmod), mkChoice [] None);
   (SelEvent (mkEvent "conf/a.json" Write), mkChoice [] None);
   (SelDone, mkChoice [] None);
   (SelTick, mkChoice [] None)].

(* ================================================================= *)
(** ** The Kafka target *)

Module Kafka.

(** [sarama.ConsumerMessage], as far as [run] reads it. *)
Record ConsumerMessage : Type := mkMessage {
  Key : string;
  Value : string;
  Timestamp : Z;
}.

(** [model.LabelSet] is a map from label names to label values; in its
    [Merge] the labels of [other] win. *)
Definition Merge (l other : gmap string string) : gmap string string := other ∪ l.

(** [api.Entry]. *)
Record Entry : Type := mkEntry {
  Line : string;
  EntryTimestamp : Z;
  Labels : gmap string string;
}.

(** [Target], as far as [run] reads it; [Config] stands for
    [[]*relabel.Config]. *)
Record Target (Config : Type) : Type := mkTarget {
  lbs : gmap string string;
  relabelConfig : Config;
  useIncomingTimestamp : bool;
}.
Arguments mkTarget {Config}.
Arguments lbs {Config}.
Arguments relabelConfig {Config}.
Arguments useIncomingTimestamp {Config}.

Definition defaultKafkaMessageKey : string := "none".
Definition labelKeyKafkaMessageKey : string := "__meta_kafka_message_key".

(** [timestamp]; [now] is what [time.Now()] reads at the call. *)
Definition timestamp (useIncoming : bool) (incoming now : Z) : Z :=
  if useIncoming then incoming else now.

(** What [run] does to the outside: entries sent on [t.client.Chan()],
    messages marked on the session, the client stopped. *)
Inductive Action : Type :=
  | Send (e : Entry)
  | MarkMessage (message : ConsumerMessage)
  | Stop.

(** The body of the loop of [run] for one message; [format] is the
    package's label formatter. *)
Definition handle {Config} (format : list (string * string) -> Config -> gmap string string)
    (t : Target Config) (now : Z) (message : ConsumerMessage) : list Action :=
  let mk := Key message in
  let mk := if bool_decide (String.length mk = 0%nat)
            then defaultKafkaMessageKey else mk in
  let lbs' := format [(labelKeyKafkaMessageKey, mk)] (relabelConfig t) in
  let out := lbs t in
  let out := if bool_decide (0 < size lbs')%nat then Merge out lbs' else out in
  [Send (mkEntry (Value message)
           (timestamp (useIncomingTimestamp t) (Timestamp message) now) out);
   MarkMessage message].

(** The loop of [run] over the messages the claim delivers until its
    channel is closed; [clock i] is the time during iteration [i]. *)
Fixpoint runLoop {Config} (format : list (string * string) -> Config -> gmap string string)
    (t : Target Config) (clock : nat -> Z) (i : nat)
    (messages : list ConsumerMessage) (trace : list Action) : list Action :=
  match messages with
  | [] => trace
  | message :: messages' =>
      runLoop format t clock (S i) messages'
        (trace ++ handle format t (clock i) message)
  end.

(** [run], with the deferred [t.client.Stop()]. *)
Definition run {Config} (format : list (string * string) -> Config -> gmap string string)
    (t : Target Config) (clock : nat -> Z) (messages : list ConsumerMessage)
    (trace : list Action) : list Action :=
  runLoop format t clock 0 messages trace ++ [Stop].

(** The entries and the marks of a trace, in order. *)
Definition sends (trace : list Action) : list Entry :=
  omap (fun a => match a with Send e => Some e | _ => None end) trace.

Definition marks (trace : list Action) : list ConsumerMessage :=
  omap (fun a => match a with MarkMessage m => Some m | _ => None end) trace.

End Kafka.

(* ================================================================= *)
(** * Properties *)

(** ** The content reader *)

Ltac unfold_M :=
  unfold mbind, M_bind, bind, mret, M_ret, ret, panic, modify_disc, get_disc in *.

Section ContentReader.
Context {codec : Codec}.

Lemma stampGroups_nil_elem filename i tgs :
  None ∈ tgs ->
  stampGroups filename i tgs = fail (errors_New "nil target group item found").
Proof.
  revert i. induction tgs as [|[tg|] tgs IH]; intros i Hin.
  - by apply elem_of_nil in Hin.
  - apply elem_of_cons in Hin as [?|Hin]; [done|].
    simpl. by rewrite (IH _ Hin).
  - done.
Qed.

Lemma stampGroups_Some filename i groups :
  exists tgs,
    stampGroups filename i (Some <$> groups) = ok tgs /\
    length tgs = length groups /\
    forall (k : nat) g, groups !! k = Some g ->
      tgs !! k = Some {| Targets := Targets g;
                         Labels := Some (<[fileSDFilepathLabel := filename]>
                                           (default ∅ (Labels g)));
                         Source := fileSource filename (i + Z.of_nat k) |}.
Proof.
  revert i. induction groups as [|g groups IH]; intros i.
  - exists []. by split_and!.
  - destruct (IH (i + 1)) as (tgs & Heq & Hlen & Hk).
    eexists. rewrite fmap_cons. cbn [stampGroups]. rewrite Heq.
    split_and!; [done|by simpl; f_equal|].
    intros [|k] g' Hg'; simplify_eq/=.
    + by rewrite Z.add_0_r.
    + rewrite (Hk _ _ Hg'). do 3 f_equal. lia.
Qed.

(** Every way out of [readFile] but the successful one leaves the state
    as it was; the successful one writes one timestamp. *)
Lemma readFile_state fs filename st r st' :
  readFile fs filename st = (r, st') ->
  match r with
  | Ret (ok _) =>
      exists mtime,
        (exists fd, os_Open fs filename = ok fd /\ StatModTime fd = ok mtime) /\
        st' = set_disc (set_timestamps (<[filename := mtime]> (timestamps (disc st)))
                          (disc st)) st
  | _ => st' = st
  end.
Proof.
  unfold readFile, writeTimestamp. unfold_M.
  destruct (os_Open fs filename) as [fd|]; [|by intros [= <- <-]].
  destruct (ReadAll fd); [|by intros [= <- <-]].
  destruct (StatModTime fd) eqn:Hst; [|by intros [= <- <-]].
  destruct (decodeByExt _ _) as [[tgs|]|]; [| by intros [= <- <-]..].
  destruct (stampGroups _ _ _); intros [= <- <-]; eauto.
Qed.

(** The value [readFile] returns does not depend on the state. *)
Lemma readFile_value fs filename st1 st2 :
  (readFile fs filename st1).1 = (readFile fs filename st2).1.
Proof.
  unfold readFile, writeTimestamp. unfold_M.
  repeat case_match; simplify_eq/=; done.
Qed.

(** C3. A file that decodes into N groups, none of them null, makes
    [readFile] return exactly N groups: the group at index [i] has the
    source [<path>:<i>], keeps its targets, and has a label set (a new one
    when the decoded group had none) that maps the file path label to the
    path. An empty list is a success with no group, not an error. *)
Theorem C3_readFile_stamps_groups fs filename st fd content mtime groups :
  os_Open fs filename = ok fd ->
  ReadAll fd = ok content ->
  StatModTime fd = ok mtime ->
  decodeByExt filename content = Some (ok (Some <$> groups)) ->
  exists tgs st',
    readFile fs filename st = (Ret (ok tgs), st') /\
    length tgs = length groups /\
    (forall (i : nat) g, groups !! i = Some g ->
       exists g' ls,
         tgs !! i = Some g' /\
         Source g' = fileSource filename (Z.of_nat i) /\
         Targets g' = Targets g /\
         Labels g' = Some ls /\
         ls !! fileSDFilepathLabel = Some filename /\
         (forall k, k <> fileSDFilepathLabel ->
            ls !! k = default ∅ (Labels g) !! k)) /\
    (groups = [] -> tgs = []).
Proof.
  intros Hopen Hread Hstat Hdec.
  destruct (stampGroups_Some filename 0 groups) as (tgs & Heq & Hlen & Hk).
  exists tgs. eexists. split_and!.
  - unfold readFile. rewrite Hopen, Hread, Hstat, Hdec, Heq. reflexivity.
  - done.
  - intros i g Hg. do 2 eexists. split_and!; [by apply Hk|done..| |].
    + apply lookup_insert_eq.
    + intros k Hne. by apply lookup_insert_ne.
  - intros ->. by destruct tgs.
Qed.

(** C4. A file whose content decodes to a sequence with a null element
    makes [readFile] fail for the whole file: it returns the error and no
    group, whatever the other elements are. *)
Theorem C4_readFile_null_group_fails fs filename st fd content mtime decoded :
  os_Open fs filename = ok fd ->
  ReadAll fd = ok content ->
  StatModTime fd = ok mtime ->
  decodeByExt filename content = Some (ok decoded) ->
  None ∈ decoded ->
  readFile fs filename st
  = (Ret (fail (errors_New "nil target group item found")), st).
Proof.
  intros Hopen Hread Hstat Hdec Hnil.
  unfold readFile. rewrite Hopen, Hread, Hstat, Hdec.
  by rewrite (stampGroups_nil_elem _ _ _ Hnil).
Qed.

(** C10. Whenever [readFile] does not return groups (open, read, stat or
    decode failure, a null group element) the timestamp map is the one it
    started with; the entry of the file is written only when the read,
    the decoding and the validation have all succeeded. *)
Theorem C10_readFile_timestamp_only_on_success fs filename st r st' :
  readFile fs filename st = (r, st') ->
  ((forall tgs, r <> Ret (ok tgs)) ->
     timestamps (disc st') = timestamps (disc st)) /\
  (forall tgs, r = Ret (ok tgs) ->
     exists fd content mtime decoded,
       os_Open fs filename = ok fd /\ ReadAll fd = ok content /\
       StatModTime fd = ok mtime /\
       decodeByExt filename content = Some (ok decoded) /\
       stampGroups filename 0 decoded = ok tgs /\
       timestamps (disc st') = <[filename := mtime]> (timestamps (disc st))).
Proof.
  unfold readFile, writeTimestamp. unfold_M.
  destruct (os_Open fs filename) as [fd|] eqn:Hopen;
    [|intros [= <- <-]; split; [done|intros ? [=]]].
  destruct (ReadAll fd) as [content|] eqn:Hread;
    [|intros [= <- <-]; split; [done|intros ? [=]]].
  destruct (StatModTime fd) as [mtime|] eqn:Hst;
    [|intros [= <- <-]; split; [done|intros ? [=]]].
  destruct (decodeByExt _ _) as [[decoded|]|] eqn:Hdec;
    [|intros [= <- <-]; split; [done|intros ? [=]]..].
  destruct (stampGroups _ _ _) as [tgs|] eqn:Hstamp;
    intros [= <- <-]; (split; [|intros ? [=]]); [|subst|done].
  - intros Hne. by destruct (Hne tgs).
  - by exists fd, content, mtime, decoded.
Qed.

End ContentReader.

(** ** The reconciliation engine *)

Section Reconciliation.
Context {codec : Codec}.

Lemma readFile_eq fs p st :
  readFile fs p st
  = (readValue fs p,
     match readGroups fs p with
     | Some _ =>
         set_disc (set_timestamps (<[p := mtimeOf fs p]> (timestamps (disc st)))
                     (disc st)) st
     | None => st
     end).
Proof.
  unfold readGroups, readValue.
  rewrite (readFile_value fs p idleState st).
  destruct (readFile fs p st) as [r st'] eqn:Hr.
  apply readFile_state in Hr. simpl.
  destruct r as [[tgs|]| |]; subst; try done.
  destruct Hr as (mtime & (fd & Hopen & Hstat) & ->).
  unfold mtimeOf. by rewrite Hopen, Hstat.
Qed.

Lemma readValue_cases fs p :
  readPanics fs p = false ->
  (exists tgs, readValue fs p = Ret (ok tgs) /\
               readGroups fs p = Some tgs /\ readFails fs p = false) \/
  (exists e, readValue fs p = Ret (fail e) /\
             readGroups fs p = None /\ readFails fs p = true).
Proof.
  unfold readPanics, readGroups, readFails, readValue.
  unfold readFile, writeTimestamp. unfold_M.
  repeat case_match; simplify_eq/=; eauto; done.
Qed.

Lemma send_uncancelled batch st :
  ctx st = None ->
  send batch st
  = (Ret tt, mkState (disc st) (fileSDReadErrorsCount st) (fileSDScanDuration st)
               (sent st ++ [batch]) None).
Proof. unfold send. by intros ->. Qed.

(** The first loop, when cancellation never wins and no read panics. *)
Lemma readLoop_spec fs files ref st :
  ctx st = None ->
  Forall (fun p => readPanics fs p = false) files ->
  readLoop fs files ref st
  = (Ret (scanRef fs (lastRefresh (disc st)) files ref),
     mkState
       (set_timestamps (scanTimestamps fs files (timestamps (disc st))) (disc st))
       (fileSDReadErrorsCount st + scanErrors fs files)
       (fileSDScanDuration st)
       (sent st ++ scanBatches fs files)
       None).
Proof.
  intros Hctx Hpanic. revert ref st Hctx.
  induction Hpanic as [|p files Hp _ IH]; intros ref st Hctx.
  - destruct st as [[] ? ? ? ?]; simpl in *; subst.
    unfold scanErrors. simpl. unfold mret, M_ret, ret.
    by rewrite Z.add_0_r, app_nil_r.
  - cbn [readLoop]. unfold mbind, M_bind, bind at 1.
    rewrite readFile_eq.
    unfold scanErrors, scanBatches, scanTimestamps.
    rewrite filter_cons. cbn [scanRef omap list_omap foldl].
    destruct (readValue_cases fs p Hp)
      as [(tgs & -> & -> & ->)|(e & -> & -> & ->)].
    + unfold bind at 1. rewrite send_uncancelled by done.
      rewrite IH by done. simpl.
      rewrite <-app_assoc. done.
    + unfold bind at 1. unfold incReadErrors at 1. unfold bind at 1.
      unfold get_disc at 1. rewrite IH by done. simpl.
      unfold scanErrors, scanTimestamps, scanBatches.
      rewrite Nat2Z.inj_succ, <-Z.add_1_l, Z.add_assoc. done.
Qed.

Lemma sendTombstones_spec f i count st :
  ctx st = None ->
  sendTombstones f i count st
  = (Ret tt, mkState (disc st) (fileSDReadErrorsCount st) (fileSDScanDuration st)
               (sent st ++ ((fun i => [tombstone f i]) <$> seqZ i (Z.of_nat count)))
               None).
Proof.
  revert i st. induction count as [|count IH]; intros i st Hctx.
  - destruct st; simpl in *; subst. unfold mret, M_ret, ret.
    by rewrite app_nil_r.
  - cbn [sendTombstones]. unfold mbind, M_bind, bind.
    rewrite send_uncancelled by done. rewrite IH by done.
    rewrite Nat2Z.inj_succ, (seqZ_cons i) by lia.
    rewrite Z.pred_succ. cbn [sent disc fileSDReadErrorsCount fileSDScanDuration].
    rewrite <-app_assoc. rewrite fmap_cons. replace (Z.succ i) with (i + 1) by lia.
    done.
Qed.

Lemma tombstoneBatches_empty f m n : n <= m -> tombstoneBatches f m n = [].
Proof. intros Hle. unfold tombstoneBatches. by rewrite seqZ_nil by lia. Qed.

(** The second loop, when cancellation never wins. *)
Lemma deleteLoop_spec order ref st :
  ctx st = None ->
  deleteLoop order ref st
  = (Ret tt,
     mkState
       (set_timestamps (deleteTimestamps order ref (timestamps (disc st))) (disc st))
       (fileSDReadErrorsCount st)
       (fileSDScanDuration st)
       (sent st ++ deleteBatches order ref)
       None).
Proof.
  revert st. induction order as [|[f n] order IH]; intros st Hctx.
  - destruct st as [[] ? ? ? ?]; simpl in *; subst.
    unfold mret, M_ret, ret, deleteBatches. simpl. by rewrite app_nil_r.
  - cbn [deleteLoop]. unfold deleteBatches, deleteTimestamps.
    cbn [fmap list_fmap concat foldl]. fold (shrunk ref f n).
    unfold mbind, M_bind. unfold bind at 1.
    destruct (shrunk ref f n) eqn:Hs.
    + unfold bind at 1. unfold deleteTimestamp, modify_disc at 1.
      rewrite sendTombstones_spec by done. rewrite IH by done. simpl.
      unfold deleteBatches, deleteTimestamps, tombstoneBatches.
      rewrite <-app_assoc.
      destruct (decide (0 <= n - zlookup ref f)).
      * by rewrite Z2Nat.id by done.
      * rewrite (seqZ_nil _ (n - _)) by lia.
        replace (Z.to_nat (n - zlookup ref f)) with 0%nat by lia. done.
    + unfold mret, M_ret, ret at 1. rewrite IH by done. simpl.
      unfold deleteBatches, deleteTimestamps.
      rewrite tombstoneBatches_empty; [done|].
      unfold shrunk in Hs. apply orb_false_iff in Hs as [_ Hs]. lia.
Qed.

(** One whole [refresh] that is not cancelled, with a watcher in place and
    no read that panics: it returns, and this is the state it leaves. *)
Lemma refresh_spec fs order st w :
  ctx st = None ->
  watcher (disc st) = Some w ->
  Forall (fun p => readPanics fs p = false) (listFiles fs (disc st)) ->
  let files := listFiles fs (disc st) in
  let ref := scanRef fs (lastRefresh (disc st)) files ∅ in
  refresh fs order st
  = (Ret tt,
     mkState
       (mkDiscovery (paths (disc st))
          (Some (w ++ (watchDir <$> paths (disc st))))
          (interval (disc st))
          (deleteTimestamps order ref
             (scanTimestamps fs files (timestamps (disc st))))
          ref)
       (fileSDReadErrorsCount st + scanErrors fs files)
       (S (fileSDScanDuration st))
       (sent st ++ scanBatches fs files ++ deleteBatches order ref)
       None).
Proof.
  intros Hctx Hw Hpanic files ref. unfold refresh.
  unfold mbind, M_bind. unfold bind at 1. unfold get_disc at 1.
  unfold bind at 1. rewrite readLoop_spec by done.
  unfold bind at 1. rewrite deleteLoop_spec by done.
  unfold bind at 1. unfold modify_disc at 1. unfold watchFiles.
  cbn [disc watcher set_disc set_lastRefresh set_timestamps paths timestamps
       lastRefresh fileSDReadErrorsCount fileSDScanDuration sent ctx].
  rewrite Hw. unfold observeScan, set_disc, set_watcher. simpl.
  by rewrite <-app_assoc.
Qed.

Lemma deleteTimestamps_None order ref ts f :
  ts !! f = None -> deleteTimestamps order ref ts !! f = None.
Proof.
  revert ts. induction order as [|[g n] order IH]; intros ts Hts; [done|].
  unfold deleteTimestamps. cbn [foldl]. apply IH.
  destruct (shrunk ref g n); [|done].
  destruct (decide (g = f)) as [->|]; [apply lookup_delete_eq|].
  by rewrite lookup_delete_ne.
Qed.

Lemma deleteTimestamps_shrunk order ref ts f n :
  (f, n) ∈ order -> shrunk ref f n = true ->
  deleteTimestamps order ref ts !! f = None.
Proof.
  revert ts. induction order as [|[g k] order IH]; intros ts Hin Hs.
  - by apply elem_of_nil in Hin.
  - unfold deleteTimestamps. cbn [foldl].
    apply elem_of_cons in Hin as [[= <- <-]|Hin].
    + rewrite Hs. apply deleteTimestamps_None, lookup_delete_eq.
    + by apply IH.
Qed.

Lemma tombstoneBatches_length f m n :
  length (tombstoneBatches f m n) = Z.to_nat (n - m).
Proof. unfold tombstoneBatches. by rewrite length_fmap, length_seqZ. Qed.

Lemma tombstoneBatches_lookup f m n (k : nat) :
  (Z.of_nat k < n - m) ->
  tombstoneBatches f m n !! k
  = Some [ {| Targets := []; Labels := None;
              Source := fileSource f (m + Z.of_nat k) |} ].
Proof.
  intros Hk. unfold tombstoneBatches.
  by rewrite list_lookup_fmap, lookup_seqZ_lt by lia.
Qed.

(** C1. In a refresh that runs to its end, every path of the previous
    baseline with count [n] whose count [m] in the new scan (0 when the
    path is absent from it) is below [n] loses its timestamp entry and
    gets, for each index from [m] to [n-1] in turn, one batch of a single
    group that has the source [<path>:<i>], no labels and no targets; a
    path with [m >= n] gets no such batch. The batches of the second loop
    are exactly these, path by path in visiting order, after the batches
    of the files read. *)
Theorem C1_refresh_sends_tombstones fs order st w :
  ctx st = None ->
  watcher (disc st) = Some w ->
  Forall (fun p => readPanics fs p = false) (listFiles fs (disc st)) ->
  order ≡ₚ map_to_list (lastRefresh (disc st)) ->
  exists st',
    refresh fs order st = (Ret tt, st') /\
    let ref := lastRefresh (disc st') in
    sent st'
    = sent st ++ scanBatches fs (listFiles fs (disc st))
        ++ concat ((fun '(f, n) => tombstoneBatches f (zlookup ref f) n) <$> order) /\
    forall f n,
      lastRefresh (disc st) !! f = Some n ->
      let m := zlookup ref f in
      (m < n ->
         timestamps (disc st') !! f = None /\
         length (tombstoneBatches f m n) = Z.to_nat (n - m) /\
         forall k : nat, Z.of_nat k < n - m ->
           tombstoneBatches f m n !! k
           = Some [ {| Targets := []; Labels := None;
                       Source := f +:+ ":" +:+ itoa (m + Z.of_nat k) |} ]) /\
      (n <= m -> tombstoneBatches f m n = []).
Proof.
  intros Hctx Hw Hpanic Hperm. eexists. split; [by apply refresh_spec|].
  cbn [disc lastRefresh sent timestamps]. split; [done|].
  intros f n Hf. split.
  - intros Hlt. split_and!.
    + apply (deleteTimestamps_shrunk _ _ _ f n).
      * rewrite Hperm. by apply elem_of_map_to_list.
      * unfold shrunk. apply orb_true_iff. right. lia.
    + apply tombstoneBatches_length.
    + apply tombstoneBatches_lookup.
  - apply tombstoneBatches_empty.
Qed.

Lemma scanRef_failed fs last files ref p :
  readGroups fs p = None ->
  p ∈ files \/ ref !! p = Some (zlookup last p) ->
  scanRef fs last files ref !! p = Some (zlookup last p).
Proof.
  intros Hp. revert ref. induction files as [|q files IH]; intros ref Hin.
  - destruct Hin as [Hin|]; [by apply elem_of_nil in Hin|done].
  - cbn [scanRef]. destruct (decide (q = p)) as [->|Hne].
    + rewrite Hp. apply IH. right. apply lookup_insert_eq.
    + destruct Hin as [Hin|Href].
      * apply elem_of_cons in Hin as [->|Hin]; [done|].
        destruct (readGroups fs q); apply IH; by left.
      * destruct (readGroups fs q); apply IH; right;
          by rewrite lookup_insert_ne.
Qed.

Lemma readFails_readGroups fs p : readFails fs p = true -> readGroups fs p = None.
Proof. unfold readFails, readGroups. by repeat case_match. Qed.

(** C2. A path whose read or decoding fails is counted and skipped: the
    loop adds one to the read error counter, records the previous count of
    the path in the new map and goes on with the files that remain. After
    the whole refresh the baseline holds the previous count for the path,
    the second loop sends no tombstone for it, and the counter has grown
    by the number of reads that failed. *)
Theorem C2_read_failure_carries_count fs order st w p :
  ctx st = None ->
  watcher (disc st) = Some w ->
  Forall (fun p => readPanics fs p = false) (listFiles fs (disc st)) ->
  p ∈ listFiles fs (disc st) ->
  readFails fs p = true ->
  (forall files ref st0,
     readLoop fs (p :: files) ref st0
     = readLoop fs files (<[p := zlookup (lastRefresh (disc st0)) p]> ref)
         (mkState (disc st0) (fileSDReadErrorsCount st0 + 1)
            (fileSDScanDuration st0) (sent st0) (ctx st0))) /\
  exists st',
    refresh fs order st = (Ret tt, st') /\
    let ref := lastRefresh (disc st') in
    ref !! p = Some (zlookup (lastRefresh (disc st)) p) /\
    fileSDReadErrorsCount st'
    = fileSDReadErrorsCount st + scanErrors fs (listFiles fs (disc st)) /\
    sent st'
    = sent st ++ scanBatches fs (listFiles fs (disc st))
        ++ concat ((fun '(f, n) => tombstoneBatches f (zlookup ref f) n) <$> order) /\
    forall n, lastRefresh (disc st) !! p = Some n ->
              tombstoneBatches p (zlookup ref p) n = [].
Proof.
  intros Hctx Hw Hpanic Hin Hfail. split.
  - intros files ref st0. cbn [readLoop]. unfold mbind, M_bind. unfold bind at 1.
    rewrite readFile_eq. rewrite (readFails_readGroups _ _ Hfail).
    unfold readFails in Hfail.
    destruct (readValue fs p) as [[|e]| |]; try done.
  - eexists. split; [by apply refresh_spec|].
    cbn [disc lastRefresh sent timestamps fileSDReadErrorsCount].
    assert (scanRef fs (lastRefresh (disc st)) (listFiles fs (disc st)) ∅ !! p
            = Some (zlookup (lastRefresh (disc st)) p)) as Href.
    { apply scanRef_failed; [by apply readFails_readGroups|by left]. }
    split_and!; [done..|].
    intros n Hn. apply tombstoneBatches_empty.
    unfold zlookup at 1. rewrite Href. simpl. unfold zlookup. by rewrite Hn.
Qed.

Lemma scanRef_all_read fs last last' files ref :
  Forall (fun p => is_Some (readGroups fs p)) files ->
  scanRef fs last files ref = scanRef fs last' files ref.
Proof.
  intros Hok. revert ref. induction Hok as [|p files [tgs Hp] _ IH]; intros ref.
  - done.
  - cbn [scanRef]. rewrite Hp. apply IH.
Qed.

Lemma deleteBatches_same ref order :
  order ≡ₚ map_to_list ref -> deleteBatches order ref = [].
Proof.
  intros Hperm. unfold deleteBatches.
  assert (Forall (fun fn => (fn.1, fn.2) ∈ map_to_list ref) order) as Hall.
  { apply Forall_forall. intros [f n] Hin. by rewrite <-Hperm. }
  clear Hperm. induction Hall as [|[f n] order Hfn _ IH]; [done|].
  rewrite fmap_cons. cbn [concat]. rewrite IH, app_nil_r.
  apply elem_of_map_to_list in Hfn. apply tombstoneBatches_empty.
  unfold zlookup. simpl in Hfn. by rewrite Hfn.
Qed.

Lemma readGroups_not_panics fs files :
  Forall (fun p => is_Some (readGroups fs p)) files ->
  Forall (fun p => readPanics fs p = false) files.
Proof.
  intros Hok. eapply Forall_impl; [exact Hok|].
  intros p [tgs Hp]. unfold readGroups, readPanics in *.
  by repeat case_match.
Qed.

(** C6. Two refreshes in a row over the same files, all of which read
    without error: the second sends, file by file, the batches the first
    sent, and no tombstone batch at all. *)
Theorem C6_second_refresh_idempotent fs order1 st w :
  ctx st = None ->
  watcher (disc st) = Some w ->
  Forall (fun p => is_Some (readGroups fs p)) (listFiles fs (disc st)) ->
  exists st1,
    refresh fs order1 st = (Ret tt, st1) /\
    sent st1
    = sent st ++ scanBatches fs (listFiles fs (disc st))
        ++ deleteBatches order1 (lastRefresh (disc st1)) /\
    forall order2,
      order2 ≡ₚ map_to_list (lastRefresh (disc st1)) ->
      exists st2,
        refresh fs order2 st1 = (Ret tt, st2) /\
        listFiles fs (disc st1) = listFiles fs (disc st) /\
        deleteBatches order2 (lastRefresh (disc st2)) = [] /\
        sent st2 = sent st1 ++ scanBatches fs (listFiles fs (disc st)) /\
        lastRefresh (disc st2) = lastRefresh (disc st1).
Proof.
  intros Hctx Hw Hok.
  pose proof (readGroups_not_panics _ _ Hok) as Hpanic.
  eexists. split; [by apply refresh_spec|].
  cbn [disc lastRefresh sent]. split; [done|].
  intros order2 Hperm.
  eexists. split; [by eapply refresh_spec|].
  cbn [disc lastRefresh sent paths timestamps fileSDReadErrorsCount].
  unfold listFiles. cbn [paths]. fold (listFiles fs (disc st)).
  rewrite (scanRef_all_read fs _ (lastRefresh (disc st)) _ _ Hok).
  rewrite (deleteBatches_same _ _ Hperm), app_nil_r.
  by rewrite <-!app_assoc.
Qed.

End Reconciliation.

(** ** The event loop *)

Section EventLoop.
Context {codec : Codec}.

Lemma keeps_scans_bind {A B} (c : M A) (k : A -> M B) :
  keeps_scans c -> (forall a, keeps_scans (k a)) -> keeps_scans (c ≫= k).
Proof.
  intros Hc Hk st. unfold mbind, M_bind, bind.
  specialize (Hc st). destruct (c st) as [[a| |msg] st1]; simpl in *; [|done..].
  by rewrite Hk.
Qed.

Lemma keeps_scans_ret {A} (a : A) : keeps_scans (mret a).
Proof. done. Qed.

Lemma keeps_scans_send batch : keeps_scans (send batch).
Proof. intros st. unfold send. by repeat case_match. Qed.

Lemma keeps_scans_readFile fs p : keeps_scans (readFile fs p).
Proof.
  intros st. destruct (readFile fs p st) as [r st'] eqn:Hr.
  apply readFile_state in Hr. simpl.
  destruct r as [[|]| |]; subst; try done.
  by destruct Hr as (? & _ & ->).
Qed.

Lemma keeps_scans_readLoop fs files ref : keeps_scans (readLoop fs files ref).
Proof.
  revert ref. induction files as [|p files IH]; intros ref; [done|].
  cbn [readLoop]. apply keeps_scans_bind; [apply keeps_scans_readFile|].
  intros [tgs|e].
  - apply keeps_scans_bind; [apply keeps_scans_send|done].
  - apply keeps_scans_bind; [done|]. intros _.
    apply keeps_scans_bind; [done|]. intros d. apply IH.
Qed.

Lemma keeps_scans_sendTombstones f i count : keeps_scans (sendTombstones f i count).
Proof.
  revert i. induction count as [|count IH]; intros i; [done|].
  cbn [sendTombstones]. apply keeps_scans_bind; [apply keeps_scans_send|done].
Qed.

Lemma keeps_scans_deleteLoop order ref : keeps_scans (deleteLoop order ref).
Proof.
  induction order as [|[f n] order IH]; [done|].
  cbn [deleteLoop]. apply keeps_scans_bind; [|done].
  case_match; [|done].
  apply keeps_scans_bind; [done|]. intros _. apply keeps_scans_sendTombstones.
Qed.

Lemma keeps_scans_watchFiles : keeps_scans watchFiles.
Proof. intros st. unfold watchFiles. by case_match. Qed.

(** Every call of [refresh] observes exactly one scan, however it ends. *)
Lemma refresh_observes_one_scan fs order st :
  fileSDScanDuration (refresh fs order st).2 = S (fileSDScanDuration st).
Proof.
  unfold refresh.
  match goal with |- context [let '(_, _) := ?b st in _] =>
    assert (keeps_scans b) as Hb;
      [|specialize (Hb st); destruct (b st) as [r st']; simpl in *;
        by rewrite Hb]
  end.
  apply keeps_scans_bind; [done|]. intros d.
  apply keeps_scans_bind; [apply keeps_scans_readLoop|]. intros ref.
  apply keeps_scans_bind; [apply keeps_scans_deleteLoop|]. intros _.
  apply keeps_scans_bind; [done|]. intros _. apply keeps_scans_watchFiles.
Qed.

Lemma callRefresh_observes_one_scan fs c st :
  fileSDScanDuration (callRefresh fs c st).2 = S (fileSDScanDuration st).
Proof.
  unfold callRefresh.
  pose proof (refresh_observes_one_scan fs (range_order c)
                (set_ctx (send_budget c) st)) as Hr.
  destruct (refresh _ _ _) as [[| |] st']; exact Hr.
Qed.

Lemma eventRequiresRefresh_iff event :
  eventRequiresRefresh event = true <-> Name event <> "" /\ Op event <> Chmod.
Proof.
  unfold eventRequiresRefresh. destruct event as [name op]. simpl.
  destruct name as [|c name]; simpl; [split; [done|by intros [? _]]|].
  destruct (Z.eqb_spec (Z.lxor op Chmod) 0) as [Heq|Hne].
  - apply Z.lxor_eq in Heq. split; [done|by intros [_ ?]].
  - split; [|done]. intros _. split; [done|]. intros ->.
    by rewrite Z.lxor_nilpotent in Hne.
Qed.

(** C9. In the event loop a file system notification leads to a refresh
    exactly when its name is not empty and its operation is not the sole
    chmod bit; with an empty name or a chmod-only operation the loop goes
    on to the next [select] with the state untouched. A refresh, unlike a
    discarded event, always shows as one more observed scan. *)
Theorem C9_event_triggers_refresh fs event c sched :
  (eventRequiresRefresh event = true <->
     Name event <> "" /\ Op event <> Chmod) /\
  (Name event <> "" /\ Op event <> Chmod ->
     runLoop fs ((SelEvent event, c) :: sched)
     = (callRefresh fs c ≫= fun _ => runLoop fs sched)) /\
  (Name event = "" \/ Op event = Chmod ->
     forall st, runLoop fs ((SelEvent event, c) :: sched) st = runLoop fs sched st) /\
  (forall st, fileSDScanDuration (callRefresh fs c st).2
              = S (fileSDScanDuration st)).
Proof.
  pose proof (eventRequiresRefresh_iff event) as Hiff.
  split_and!; [done| | |apply callRefresh_observes_one_scan].
  - intros Hyes. apply Hiff in Hyes.
    cbn [runLoop]. unfold onEvent. by rewrite Hyes.
  - intros Hno st. cbn [runLoop]. unfold onEvent.
    destruct (eventRequiresRefresh event) eqn:Hev; [|done].
    destruct Hiff as [Hiff _]. destruct (Hiff eq_refl) as [Hname Hop].
    by destruct Hno.
Qed.

End EventLoop.

(** ** The timestamp collector *)

Section TimestampRegistry.

Lemma mergeTimestamps_foldr u entries :
  mergeTimestamps u entries = list_to_map (reverse entries) ∪ u.
Proof.
  revert u. induction entries as [|[f v] entries IH]; intros u.
  - simpl. by rewrite (left_id_L ∅ (∪)).
  - unfold mergeTimestamps. cbn [foldl]. fold (mergeTimestamps (<[f:=v]> u) entries).
    rewrite IH, reverse_cons, list_to_map_app. simpl.
    by rewrite insert_empty, <-(assoc_L (∪)), <-insert_union_singleton_l.
Qed.

(** One instance merged into [uniqueFiles]: its entries win. *)
Lemma mergeTimestamps_map u (ts : gmap string Z) :
  mergeTimestamps u (map_to_list ts) = ts ∪ u.
Proof.
  rewrite mergeTimestamps_foldr. f_equal.
  rewrite <-(list_to_map_to_list ts) at 2.
  apply list_to_map_proper.
  - rewrite fmap_reverse, reverse_Permutation. apply NoDup_fst_map_to_list.
  - apply reverse_Permutation.
Qed.

Lemma collectUnique_snoc heap order a :
  collectUnique heap (order ++ [a])
  = match heap !! a with
    | Some fileSD => timestamps fileSD ∪ collectUnique heap order
    | None => collectUnique heap order
    end.
Proof.
  unfold collectUnique. rewrite foldl_app. simpl.
  destruct (heap !! a); [|done]. apply mergeTimestamps_map.
Qed.

(** The value [uniqueFiles] holds for a path is the one of the last
    instance, in visiting order, that has the path. *)
Lemma collectUnique_lookup heap order f v :
  collectUnique heap order !! f = Some v <->
  exists pre a post fileSD,
    order = pre ++ a :: post /\
    heap !! a = Some fileSD /\
    timestamps fileSD !! f = Some v /\
    forall b other, b ∈ post -> heap !! b = Some other ->
                    timestamps other !! f = None.
Proof.
  revert v. induction order as [|a order IH] using rev_ind; intros v.
  - split; [done|]. intros (pre & a & post & ? & Heq & _).
    by destruct pre.
  - rewrite collectUnique_snoc. split.
    + intros Hv. destruct (heap !! a) as [fileSD|] eqn:Ha.
      * apply lookup_union_Some_raw in Hv as [Hv|[Hnone Hv]].
        -- exists order, a, [], fileSD. split_and!; [done..|].
           intros b other Hb. by apply elem_of_nil in Hb.
        -- apply IH in Hv as (pre & a' & post & d' & -> & Ha' & Hv & Hpost).
           exists pre, a', (post ++ [a]), d'.
           split_and!; [by rewrite <-app_assoc|done..|].
           intros b other [Hb|Hb%list_elem_of_singleton]%elem_of_app Hother.
           ++ by eapply Hpost.
           ++ by simplify_eq.
      * apply IH in Hv as (pre & a' & post & d' & -> & Ha' & Hv & Hpost).
        exists pre, a', (post ++ [a]), d'.
        split_and!; [by rewrite <-app_assoc|done..|].
        intros b other [Hb|Hb%list_elem_of_singleton]%elem_of_app Hother.
        -- by eapply Hpost.
        -- by simplify_eq.
    + intros (pre & a' & post & d' & Heq & Ha' & Hv & Hpost).
      destruct post as [|b post _] using rev_ind.
      * apply app_inj_tail in Heq as [-> ->]. rewrite Ha'.
        apply lookup_union_Some_raw. by left.
      * rewrite app_comm_cons, app_assoc in Heq.
        apply app_inj_tail in Heq as [-> ->].
        assert (collectUnique heap (pre ++ a' :: post) !! f = Some v) as Hu.
        { apply IH. exists pre, a', post, d'. split_and!; [done..|].
          intros c other Hc. apply Hpost, elem_of_app. by left. }
        destruct (heap !! b) as [fileSD|] eqn:Hb; [|done].
        apply lookup_union_Some_raw. right. split; [|done].
        eapply Hpost; [|done]. apply elem_of_app. right. by left.
Qed.

Lemma collectUnique_is_Some heap order a fileSD f :
  a ∈ order -> heap !! a = Some fileSD -> is_Some (timestamps fileSD !! f) ->
  is_Some (collectUnique heap order !! f).
Proof.
  intros Ha Hd Hf. induction order as [|b order IH] using rev_ind.
  - by apply elem_of_nil in Ha.
  - rewrite collectUnique_snoc.
    apply elem_of_app in Ha as [Ha|Ha%list_elem_of_singleton].
    + destruct (heap !! b); [|by apply IH].
      apply lookup_union_is_Some. right. by apply IH.
    + subst b. rewrite Hd. apply lookup_union_is_Some. by left.
Qed.

(** C8, in the form that holds. [Collect] emits exactly one sample per distinct path
    held by a registered instance; the value of the sample is the one of
    the instance that the [range] over the set of instances visits last
    among those holding the path. *)
Theorem C8_Collect_one_sample_per_path heap t visit emit :
  visit (discoverers t) ≡ₚ elements (discoverers t) ->
  emit (collectUnique heap (visit (discoverers t)))
    ≡ₚ map_to_list (collectUnique heap (visit (discoverers t))) ->
  let samples := Collect heap t visit emit in
  NoDup (metric_filename <$> samples) /\
  (forall f,
     f ∈ (metric_filename <$> samples) <->
     exists a fileSD, a ∈ discoverers t /\ heap !! a = Some fileSD /\
                      is_Some (timestamps fileSD !! f)) /\
  (forall f v,
     mkMetric v f ∈ samples <->
     exists pre a post fileSD,
       visit (discoverers t) = pre ++ a :: post /\
       heap !! a = Some fileSD /\
       timestamps fileSD !! f = Some v /\
       forall b other, b ∈ post -> heap !! b = Some other ->
                       timestamps other !! f = None).
Proof.
  intros Hvisit Hemit samples.
  set (u := collectUnique heap (visit (discoverers t))) in *.
  assert (forall f v, mkMetric v f ∈ samples <-> u !! f = Some v) as Hsample.
  { intros f v. unfold samples, Collect. fold u. rewrite Hemit. split.
    - intros ([f' v'] & [= <- <-] & Hin)%list_elem_of_fmap.
      by apply elem_of_map_to_list.
    - intros Hu. apply list_elem_of_fmap. exists (f, v).
      split; [done|]. by apply elem_of_map_to_list. }
  assert (metric_filename <$> samples ≡ₚ (map_to_list u).*1) as Hnames.
  { unfold samples, Collect. fold u. rewrite Hemit, <-list_fmap_compose.
    erewrite list_fmap_ext; [reflexivity|]. by intros _ [f v] _. }
  split_and!.
  - rewrite Hnames. apply NoDup_fst_map_to_list.
  - intros f. rewrite Hnames. rewrite list_elem_of_fmap. split.
    + intros ([f' v] & -> & Hin). apply elem_of_map_to_list in Hin.
      apply collectUnique_lookup in Hin as (pre & a & post & d & Heq & Ha & Hv & _).
      exists a, d. split_and!; [|done|by eexists].
      apply elem_of_elements. rewrite <-Hvisit, Heq.
      apply elem_of_app. right. by left.
    + intros (a & d & Ha & Hd & [v Hv]).
      assert (is_Some (u !! f)) as [v' Hv'].
      { apply (collectUnique_is_Some _ _ a d); [|done|by eexists].
        rewrite Hvisit. by apply elem_of_elements. }
      exists (f, v'). split; [done|]. by apply elem_of_map_to_list.
  - intros f v. rewrite Hsample. apply collectUnique_lookup.
Qed.

(** C8, the claim as written fails: with the instance at address 1
    registered before the one at address 2, both holding the same path,
    a visit of the set in the order 2, 1 is one Go allows, and the sample
    then carries the value 100 of the instance registered first. *)
Lemma C8_later_registered_need_not_win :
  exCollector = addDiscoverer 2 (addDiscoverer 1 NewTimestampCollector) /\
  timestamps <$> exHeap !! 1%positive = Some {["conf/a.json" := 100]} /\
  timestamps <$> exHeap !! 2%positive = Some {["conf/a.json" := 200]} /\
  exists visit emit,
    visit (discoverers exCollector) ≡ₚ elements (discoverers exCollector) /\
    emit (collectUnique exHeap (visit (discoverers exCollector)))
      ≡ₚ map_to_list (collectUnique exHeap (visit (discoverers exCollector))) /\
    Collect exHeap exCollector visit emit = [mkMetric 100 "conf/a.json"].
Proof.
  split_and!; [reflexivity|vm_compute; reflexivity..|].
  exists (fun _ => [2; 1]%positive), map_to_list.
  split_and!; [|reflexivity|vm_compute; reflexivity].
  replace (elements (discoverers exCollector)) with [2; 1]%positive
    by (vm_compute; reflexivity).
  reflexivity.
Qed.

End TimestampRegistry.

(** ** The pattern validator *)

Section PatternValidator.

Lemma nullable_lang r : nullable r = true <-> lang r [].
Proof.
  induction r as [| |p|r1 IH1 r2 IH2|r1 IH1 r2 IH2|r IH]; simpl.
  - done.
  - done.
  - split; [done|]. by intros (c & ? & _).
  - rewrite andb_true_iff, IH1, IH2. split.
    + intros [H1 H2]. by exists [], [].
    + intros (s1 & s2 & Heq & H1 & H2).
      symmetry in Heq. apply app_eq_nil in Heq as [-> ->]. done.
  - by rewrite orb_true_iff, IH1, IH2.
  - split; [|done]. intros _. by exists [].
Qed.

Lemma lang_star_cons r c s :
  lang (Star r) (c :: s) ->
  exists s1 s2, s = s1 ++ s2 /\ lang r (c :: s1) /\ lang (Star r) s2.
Proof.
  intros (ss & Heq & Hall). induction Hall as [|w ss Hw Hall IH]; [done|].
  destruct w as [|c' w]; [by apply IH|].
  simpl in Heq. injection Heq as <- ->.
  exists w, (concat ss). split_and!; [done..|]. by exists ss.
Qed.

Lemma deriv_lang c r s : lang (deriv c r) s <-> lang r (c :: s).
Proof.
  revert s. induction r as [| |p|r1 IH1 r2 IH2|r1 IH1 r2 IH2|r IH]; intros s; simpl.
  - done.
  - done.
  - destruct (p c) eqn:Hp; simpl.
    + split; [intros ->; by exists c|]. by intros (c' & [= _ ->] & _).
    + split; [done|]. intros (c' & [= <- _] & ?). congruence.
  - assert (lang (Cat (deriv c r1) r2) s <->
            exists s1 s2, c :: s = s1 ++ s2 /\ s1 <> [] /\ lang r1 s1 /\ lang r2 s2)
      as Hcat.
    { simpl. split.
      - intros (s1 & s2 & -> & H1 & H2). apply IH1 in H1.
        by exists (c :: s1), s2.
      - intros ([|c' s1] & s2 & Heq & Hne & H1 & H2); [done|].
        injection Heq as <- ->. exists s1, s2. by rewrite IH1. }
    destruct (nullable r1) eqn:Hn.
    + change (lang (Cat (deriv c r1) r2) s \/ lang (deriv c r2) s <->
              exists s1 s2, c :: s = s1 ++ s2 /\ lang r1 s1 /\ lang r2 s2).
      rewrite Hcat, IH2. split.
      * intros [(s1 & s2 & ? & ? & ? & ?)|H2]; [by exists s1, s2|].
        exists [], (c :: s). split_and!; [done| |done]. by apply nullable_lang.
      * intros ([|c' s1] & s2 & Heq & H1 & H2).
        -- right. by rewrite Heq.
        -- left. by exists (c' :: s1), s2.
    + rewrite Hcat. split.
      * intros (s1 & s2 & ? & ? & ? & ?). by exists s1, s2.
      * intros ([|c' s1] & s2 & Heq & H1 & H2).
        -- apply nullable_lang in H1. congruence.
        -- by exists (c' :: s1), s2.
  - by rewrite IH1, IH2.
  - split.
    + intros (s1 & s2 & -> & H1 & (ss & -> & Hall)). apply IH in H1.
      exists ((c :: s1) :: ss). split; [done|]. by constructor.
    + intros (s1 & s2 & -> & H1 & H2)%lang_star_cons.
      exists s1, s2. by rewrite IH.
Qed.

(** The derivative matcher decides membership in the language. *)
Lemma matches_lang r s : matches r s = true <-> lang r s.
Proof.
  revert r. induction s as [|c s IH]; intros r; simpl.
  - apply nullable_lang.
  - by rewrite IH, deriv_lang.
Qed.

Lemma lang_Char c s : lang (Char c) s <-> s = [c].
Proof.
  simpl. split.
  - intros (c' & -> & Hc). by apply bool_decide_eq_true in Hc as ->.
  - intros ->. exists c. by rewrite bool_decide_eq_true.
Qed.

Lemma lang_Lit l s : lang (Lit l) s <-> s = l.
Proof.
  revert s. induction l as [|c l IH]; intros s; [done|].
  change (lang (Lit (c :: l)) s) with (lang (Cat (Char c) (Lit l)) s).
  cbn [lang]. split.
  - intros (s1 & s2 & -> & ->%lang_Char & ->%IH). done.
  - intros ->. exists [c], l. by rewrite lang_Char, IH.
Qed.

Lemma lang_Star_NotChar c s : lang (Star (NotChar c)) s <-> c ∉ s.
Proof.
  split.
  - intros (ss & -> & Hall). induction Hall as [|w ss Hw _ IH].
    + apply not_elem_of_nil.
    + destruct Hw as (x & -> & Hx). simpl.
      apply negb_true_iff, bool_decide_eq_false in Hx.
      apply not_elem_of_cons. split; [congruence|done].
  - intros Hs. exists ((fun x => [x]) <$> s). split.
    + clear Hs. induction s as [|x s IH]; [done|]. simpl. by f_equal.
    + induction s as [|x s IH]; [done|].
      apply not_elem_of_cons in Hs as [Hne Hs].
      rewrite fmap_cons. constructor; [|by apply IH].
      exists x. split; [done|].
      apply negb_true_iff, bool_decide_eq_false. congruence.
Qed.

(** What [patFileSDName] accepts, in words of the shape. *)
Lemma MatchString_shape name :
  MatchString patFileSDName name = true <-> shape listedExt (bytes name).
Proof.
  unfold MatchString. rewrite matches_lang. unfold patFileSDName, shape.
  cbn [lang Opt]. split.
  - intros (prefix & s2 & -> & Hpre%lang_Star_NotChar
            & wild & s3 & -> & Hwild & dot & ext & -> & ->%lang_Char & Hext).
    exists prefix, wild, ext. split_and!; [done..| |].
    + destruct Hwild as [(st & suffix & -> & ->%lang_Char & Hsuf%lang_Star_NotChar)| ->].
      * right. by exists suffix.
      * by left.
    + unfold listedExt. rewrite !lang_Lit in Hext.
      repeat (destruct Hext as [->|Hext]); [..|subst ext];
        (apply list_elem_of_In; vm_compute; tauto).
  - intros (prefix & wild & ext & -> & Hpre & Hwild & Hext).
    exists prefix, (wild ++ "."%char :: ext).
    split_and!; [done|by apply lang_Star_NotChar|].
    exists wild, ("."%char :: ext). split_and!; [done| |].
    + destruct Hwild as [->|(suffix & -> & Hsuf)]; [by right|]. left.
      exists ["*"%char], suffix. split_and!; [done|by apply lang_Char|].
      by apply lang_Star_NotChar.
    + exists ["."%char], ext. split_and!; [done|by apply lang_Char|].
      rewrite !lang_Lit. unfold listedExt in Hext.
      apply list_elem_of_In in Hext. vm_compute in Hext.
      repeat (destruct Hext as [<-|Hext]); try done; vm_compute; tauto.
Qed.

Lemma checkNames_Some names :
  checkNames names <> None <->
  exists name, name ∈ names /\ MatchString patFileSDName name = false.
Proof.
  induction names as [|name names IH]; simpl.
  - split; [done|]. intros (name & Hin & _). by apply elem_of_nil in Hin.
  - destruct (MatchString patFileSDName name) eqn:Hm; simpl.
    + rewrite IH. split.
      * intros (n & Hin & Hn). exists n. split; [by right|done].
      * intros (n & [->|Hin]%elem_of_cons & Hn); [congruence|by exists n].
    + split; [|done]. intros _. exists name. split; [by left|done].
Qed.

(** C5, in the form that holds. [UnmarshalYAML] returns an error exactly when the
    configuration cannot be decoded, or the list of path names is empty,
    or some path name is not of the shape: bytes without a star, then
    optionally a star and bytes without a slash, then a dot and one of
    the six extensions json, yml, yaml, JSON, YML, YAML. *)
Theorem C5_UnmarshalYAML_fails_iff unmarshal :
  (UnmarshalYAML unmarshal).2 <> None <->
  match unmarshal DefaultSDConfig with
  | fail _ => True
  | ok c =>
      Files c = [] \/
      exists name, name ∈ Files c /\ ~ shape listedExt (bytes name)
  end.
Proof.
  unfold UnmarshalYAML. destruct (unmarshal DefaultSDConfig) as [c|e]; [|done].
  destruct (Files c) as [|name names] eqn:Hfiles; simpl.
  - split; [by left|done].
  - change (checkNames (name :: names) <> None <->
            name :: names = [] \/
            exists n, n ∈ name :: names /\ ~ shape listedExt (bytes n)).
    rewrite checkNames_Some. split.
    + intros (n & Hin & Hn). right. exists n. split; [done|].
      rewrite <-MatchString_shape. congruence.
    + intros [?|(n & Hin & Hn)]; [done|]. exists n. split; [done|].
      rewrite <-MatchString_shape in Hn. by destruct (MatchString _ n).
Qed.

(** C5, the claim as written fails: a configuration whose only path name
    ends in [.Json] is rejected, although the list is not empty and the
    name has the shape with an extension that is json up to case. *)
Lemma C5_mixed_case_extension_rejected :
  (UnmarshalYAML exMixedCase).2 <> None /\
  Files (UnmarshalYAML exMixedCase).1 = ["conf/targets.Json"] /\
  shape specExt (bytes "conf/targets.Json") /\
  ~ ((UnmarshalYAML exMixedCase).2 <> None <->
     Files (UnmarshalYAML exMixedCase).1 = [] \/
     exists name, name ∈ Files (UnmarshalYAML exMixedCase).1 /\
                  ~ shape specExt (bytes name)).
Proof.
  assert (shape specExt (bytes "conf/targets.Json")) as Hshape.
  { exists (bytes "conf/targets"), [], (bytes "Json").
    split_and!; [done| |by left|].
    - apply (bool_decide_unpack _). by vm_compute.
    - unfold specExt. apply list_elem_of_In. vm_compute. tauto. }
  split_and!; [by vm_compute|done|done|].
  intros [Hfail _]. destruct Hfail as [Hnil|(name & Hin & Hn)].
  - by vm_compute.
  - done.
  - apply list_elem_of_singleton in Hin as ->. done.
Qed.

End PatternValidator.

(** ** From validated patterns to handled extensions *)

Section Extensions.

Implicit Types (tail ext chunk pattern name s t q : list ascii).

Lemma special_elem c : special c = false ->
  c <> "*"%char /\ c <> "?"%char /\ c <> "["%char /\ c <> "]"%char /\
  c <> "\"%char /\ c <> "/"%char /\ c <> "."%char.
Proof.
  unfold special. intros Hc%bool_decide_eq_false.
  split_and!; intros ->; apply Hc; apply (bool_decide_unpack _); by vm_compute.
Qed.

Lemma plainExt_cons c ext :
  plainExt (c :: ext) = true ->
  special c = false /\ (ext = [] \/ plainExt ext = true).
Proof.
  unfold plainExt. simpl. intros [Hc Hext]%andb_true_iff.
  apply negb_true_iff in Hc. split; [done|].
  destruct ext as [|c' ext]; [by left|right]. done.
Qed.

Lemma plainExt_Forall ext :
  plainExt ext = true -> ext <> [] /\ Forall (fun c => special c = false) ext.
Proof.
  unfold plainExt. intros [Hne Hall]%andb_true_iff.
  apply negb_true_iff, bool_decide_eq_false in Hne. split; [done|].
  apply Forall_forall. intros c Hc.
  rewrite forallb_forall in Hall. apply negb_true_iff, Hall.
  by apply list_elem_of_In.
Qed.

Lemma plainExt_not_elem ext c : plainExt ext = true -> special c = true -> c ∉ ext.
Proof.
  intros [_ Hall]%plainExt_Forall Hc Hin.
  rewrite Forall_forall in Hall. specialize (Hall c Hin). congruence.
Qed.

(** *** [filepath.Ext] *)

Lemma Ext_loop_plain x ext (k : nat) :
  Forall (fun c => special c = false) ext ->
  (k <= length ext)%nat ->
  Ext_loop (x ++ "."%char :: ext) (length x + 1 + k) = "."%char :: ext.
Proof.
  intros Hext. induction k as [|k IH]; intros Hk.
  - rewrite Nat.add_0_r, Nat.add_1_r. cbn [Ext_loop].
    rewrite lookup_app_r, Nat.sub_diag by lia. simpl.
    by rewrite drop_app_length.
  - rewrite Nat.add_succ_r. cbn [Ext_loop].
    rewrite lookup_app_r by lia.
    replace (length x + 1 + k - length x)%nat with (S k) by lia. simpl.
    destruct (ext !! k) as [c|] eqn:Hc; [|apply lookup_ge_None in Hc; lia].
    rewrite Forall_forall in Hext.
    destruct (special_elem c) as (_ & _ & _ & _ & _ & Hsep & Hdot).
    { apply Hext. by eapply list_elem_of_lookup_2. }
    unfold IsPathSeparator, Separator.
    rewrite !bool_decide_eq_false_2 by done. apply IH. lia.
Qed.

Lemma str_bytes (f : string) : str (bytes f) = f.
Proof. apply string_of_list_ascii_of_string. Qed.

Lemma bytes_str (l : list ascii) : bytes (str l) = l.
Proof. apply list_ascii_of_string_of_list_ascii. Qed.

(** A path that ends in a dot and a plain extension has that extension. *)
Lemma Ext_plain f x ext :
  bytes f = x ++ "."%char :: ext -> plainExt ext = true ->
  Ext f = str ("."%char :: ext).
Proof.
  intros Hf [_ Hext]%plainExt_Forall. unfold Ext. rewrite Hf. f_equal.
  rewrite length_app. simpl.
  replace (length x + S (length ext))%nat with (length x + 1 + length ext)%nat by lia.
  by apply Ext_loop_plain.
Qed.

(** *** [filepath.Clean] and [filepath.Join] *)

Lemma copyElem_nosep e out : Separator ∉ e -> copyElem e out = ([], out ++ e).
Proof.
  revert out. induction e as [|c e IH]; intros out He.
  - by rewrite app_nil_r.
  - apply not_elem_of_cons in He as [Hc He]. simpl.
    unfold IsPathSeparator. rewrite bool_decide_eq_false_2 by done.
    rewrite IH by done. by rewrite <-app_assoc.
Qed.

Lemma copyElem_tail tail x out :
  Separator ∉ tail ->
  exists rest out2,
    copyElem (x ++ tail) out = (rest, out2) /\
    ((rest = [] /\ out2 = out ++ x ++ tail) \/
     (exists x2, rest = x2 ++ tail /\ (length x2 <= length x)%nat)).
Proof.
  intros Htail. revert out. induction x as [|c x IH]; intros out.
  - do 2 eexists. split; [by apply copyElem_nosep|]. by left.
  - simpl. destruct (IsPathSeparator c).
    + do 2 eexists. split; [done|]. right. by exists (c :: x).
    + destruct (IH (out ++ [c])) as (rest & out2 & -> & [[-> ->]|(x2 & -> & Hlen)]).
      * do 2 eexists. split; [done|]. left. by rewrite <-app_assoc.
      * do 2 eexists. split; [done|]. right. exists x2. split; [done|]. lia.
Qed.

(** [Clean] keeps a final dot and plain extension in place. *)
Lemma cleanLoop_plain fuel rooted x ext out dotdot :
  plainExt ext = true ->
  (length (x ++ "."%char :: ext) <= fuel)%nat ->
  exists z, cleanLoop fuel rooted (x ++ "."%char :: ext) out dotdot
            = z ++ "."%char :: ext.
Proof.
  intros Hext. destruct (plainExt_Forall _ Hext) as [Hne Hall].
  assert (Separator ∉ "."%char :: ext) as Hnosep.
  { apply not_elem_of_cons. split; [done|]. by apply plainExt_not_elem. }
  destruct ext as [|e0 ext]; [done|].
  destruct (plainExt_cons _ _ Hext) as [He0 _].
  destruct (special_elem _ He0) as (_ & _ & _ & _ & _ & He0sep & He0dot).
  revert x out dotdot. induction fuel as [|fuel IH]; intros x out dotdot Hlen.
  { rewrite length_app in Hlen. simpl in Hlen. lia. }
  assert (head x <> Some Separator ->
          forall out1,
            exists z, (let '(path2, out2) := copyElem (x ++ "."%char :: e0 :: ext) out1 in
                       cleanLoop fuel rooted path2 out2 dotdot)
                      = z ++ "."%char :: e0 :: ext) as Hdefault.
  { intros Hhead out1. destruct x as [|c x].
    - rewrite app_nil_l, copyElem_nosep by done. exists out1. by destruct fuel.
    - simpl. unfold IsPathSeparator.
      rewrite bool_decide_eq_false_2 by (intros ->; by apply Hhead).
      destruct (copyElem_tail ("."%char :: e0 :: ext) x (out1 ++ [c]) Hnosep)
        as (rest & out2 & -> & [[-> ->]|(x2 & -> & Hx2)]).
      + exists (out1 ++ c :: x). destruct fuel; by rewrite <-!app_assoc.
      + apply IH. rewrite length_app in *. simpl in *. lia. }
  destruct x as [|c x].
  - (* at the dot of the extension *)
    rewrite app_nil_l in *. cbn [cleanLoop].
    unfold IsPathSeparator at 1 2. rewrite !(bool_decide_eq_false_2 (_ = Separator)) by done.
    rewrite bool_decide_eq_true_2 by done. cbn [andb head].
    rewrite (bool_decide_eq_false_2 (Some e0 = Some "."%char)) by congruence.
    cbn [andb]. by apply Hdefault.
  - rewrite <-app_comm_cons. cbn [cleanLoop].
    assert (forall out' dotdot',
              exists z, cleanLoop fuel rooted (x ++ "."%char :: e0 :: ext) out' dotdot'
                        = z ++ "."%char :: e0 :: ext) as Hnext.
    { intros. apply IH. simpl in Hlen. lia. }
    destruct (IsPathSeparator c) eqn:Hsep; [apply Hnext|].
    assert (head (c :: x) <> Some Separator) as Hhead.
    { simpl. intros [= ->]. by vm_compute in Hsep. }
    specialize (Hdefault Hhead). rewrite <-app_comm_cons in Hdefault.
    destruct (bool_decide (c = "."%char)) eqn:Hdot; cbn [andb]; [|apply (Hdefault _)].
    match goal with |- context [if ?b then _ else _] => destruct b eqn:Hend end;
      [apply Hnext|].
    destruct (bool_decide (head (x ++ "."%char :: e0 :: ext) = Some "."%char)) eqn:Hdd;
      cbn [andb]; [|apply (Hdefault _)].
    match goal with |- context [if ?b then _ else _] => destruct b eqn:Hend2 end;
      [|apply (Hdefault _)].
    destruct x as [|c' x].
    { simpl in Hend2. unfold IsPathSeparator in Hend2.
      by rewrite bool_decide_eq_false_2 in Hend2. }
    assert (forall out' dotdot',
              exists z, cleanLoop fuel rooted (x ++ "."%char :: e0 :: ext) out' dotdot'
                        = z ++ "."%char :: e0 :: ext) as Hnext2.
    { intros. apply IH. simpl in Hlen. lia. }
    simpl drop. repeat case_match; apply Hnext2.
Qed.

Lemma Clean_plain x ext :
  plainExt ext = true ->
  exists z, Clean (x ++ "."%char :: ext) = z ++ "."%char :: ext.
Proof.
  intros Hext. unfold Clean.
  destruct x as [|c x].
  - rewrite app_nil_l. unfold IsPathSeparator.
    rewrite bool_decide_eq_false_2 by done.
    destruct (cleanLoop_plain (length ("."%char :: ext)) false [] ext [] 0%nat Hext)
      as [z Hz]; [done|].
    rewrite app_nil_l in Hz. rewrite Hz. exists z. by destruct z.
  - rewrite <-app_comm_cons. destruct (IsPathSeparator c).
    + destruct (cleanLoop_plain (length (x ++ "."%char :: ext)) true x ext
                  [Separator] 1%nat Hext) as [z Hz]; [done|].
      rewrite Hz. exists z. by destruct z.
    + destruct (cleanLoop_plain (length (c :: x ++ "."%char :: ext)) false (c :: x) ext
                  [] 0%nat Hext) as [z Hz]; [done|].
      rewrite <-app_comm_cons in Hz. rewrite Hz. exists z. by destruct z.
Qed.

Lemma Join_plain dir x ext :
  plainExt ext = true ->
  exists z, Join dir (x ++ "."%char :: ext) = z ++ "."%char :: ext.
Proof.
  intros Hext. unfold Join. destruct dir as [|d dir].
  - destruct (x ++ "."%char :: ext) eqn:Heq; [by destruct x|].
    rewrite <-Heq. by apply Clean_plain.
  - replace ((d :: dir) ++ Separator :: x ++ "."%char :: ext)
      with (((d :: dir) ++ Separator :: x) ++ "."%char :: ext)
      by (by rewrite <-app_assoc).
    destruct ((d :: dir) ++ Separator :: x) eqn:Heq; [done|].
    rewrite <-Heq. by apply Clean_plain.
Qed.

(** *** [filepath.Match] *)

(** Once the match has failed, [matchChunk] no longer returns a match. *)
Lemma matchChunkLoop_failed fuel chunk s t :
  matchChunkLoop fuel chunk s true <> ChunkOk t.
Proof.
  revert chunk s. induction fuel as [|fuel IH]; intros chunk s;
    destruct chunk as [|c chunk]; cbn [matchChunkLoop orb]; try done.
  repeat case_match; try done; apply IH.
Qed.

Lemma drop_suffix_of (n : nat) s : drop n s `suffix_of` s.
Proof. exists (take n s). symmetry. apply take_drop. Qed.

(** What [matchChunk] leaves is the end of what it was given. *)
Lemma matchChunkLoop_suffix fuel chunk s failed t :
  matchChunkLoop fuel chunk s failed = ChunkOk t -> t `suffix_of` s.
Proof.
  revert chunk s failed. induction fuel as [|fuel IH]; intros chunk s failed;
    destruct chunk as [|c chunk]; cbn [matchChunkLoop].
  - destruct failed; [done|]. by intros [= ->].
  - done.
  - destruct failed; [done|]. by intros [= ->].
  - repeat case_match; try done; intros Hm%IH; simplify_eq/=; try done;
      (etrans; [exact Hm|apply drop_suffix_of]).
Qed.

(** A chunk without operators matches itself only. *)
Lemma matchChunkLoop_literal fuel lits s t :
  Forall (fun c => c <> "["%char /\ c <> "?"%char /\ c <> "\"%char) lits ->
  matchChunkLoop fuel lits s false = ChunkOk t -> s = lits ++ t.
Proof.
  intros Hlits. revert fuel s.
  induction Hlits as [|c lits (Hb & Hq & Hbs) _ IH]; intros fuel s.
  - destruct fuel; simpl; by intros [= ->].
  - destruct fuel as [|fuel]; [done|]. cbn [matchChunkLoop orb].
    rewrite !bool_decide_eq_false_2 by done.
    destruct s as [|x s].
    + rewrite bool_decide_eq_true_2 by done.
      intros []%matchChunkLoop_failed.
    + rewrite bool_decide_eq_false_2 by done. simpl drop. simpl head.
      case_bool_decide as Hx.
      * intros []%matchChunkLoop_failed.
      * intros Hs%IH. rewrite drop_0 in Hs. subst s.
        simpl in Hx. by injection Hx as ->.
Qed.

Lemma plain_literal lits :
  Forall (fun c => special c = false) lits ->
  Forall (fun c => c <> "["%char /\ c <> "?"%char /\ c <> "\"%char) lits.
Proof.
  intros Hall. eapply Forall_impl; [exact Hall|].
  intros c (_ & ? & ? & _ & ? & _)%special_elem. done.
Qed.

Lemma getEsc_suffix chunk r nchunk :
  getEsc chunk = Some (r, nchunk) -> nchunk `suffix_of` chunk.
Proof.
  unfold getEsc. destruct chunk as [|c rest]; [done|].
  destruct (_ || _); [done|].
  set (chunk1 := if bool_decide (c = "\"%char) then rest else c :: rest).
  assert (chunk1 `suffix_of` c :: rest) as Hchunk1.
  { unfold chunk1. case_bool_decide; [by apply suffix_cons_r|done]. }
  destruct chunk1 as [|c1 chunk1']; [done|].
  destruct (DecodeRuneInString _) as [r' n].
  destruct (_ && _); [done|].
  destruct (drop n (c1 :: chunk1')) as [|d l] eqn:Hdrop; [done|].
  intros [= <- <-]. rewrite <-Hdrop.
  etrans; [apply drop_suffix_of|done].
Qed.

(** A class that is never closed is a bad pattern. *)
Lemma classLoop_unclosed fuel r chunk matched nrange :
  "]"%char ∉ chunk -> classLoop fuel r chunk matched nrange = None.
Proof.
  revert chunk matched nrange.
  induction fuel as [|fuel IH]; intros chunk matched nrange Hchunk; [done|].
  cbn [classLoop].
  assert (forall l, l `suffix_of` chunk -> "]"%char ∉ l) as Hsuf.
  { intros l [k ->] Hin. apply Hchunk, elem_of_app. by right. }
  assert (match getEsc chunk with
          | Some (lo, chunk1) =>
              match
                match chunk1 with
                | [] => None
                | c :: chunk1' =>
                    if bool_decide (c = "-"%char) then getEsc chunk1'
                    else Some (lo, chunk1)
                end
              with
              | Some (hi, chunk2) =>
                  classLoop fuel r chunk2
                    (matched || (lo <=? r) && (r <=? hi)) (S nrange)
              | None => None
              end
          | None => None
          end = None) as Hparse.
  { destruct (getEsc chunk) as [[lo chunk1]|] eqn:Hesc; [|done].
    apply getEsc_suffix in Hesc.
    destruct chunk1 as [|c chunk1']; [done|].
    case_bool_decide.
    - destruct (getEsc chunk1') as [[hi chunk2]|] eqn:Hesc2; [|done].
      apply getEsc_suffix in Hesc2. apply IH, Hsuf.
      etrans; [exact Hesc2|]. etrans; [|exact Hesc]. by apply suffix_cons_r.
    - by apply IH, Hsuf. }
  destruct chunk as [|c rest]; [exact Hparse|].
  case_bool_decide as Hc; [|exact Hparse].
  subst c. exfalso. apply Hchunk. by left.
Qed.

Lemma suffix_app_tail l q tail :
  l `suffix_of` q ++ tail -> (exists q', l = q' ++ tail) \/ l `suffix_of` tail.
Proof.
  induction q as [|c q IH]; [by right|].
  destruct l as [|x l]; [right; apply suffix_nil|].
  rewrite <-app_comm_cons. intros [->|Hl]%suffix_cons_inv.
  - left. by exists (c :: q).
  - by apply IH.
Qed.

(** A class in front of a tail without closing bracket ends before it. *)
Lemma classLoop_tail fuel r q tail matched nrange m chunk2 :
  "]"%char ∉ tail ->
  classLoop fuel r (q ++ tail) matched nrange = Some (m, chunk2) ->
  exists q2, chunk2 = q2 ++ tail.
Proof.
  intros Htail. revert q matched nrange.
  induction fuel as [|fuel IH]; intros q matched nrange; [done|].
  cbn [classLoop].
  assert (forall l matched' nrange',
            l `suffix_of` q ++ tail ->
            classLoop fuel r l matched' nrange' = Some (m, chunk2) ->
            exists q2, chunk2 = q2 ++ tail) as Hrec.
  { intros l matched' nrange' [(q' & ->)|Hl]%suffix_app_tail Hloop.
    - by eapply IH.
    - rewrite classLoop_unclosed in Hloop; [done|].
      destruct Hl as [k ->]. intros Hin. apply Htail, elem_of_app. by right. }
  assert (match getEsc (q ++ tail) with
          | Some (lo, chunk1) =>
              match
                match chunk1 with
                | [] => None
                | c :: chunk1' =>
                    if bool_decide (c = "-"%char) then getEsc chunk1'
                    else Some (lo, chunk1)
                end
              with
              | Some (hi, chunk2) =>
                  classLoop fuel r chunk2
                    (matched || (lo <=? r) && (r <=? hi)) (S nrange)
              | None => None
              end
          | None => None
          end = Some (m, chunk2) -> exists q2, chunk2 = q2 ++ tail) as Hparse.
  { destruct (getEsc (q ++ tail)) as [[lo chunk1]|] eqn:Hesc; [|done].
    apply getEsc_suffix in Hesc.
    destruct chunk1 as [|c chunk1']; [done|].
    case_bool_decide.
    - destruct (getEsc chunk1') as [[hi chunk3]|] eqn:Hesc2; [|done].
      apply getEsc_suffix in Hesc2. apply Hrec.
      etrans; [exact Hesc2|]. etrans; [|exact Hesc]. by apply suffix_cons_r.
    - by apply Hrec. }
  destruct (q ++ tail) as [|c rest] eqn:Heq; [exact Hparse|].
  case_bool_decide as Hc; [|exact Hparse].
  destruct (_ <? _)%nat; [|exact Hparse]. cbn [andb]. intros [= <- <-].
  destruct q as [|c' q].
  - simpl in Heq. subst tail c. exfalso. apply Htail. by left.
  - injection Heq as -> <-. by exists q.
Qed.

(** A chunk that ends in a dot and a plain extension only matches a text
    that has them right before what is left. *)
Lemma matchChunkLoop_tail fuel q ext s failed t :
  plainExt ext = true ->
  matchChunkLoop fuel (q ++ "."%char :: ext) s failed = ChunkOk t ->
  exists s', s = s' ++ "."%char :: ext ++ t.
Proof.
  intros Hext. destruct (plainExt_Forall _ Hext) as [Hne Hall].
  assert ("]"%char ∉ "."%char :: ext) as Hrb.
  { apply not_elem_of_cons. split; [done|]. by apply plainExt_not_elem. }
  revert q s failed. induction fuel as [|fuel IH]; intros q s failed.
  { by destruct q. }
  destruct failed; [by intros []%matchChunkLoop_failed|].
  destruct q as [|c q].
  - (* the chunk is the dot and the extension *)
    rewrite app_nil_l. intros Hm.
    apply (matchChunkLoop_literal _ ("."%char :: ext)) in Hm.
    + by exists [].
    + constructor; [done|by apply plain_literal].
  - rewrite <-app_comm_cons. cbn [matchChunkLoop orb].
    destruct s as [|x s].
    { rewrite (bool_decide_eq_true_2 (@nil ascii = [])) by done.
      repeat case_match; try done; by intros []%matchChunkLoop_failed. }
    rewrite (bool_decide_eq_false_2 (x :: s = [])) by done.
    assert (forall (n : nat) q' failed',
              matchChunkLoop fuel (q' ++ "."%char :: ext) (drop n (x :: s)) failed'
              = ChunkOk t ->
              exists s', x :: s = s' ++ "."%char :: ext ++ t) as Hrec.
    { intros n q' failed' (s' & Hs')%IH.
      exists (take n (x :: s) ++ s'). rewrite <-app_assoc, <-Hs'.
      symmetry. apply take_drop. }
    case_bool_decide as Hlb.
    + (* a character class *)
      destruct (DecodeRuneInString (x :: s)) as [r n].
      destruct q as [|c1 q].
      * rewrite app_nil_l. rewrite bool_decide_eq_false_2 by done.
        rewrite classLoop_unclosed; done.
      * rewrite <-app_comm_cons.
        case_bool_decide.
        -- destruct (classLoop _ _ _ _ _) as [[m chunk2]|] eqn:Hclass; [|done].
           apply classLoop_tail in Hclass as [q2 ->]; [|done]. apply Hrec.
        -- destruct (classLoop _ _ _ _ _) as [[m chunk2]|] eqn:Hclass; [|done].
           apply (classLoop_tail _ _ (c1 :: q)) in Hclass as [q2 ->]; [|done].
           apply Hrec.
    + case_bool_decide as Hq.
      * destruct (DecodeRuneInString (x :: s)) as [r n]. apply Hrec.
      * case_bool_decide as Hbs.
        -- (* an escaped byte *)
           destruct q as [|l q].
           ++ rewrite app_nil_l. intros Hm.
              destruct (bool_decide (head (x :: s) ≠ Some "."%char)) eqn:Hx;
                [by apply matchChunkLoop_failed in Hm|].
              apply bool_decide_eq_false in Hx. apply dec_stable in Hx.
              simpl in Hx. injection Hx as ->.
              apply matchChunkLoop_literal in Hm; [|by apply plain_literal].
              change (drop 1 ("."%char :: s)) with s in Hm.
              subst s. by exists [].
           ++ rewrite <-app_comm_cons. apply (Hrec 1%nat).
        -- apply (Hrec 1%nat).
Qed.

Lemma matchChunk_tail q ext s t :
  plainExt ext = true ->
  matchChunk (q ++ "."%char :: ext) s = ChunkOk t ->
  exists s', s = s' ++ "."%char :: ext ++ t.
Proof. apply matchChunkLoop_tail. Qed.

Lemma matchChunk_suffix chunk s t :
  matchChunk chunk s = ChunkOk t -> t `suffix_of` s.
Proof. apply matchChunkLoop_suffix. Qed.

Lemma starLoop_suffix chunk lastChunk name t :
  starLoop chunk lastChunk name = StarFound t -> t `suffix_of` name.
Proof.
  induction name as [|c name IH]; [done|]. cbn [starLoop].
  case_bool_decide; [done|].
  destruct (matchChunk chunk name) as [| |t'] eqn:Hm; [done| |].
  - intros ?%IH. by apply suffix_cons_r.
  - apply matchChunk_suffix in Hm.
    destruct (_ && _).
    + intros ?%IH. by apply suffix_cons_r.
    + intros [= <-]. by apply suffix_cons_r.
Qed.

Lemma starLoop_tail q ext lastChunk name t :
  plainExt ext = true ->
  starLoop (q ++ "."%char :: ext) lastChunk name = StarFound t ->
  exists s', name = s' ++ "."%char :: ext ++ t.
Proof.
  intros Hext. induction name as [|c name IH]; [done|]. cbn [starLoop].
  assert (starLoop (q ++ "."%char :: ext) lastChunk name = StarFound t ->
          exists s', c :: name = s' ++ "."%char :: ext ++ t) as Hrec.
  { intros (s' & ->)%IH. by exists (c :: s'). }
  case_bool_decide; [done|].
  destruct (matchChunk _ name) as [| |t'] eqn:Hm; [done|exact Hrec|].
  destruct (_ && _); [exact Hrec|]. intros [= <-].
  apply matchChunk_tail in Hm as (s' & ->); [|done]. by exists (c :: s').
Qed.

Lemma checkRest_not_true fuel pattern : checkRest fuel pattern <> Some true.
Proof.
  revert pattern. induction fuel as [|fuel IH]; intros pattern;
    destruct pattern as [|c pattern]; cbn [checkRest]; try done.
  destruct (scanChunk _) as [[star chunk] pattern'].
  destruct (matchChunk chunk []); try done; apply IH.
Qed.

Lemma scanLoop_spec pattern inrange :
  (scanLoop pattern inrange <= length pattern)%nat /\
  ((scanLoop pattern inrange < length pattern)%nat ->
   pattern !! scanLoop pattern inrange = Some "*"%char).
Proof.
  remember (length pattern) as n eqn:Hn. revert pattern inrange Hn.
  induction n as [n IH] using lt_wf_ind. intros pattern inrange ->.
  destruct pattern as [|c rest]; [simpl; split; [done|lia]|].
  cbn [scanLoop].
  assert (forall b, (S (scanLoop rest b) <= length (c :: rest))%nat /\
                    ((S (scanLoop rest b) < length (c :: rest))%nat ->
                     (c :: rest) !! S (scanLoop rest b) = Some "*"%char)) as Hone.
  { intros b. destruct (IH (length rest) (Nat.lt_succ_diag_r _) rest b eq_refl).
    simpl. split; [lia|]. intros. apply H0. lia. }
  repeat case_bool_decide; try apply Hone.
  - destruct rest as [|c' rest']; [simpl; split; [lia|lia]|].
    destruct (IH (length rest')) with (pattern := rest') (inrange := inrange)
      as [Hle Hstar]; [simpl; lia|done|].
    simpl. split; [lia|]. intros. apply Hstar. lia.
  - destruct inrange; [apply Hone|]. subst c. simpl. split; [lia|done].
Qed.

Lemma scanLoop_pos pattern inrange :
  pattern <> [] -> head pattern <> Some "*"%char ->
  (1 <= scanLoop pattern inrange)%nat.
Proof.
  destruct pattern as [|c rest]; [done|]. intros _ Hc. cbn [scanLoop].
  repeat case_bool_decide; try lia.
  - destruct rest; lia.
  - subst c. done.
Qed.

Lemma skipStars_tail q tail :
  tail <> [] -> head tail <> Some "*"%char ->
  exists star q', skipStars (q ++ tail) = (star, q' ++ tail) /\
                  head (q' ++ tail) <> Some "*"%char.
Proof.
  intros Hne Htail. induction q as [|c q IH].
  - exists false, []. rewrite !app_nil_l. split; [|done].
    destruct tail as [|c tail]; [done|]. simpl in *.
    rewrite bool_decide_eq_false_2; [done|congruence].
  - destruct IH as (star & q' & Heq & Hhead).
    rewrite <-app_comm_cons. cbn [skipStars]. case_bool_decide as Hc.
    + exists true, q'. by rewrite Heq.
    + exists false, (c :: q). split; [done|]. simpl. congruence.
Qed.

(** The chunk [scanChunk] cuts off a pattern that ends in a dot and a
    plain extension: the rest of the pattern keeps that end, or the chunk
    is the last one and has it. *)
Lemma scanChunk_tail q ext star chunk pattern' :
  plainExt ext = true ->
  scanChunk (q ++ "."%char :: ext) = (star, chunk, pattern') ->
  chunk <> [] /\
  ((exists q2, pattern' = q2 ++ "."%char :: ext) \/
   (pattern' = [] /\ exists q1, chunk = q1 ++ "."%char :: ext)).
Proof.
  intros Hext. unfold scanChunk.
  destruct (skipStars_tail q ("."%char :: ext)) as (star' & q' & -> & Hhead);
    [done..|].
  intros [= <- <- <-].
  set (p := q' ++ "."%char :: ext) in *.
  destruct (scanLoop_spec p false) as [Hle Hstar].
  assert (p <> []) as Hp by (unfold p; by destruct q').
  pose proof (scanLoop_pos p false Hp Hhead) as Hpos.
  generalize dependent (scanLoop p false). intros i Hle Hstar Hpos.
  split.
  { intros Hnil%(f_equal length). rewrite length_take in Hnil.
    destruct p; [done|]. simpl in *. lia. }
  destruct (decide (i = length p)) as [Heq|Hlt].
  - right. rewrite Heq, drop_all, firstn_all. split; [done|]. by exists q'.
  - left. specialize (Hstar ltac:(lia)).
    destruct (decide (i < length q')%nat) as [Hq|Hq].
    + exists (drop i q'). unfold p. by rewrite drop_app_le by lia.
    + exfalso. unfold p in Hstar. rewrite lookup_app_r in Hstar by lia.
      apply list_elem_of_lookup_2 in Hstar.
      apply elem_of_cons in Hstar as [?|Hstar]; [done|].
      by apply (plainExt_not_elem ext "*"%char) in Hstar.
Qed.

(** A pattern that ends in a dot and a plain extension only matches names
    that end in them. *)
Lemma MatchLoop_tail fuel q ext name :
  plainExt ext = true ->
  MatchLoop fuel (q ++ "."%char :: ext) name = Some true ->
  exists n', name = n' ++ "."%char :: ext.
Proof.
  intros Hext. revert q name. induction fuel as [|fuel IH]; intros q name.
  { by destruct q. }
  destruct (q ++ "."%char :: ext) as [|c0 p0] eqn:Hp; [by destruct q|].
  cbn [MatchLoop]. rewrite <-Hp. clear c0 p0 Hp.
  destruct (scanChunk _) as [[star chunk] pattern'] eqn:Hscan.
  apply scanChunk_tail in Hscan as [Hchunk Hcases]; [|done].
  rewrite (bool_decide_eq_false_2 (chunk = [])), andb_false_r by done.
  assert ((forall t, matchChunk chunk name = ChunkOk t ->
                     MatchLoop fuel pattern' t = Some true ->
                     exists n', name = n' ++ "."%char :: ext) /\
          (forall t lastChunk,
              starLoop chunk lastChunk name = StarFound t ->
              MatchLoop fuel pattern' t = Some true ->
              exists n', name = n' ++ "."%char :: ext)) as [Hleaf1 Hleaf2].
  { destruct Hcases as [[q2 ->]|[-> [q1 ->]]].
    - split.
      + intros t [k ->]%matchChunk_suffix (n' & ->)%IH.
        exists (k ++ n'). by rewrite <-app_assoc.
      + intros t lastChunk [k ->]%starLoop_suffix (n' & ->)%IH.
        exists (k ++ n'). by rewrite <-app_assoc.
    - assert (forall t, MatchLoop fuel [] t = Some true -> t = []) as Hend.
      { intros t. destruct fuel; simpl; intros [= Ht];
          by apply bool_decide_eq_true in Ht. }
      split.
      + intros t (s' & ->)%matchChunk_tail ->%Hend; [|done].
        exists s'. by rewrite app_nil_r.
      + intros t lastChunk (s' & ->)%starLoop_tail ->%Hend; [|done].
        exists s'. by rewrite app_nil_r. }
  destruct (matchChunk chunk name) as [| |t] eqn:Hm; [done| |].
  - destruct star; [|by intros []%checkRest_not_true].
    destruct (starLoop _ _ _) as [| |t] eqn:Hs;
      [done|by intros []%checkRest_not_true|].
    by eapply Hleaf2.
  - destruct (_ || _); [by apply Hleaf1|].
    destruct star; [|by intros []%checkRest_not_true].
    destruct (starLoop _ _ _) as [| |t'] eqn:Hs;
      [done|by intros []%checkRest_not_true|].
    by eapply Hleaf2.
Qed.

Lemma Match_tail q ext name :
  plainExt ext = true ->
  Match (q ++ "."%char :: ext) name = Some true ->
  exists n', name = n' ++ "."%char :: ext.
Proof. apply MatchLoop_tail. Qed.

(** *** [filepath.Split] and [filepath.Glob] *)

Lemma lastIndexSep_lt q (i : nat) : lastIndexSep q = Some i -> (i < length q)%nat.
Proof.
  revert i. induction q as [|c q IH]; intros i; [done|]. simpl.
  destruct (lastIndexSep q) as [j|].
  - intros [= <-]. specialize (IH j eq_refl). lia.
  - destruct (IsPathSeparator c); [|done]. intros [= <-]. lia.
Qed.

Lemma lastIndexSep_app q tail :
  Separator ∉ tail -> lastIndexSep (q ++ tail) = lastIndexSep q.
Proof.
  intros Htail. induction q as [|c q IH].
  - rewrite app_nil_l. induction tail as [|c tail IH]; [done|].
    apply not_elem_of_cons in Htail as [Hc Htail]. simpl.
    rewrite IH by done. unfold IsPathSeparator.
    by rewrite bool_decide_eq_false_2.
  - rewrite <-app_comm_cons. simpl. by rewrite IH.
Qed.

Lemma Split_tail q tail :
  Separator ∉ tail -> exists q', (Split (q ++ tail)).2 = q' ++ tail.
Proof.
  intros Htail. unfold Split. rewrite lastIndexSep_app by done.
  destruct (lastIndexSep q) as [i|] eqn:Hi.
  - apply lastIndexSep_lt in Hi. exists (drop (S i) q). simpl.
    by rewrite drop_app_le by lia.
  - by exists q.
Qed.

Lemma globNames_results dir file names m m' f :
  globNames dir file names m = Some m' -> f ∈ m' ->
  f ∈ m \/ exists n, f = str (Join dir (bytes n)) /\ Match file (bytes n) = Some true.
Proof.
  revert m. induction names as [|n names IH]; intros m; simpl.
  - intros [= <-]. by left.
  - destruct (Match file (bytes n)) as [[|]|] eqn:Hn; [| |done].
    + intros Hg Hf. destruct (IH _ Hg Hf) as [Hin|?]; [|by right].
      apply elem_of_app in Hin as [?| ->%list_elem_of_singleton]; [by left|].
      right. by exists n.
    + apply IH.
Qed.

Lemma glob_results fs dir file m m' f :
  glob fs dir file m = Some m' -> f ∈ m' ->
  f ∈ m \/ exists n, f = str (Join dir (bytes n)) /\ Match file (bytes n) = Some true.
Proof.
  unfold glob. destruct (readdir fs (str dir)) as [names|].
  - apply globNames_results.
  - intros [= <-]. by left.
Qed.

Lemma globDirs_results fs dirs file m m' f :
  globDirs fs dirs file m = Some m' -> f ∈ m' ->
  f ∈ m \/ exists dir n, f = str (Join dir (bytes n)) /\
                         Match file (bytes n) = Some true.
Proof.
  revert m. induction dirs as [|d dirs IH]; intros m; simpl.
  - intros [= <-]. by left.
  - destruct (glob fs (bytes d) file m) as [m1|] eqn:Hg; [|done].
    intros Hd Hf. destruct (IH _ Hd Hf) as [Hin|?]; [|by right].
    destruct (glob_results _ _ _ _ _ _ Hg Hin) as [?|(n & ? & ?)]; [by left|].
    right. by exists (bytes d), n.
Qed.

(** What [Glob] returns: the pattern itself, or a directory entry that
    the file part of the pattern matches, joined to a directory. *)
Lemma GlobLoop_results fuel fs pattern files f :
  GlobLoop fuel fs pattern = Some files -> f ∈ files ->
  f = str pattern \/
  exists dir n, f = str (Join dir (bytes n)) /\
                Match (Split pattern).2 (bytes n) = Some true.
Proof.
  destruct fuel as [|fuel]; [done|]. cbn [GlobLoop].
  destruct (Match pattern []); [|done].
  destruct (hasMeta pattern); cbn [negb].
  - destruct (Split pattern) as [dir0 file] eqn:Hsplit. cbn [snd].
    destruct (hasMeta (cleanGlobPath dir0)); cbn [negb].
    + case_bool_decide; [done|].
      destruct (GlobLoop fuel fs _) as [m|]; [|done].
      intros Hg Hf. destruct (globDirs_results _ _ _ _ _ _ Hg Hf) as [Hin|?];
        [by apply elem_of_nil in Hin|by right].
    + intros Hg Hf. destruct (glob_results _ _ _ _ _ _ Hg Hf) as [Hin|(n & ? & ?)];
        [by apply elem_of_nil in Hin|].
      right. by exists (cleanGlobPath dir0), n.
  - intros [= <-]. destruct (os_Lstat fs _).
    + intros ->%list_elem_of_singleton. by left.
    + intros Hin. by apply elem_of_nil in Hin.
Qed.

Lemma listedExt_plain ext : listedExt ext -> plainExt ext = true.
Proof.
  unfold listedExt. intros Hext. apply list_elem_of_In in Hext.
  vm_compute in Hext. repeat (destruct Hext as [<-|Hext]); try done.
Qed.

Lemma listedExt_handled ext f :
  listedExt ext -> Ext f = str ("."%char :: ext) -> handledExt f = true.
Proof.
  unfold listedExt, handledExt. intros Hext ->. apply list_elem_of_In in Hext.
  vm_compute in Hext. repeat (destruct Hext as [<-|Hext]); try done.
Qed.

(** Every path [Glob] returns for a validated pattern has an extension
    that the decode dispatch handles. *)
Lemma Glob_handled fs p files f :
  MatchString patFileSDName p = true ->
  Glob fs p = Some files -> f ∈ files -> handledExt f = true.
Proof.
  intros (prefix & wild & ext & Hp & _ & _ & Hext)%MatchString_shape Hglob Hf.
  pose proof (listedExt_plain _ Hext) as Hplain.
  rewrite app_assoc in Hp. apply (listedExt_handled ext); [done|].
  assert (Separator ∉ "."%char :: ext) as Hnosep.
  { apply not_elem_of_cons. split; [done|]. by apply plainExt_not_elem. }
  unfold Glob in Hglob.
  destruct (GlobLoop_results _ _ _ _ _ Hglob Hf) as [->|(dir & n & -> & Hm)].
  - rewrite str_bytes. by eapply Ext_plain.
  - rewrite Hp in Hm.
    destruct (Split_tail (prefix ++ wild) _ Hnosep) as [q' Hq']. rewrite Hq' in Hm.
    apply Match_tail in Hm as [n' Hn']; [|done]. rewrite Hn'.
    destruct (Join_plain dir n' ext Hplain) as [z Hz]. rewrite Hz.
    eapply Ext_plain; [|done]. by rewrite bytes_str.
Qed.

Lemma listFilesLoop_handled fs patterns acc :
  Forall (fun p => MatchString patFileSDName p = true) patterns ->
  Forall (fun f => handledExt f = true) acc ->
  Forall (fun f => handledExt f = true) (listFilesLoop fs patterns acc).
Proof.
  intros Hpat. revert acc. induction Hpat as [|p patterns Hp _ IH]; intros acc Hacc.
  - done.
  - cbn [listFilesLoop]. destruct (Glob fs p) as [files|] eqn:Hglob; [|by apply IH].
    apply IH, Forall_app. split; [done|].
    apply Forall_forall. intros f Hf. by eapply Glob_handled.
Qed.

Context {codec : Codec}.

Lemma handledExt_decodes filename content :
  handledExt filename = true -> decodeByExt filename content <> None.
Proof.
  unfold handledExt, decodeByExt. intros Hin%bool_decide_eq_true.
  repeat case_bool_decide; try done.
  apply elem_of_cons in Hin as [?|Hin]; [done|].
  apply elem_of_cons in Hin as [?|Hin]; [done|].
  by apply list_elem_of_singleton in Hin.
Qed.

Lemma handledExt_no_panic fs filename st msg :
  handledExt filename = true -> (readFile fs filename st).1 <> Panicked msg.
Proof.
  intros Hext. unfold readFile, writeTimestamp. unfold_M.
  destruct (os_Open fs filename) as [fd|]; [|done].
  destruct (ReadAll fd) as [content|]; [|done].
  destruct (StatModTime fd); [|done].
  pose proof (handledExt_decodes filename content Hext) as Hdec.
  destruct (decodeByExt filename content) as [[tgs|]|]; [|done..].
  by destruct (stampGroups _ _ _).
Qed.

(** C7. When every configured pattern has passed the validator, every
    path the enumeration returns has an extension that lowers to [.json],
    [.yml] or [.yaml]; [readFile] on such a path never reaches the panic
    of its decode dispatch. *)
Theorem C7_validated_patterns_never_panic fs d :
  Forall (fun p => MatchString patFileSDName p = true) (paths d) ->
  Forall (fun f =>
            ToLower (Ext f) ∈ [".json"; ".yml"; ".yaml"] /\
            (forall st msg, (readFile fs f st).1 <> Panicked msg) /\
            readPanics fs f = false)
    (listFiles fs d).
Proof.
  intros Hpat. unfold listFiles.
  pose proof (listFilesLoop_handled fs (paths d) [] Hpat (Forall_nil_2 _)) as Hall.
  eapply Forall_impl; [exact Hall|]. intros f Hf. split_and!.
  - by apply bool_decide_eq_true in Hf.
  - intros st msg. by apply handledExt_no_panic.
  - unfold readPanics, readValue.
    pose proof (handledExt_no_panic fs f idleState) as Hno.
    destruct (readFile fs f idleState).1; try done. by destruct (Hno msg).
Qed.
End Extensions.

(* ================================================================= *)
(** ** The engine as a whole *)

Section Engine.
Context {codec : Codec}.

Lemma engine_step_bind {A B} (c : M A) (k : A -> M B) :
  engine_step c -> (forall a, engine_step (k a)) -> engine_step (c ≫= k).
Proof.
  intros Hc Hk st. unfold mbind, M_bind, bind.
  destruct (Hc st) as (Hp & Hw & Hl & new & Hs & Hctx).
  destruct (c st) as [[a| |msg] st1]; simpl in *.
  - destruct (Hk a st1) as (Hp' & Hw' & Hl' & new' & Hs' & Hctx').
    split_and!; [congruence..|]. exists (new ++ new').
    split; [by rewrite Hs', Hs, <-app_assoc|].
    destruct (ctx st) as [n|].
    + destruct Hctx as (Hc1 & Hle & _). rewrite Hc1 in Hctx'.
      destruct Hctx' as (Hc2 & Hle' & Hcan). rewrite length_app.
      split_and!; [rewrite Hc2; f_equal; lia|lia|].
      intros Hr. specialize (Hcan Hr). lia.
    + destruct Hctx as [Hc1 _]. by rewrite Hc1 in Hctx'.
  - split_and!; [done..|]. exists new. split; [done|].
    destruct (ctx st); [|by destruct Hctx as [_ []]].
    destruct Hctx as (? & ? & Hcan). split_and!; [done..|]. intros _. by apply Hcan.
  - split_and!; [done..|]. exists new. split; [done|].
    destruct (ctx st); [|by destruct Hctx]. destruct Hctx as (? & ? & _). done.
Qed.

Lemma engine_step_ret {A} (a : A) : engine_step (mret a).
Proof.
  intros st. unfold mret, M_ret, ret. cbn [fst snd].
  split_and!; [done..|]. exists []. rewrite app_nil_r. split; [done|].
  destruct (ctx st); simpl; [|done]. split_and!; [f_equal; lia|lia|done].
Qed.

Lemma engine_step_send batch : engine_step (send batch).
Proof.
  intros st. unfold send. destruct (ctx st) as [[|k]|] eqn:Hctx; simpl.
  - split_and!; [done..|]. exists []. by rewrite app_nil_r.
  - split_and!; [done..|]. exists [batch]. simpl.
    split_and!; [done|f_equal; lia|lia|done].
  - split_and!; [done..|]. by exists [batch].
Qed.

Lemma engine_step_timestamps {A} (a : A) (f : gmap string Z -> gmap string Z) :
  engine_step (fun st => (Ret a, set_disc (set_timestamps (f (timestamps (disc st)))
                                             (disc st)) st)).
Proof.
  intros st. split_and!; [done..|]. exists []. simpl. rewrite app_nil_r.
  split; [done|]. destruct (ctx st); [|done]. simpl.
  split_and!; [f_equal; lia|lia|done].
Qed.

Lemma readFile_not_cancelled fs p st : (readFile fs p st).1 <> Cancelled.
Proof.
  unfold readFile, writeTimestamp. unfold_M. repeat case_match; simpl; congruence.
Qed.

Lemma engine_step_readFile fs p : engine_step (readFile fs p).
Proof.
  intros st. pose proof (readFile_not_cancelled fs p st) as Hnc.
  destruct (readFile fs p st) as [r st'] eqn:Hr.
  apply readFile_state in Hr. simpl in *.
  assert (st' = st \/ exists ts, st' = set_disc (set_timestamps ts (disc st)) st) as Hst.
  { destruct r as [[|]| |]; eauto. destruct Hr as (mtime & _ & ->). eauto. }
  assert (paths (disc st') = paths (disc st) /\ watcher (disc st') = watcher (disc st) /\
          lastRefresh (disc st') = lastRefresh (disc st) /\ sent st' = sent st /\
          ctx st' = ctx st) as (? & ? & ? & Hs & Hc).
  { by destruct Hst as [->|[ts ->]]. }
  split_and!; [done..|]. exists []. rewrite app_nil_r. split; [done|].
  rewrite Hc. destruct (ctx st); [|done]. simpl.
  split_and!; [f_equal; lia|lia|done].
Qed.

Lemma engine_step_readLoop fs files ref : engine_step (readLoop fs files ref).
Proof.
  revert ref. induction files as [|p files IH]; intros ref; [apply engine_step_ret|].
  cbn [readLoop]. apply engine_step_bind; [apply engine_step_readFile|].
  intros [tgs|e].
  - apply engine_step_bind; [apply engine_step_send|done].
  - apply engine_step_bind.
    + intros st. unfold incReadErrors. cbn [fst snd disc sent ctx].
      split_and!; [done..|]. exists []. rewrite app_nil_r. split; [done|].
      destruct (ctx st); [|done]. simpl. split_and!; [f_equal; lia|lia|done].
    + intros _. apply engine_step_bind; [|done].
      intros st. unfold get_disc. cbn [fst snd].
      split_and!; [done..|]. exists []. rewrite app_nil_r. split; [done|].
      destruct (ctx st); [|done]. simpl. split_and!; [f_equal; lia|lia|done].
Qed.

Lemma engine_step_sendTombstones f i count : engine_step (sendTombstones f i count).
Proof.
  revert i. induction count as [|count IH]; intros i; [apply engine_step_ret|].
  cbn [sendTombstones]. apply engine_step_bind; [apply engine_step_send|done].
Qed.

Lemma engine_step_deleteLoop order ref : engine_step (deleteLoop order ref).
Proof.
  induction order as [|[f n] order IH]; [apply engine_step_ret|].
  cbn [deleteLoop]. apply engine_step_bind; [|done].
  case_match; [|apply engine_step_ret].
  apply engine_step_bind; [|intros _; apply engine_step_sendTombstones].
  apply (engine_step_timestamps tt (delete f)).
Qed.

Lemma engine_step_scanAndDelete fs order : engine_step (scanAndDelete fs order).
Proof.
  unfold scanAndDelete. apply engine_step_bind.
  - intros st. unfold get_disc. cbn [fst snd].
    split_and!; [done..|]. exists []. rewrite app_nil_r. split; [done|].
    destruct (ctx st); [|done]. simpl. split_and!; [f_equal; lia|lia|done].
  - intros d. apply engine_step_bind; [apply engine_step_readLoop|].
    intros ref. apply engine_step_bind; [apply engine_step_deleteLoop|].
    intros _. apply engine_step_ret.
Qed.

(** [refresh] in two phases: the two loops, then the new baseline and the
    watches; the scan is observed on every way out. *)
Lemma refresh_phases fs order st :
  refresh fs order st
  = match scanAndDelete fs order st with
    | (Ret ref, st2) =>
        let st3 := set_disc (set_lastRefresh ref (disc st2)) st2 in
        match watcher (disc st2) with
        | None => (Panicked "no watcher configured", observeScan st3)
        | Some w =>
            (Ret tt,
             observeScan
               (set_disc (set_watcher (Some (w ++ (watchDir <$> paths (disc st2))))
                            (disc st3)) st3))
        end
    | (Cancelled, st2) => (Cancelled, observeScan st2)
    | (Panicked msg, st2) => (Panicked msg, observeScan st2)
    end.
Proof.
  unfold refresh, scanAndDelete. unfold mbind, M_bind, bind, get_disc, mret, M_ret, ret.
  destruct (readLoop _ _ _ st) as [[ref| |msg] st1]; [|done..].
  destruct (deleteLoop order ref st1) as [[[]| |msg] st2]; [|done..].
  unfold modify_disc, watchFiles. cbn [disc set_disc watcher set_lastRefresh paths].
  by destruct (watcher (disc st2)).
Qed.

(** X1. A refresh that gives up on [ctx.Done()] has not replaced the
    baseline and has not touched the watches; it has sent exactly as many
    batches as sends were still going through, and its scan is observed all
    the same. *)
Theorem X1_cancelled_refresh_keeps_baseline fs order st st' :
  refresh fs order st = (Cancelled, st') ->
  lastRefresh (disc st') = lastRefresh (disc st) /\
  watcher (disc st') = watcher (disc st) /\
  paths (disc st') = paths (disc st) /\
  fileSDScanDuration st' = S (fileSDScanDuration st) /\
  exists k new,
    ctx st = Some k /\ sent st' = sent st ++ new /\ length new = k /\
    ctx st' = Some 0%nat.
Proof.
  intros Hr. pose proof (refresh_observes_one_scan fs order st) as Hscan.
  rewrite Hr in Hscan. rewrite refresh_phases in Hr.
  destruct (engine_step_scanAndDelete fs order st) as (Hp & Hw & Hl & new & Hs & Hctx).
  destruct (scanAndDelete fs order st) as [[ref| |msg] st2]; simpl in *.
  - by destruct (watcher (disc st2)).
  - injection Hr as <-. split_and!; [done..|].
    destruct (ctx st) as [k|]; [|by destruct Hctx as [_ []]].
    destruct Hctx as (Hc & Hle & Hk). specialize (Hk eq_refl).
    exists k, new. split_and!; [done..|]. simpl. rewrite Hc. f_equal. lia.
  - done.
Qed.

Lemma never_panics_bind {A B} (c : M A) (k : A -> M B) :
  never_panics c -> (forall a, never_panics (k a)) -> never_panics (c ≫= k).
Proof.
  intros Hc Hk st msg. unfold mbind, M_bind, bind.
  specialize (Hc st). destruct (c st) as [[a| |msg'] st1]; simpl in *.
  - apply Hk.
  - done.
  - by destruct (Hc msg').
Qed.

Lemma never_panics_send batch : never_panics (send batch).
Proof. intros st msg. unfold send. by repeat case_match. Qed.

Lemma never_panics_readLoop fs files ref :
  Forall (fun f => handledExt f = true) files ->
  never_panics (readLoop fs files ref).
Proof.
  intros Hfiles. revert ref. induction Hfiles as [|p files Hp _ IH]; intros ref; [done|].
  cbn [readLoop]. apply never_panics_bind.
  - intros st msg. by apply handledExt_no_panic.
  - intros [tgs|e].
    + apply never_panics_bind; [apply never_panics_send|done].
    + apply never_panics_bind; [done|]. intros _.
      apply never_panics_bind; [done|]. intros d. apply IH.
Qed.

Lemma never_panics_sendTombstones f i count : never_panics (sendTombstones f i count).
Proof.
  revert i. induction count as [|count IH]; intros i; [done|].
  cbn [sendTombstones]. apply never_panics_bind; [apply never_panics_send|done].
Qed.

Lemma never_panics_deleteLoop order ref : never_panics (deleteLoop order ref).
Proof.
  induction order as [|[f n] order IH]; [done|].
  cbn [deleteLoop]. apply never_panics_bind; [|done].
  case_match; [|done]. apply never_panics_bind; [done|]. intros _.
  apply never_panics_sendTombstones.
Qed.

Lemma validated_listFiles_handled fs d :
  Forall (fun p => MatchString patFileSDName p = true) (paths d) ->
  Forall (fun f => handledExt f = true) (listFiles fs d).
Proof. intros Hpat. by apply listFilesLoop_handled. Qed.

Lemma scanAndDelete_never_panics fs order st msg :
  Forall (fun p => MatchString patFileSDName p = true) (paths (disc st)) ->
  (scanAndDelete fs order st).1 <> Panicked msg.
Proof.
  intros Hpat. unfold scanAndDelete. unfold mbind at 1, M_bind at 1. unfold bind at 1.
  unfold get_disc at 1.
  apply (never_panics_bind (readLoop fs (listFiles fs (disc st)) ∅)).
  - by apply never_panics_readLoop, validated_listFiles_handled.
  - intros ref. apply never_panics_bind; [apply never_panics_deleteLoop|done].
Qed.

(** X2. With a watcher in place and validated patterns, [refresh] never
    panics, whatever the file system holds and whenever the context is
    cancelled; it leaves a watcher in place and the patterns as they are. *)
Theorem X2_refresh_never_panics fs order st :
  is_Some (watcher (disc st)) ->
  Forall (fun p => MatchString patFileSDName p = true) (paths (disc st)) ->
  (forall msg, (refresh fs order st).1 <> Panicked msg) /\
  is_Some (watcher (disc (refresh fs order st).2)) /\
  paths (disc (refresh fs order st).2) = paths (disc st).
Proof.
  intros [w Hw] Hpat. rewrite refresh_phases.
  destruct (engine_step_scanAndDelete fs order st) as (Hp & Hw' & _).
  pose proof (fun msg => scanAndDelete_never_panics fs order st msg Hpat) as Hnp.
  destruct (scanAndDelete fs order st) as [[ref| |msg] st2]; simpl in *.
  - rewrite Hw', Hw. simpl. split_and!; [done|by eexists|done].
  - rewrite Hw', Hw. split_and!; [done|by eexists|done].
  - by destruct (Hnp msg).
Qed.

(** X3. Without a watcher [refresh] panics in [watchFiles], but only at its
    very end: the batches of the files and the tombstones have been sent and
    the baseline has been replaced by then. *)
Theorem X3_refresh_without_watcher fs order st :
  ctx st = None ->
  watcher (disc st) = None ->
  Forall (fun p => readPanics fs p = false) (listFiles fs (disc st)) ->
  let files := listFiles fs (disc st) in
  let ref := scanRef fs (lastRefresh (disc st)) files ∅ in
  exists st',
    refresh fs order st = (Panicked "no watcher configured", st') /\
    lastRefresh (disc st') = ref /\
    sent st' = sent st ++ scanBatches fs files ++ deleteBatches order ref /\
    watcher (disc st') = None.
Proof.
  intros Hctx Hw Hpanic files ref. unfold refresh.
  unfold mbind, M_bind. unfold bind at 1. unfold get_disc at 1.
  unfold bind at 1. rewrite readLoop_spec by done.
  unfold bind at 1. rewrite deleteLoop_spec by done.
  unfold bind at 1. unfold modify_disc at 1. unfold watchFiles.
  cbn [disc watcher set_disc set_lastRefresh set_timestamps paths timestamps
       lastRefresh fileSDReadErrorsCount fileSDScanDuration sent ctx].
  rewrite Hw. eexists. split; [done|]. simpl. by rewrite <-app_assoc.
Qed.

(** One refresh of [Run] with validated patterns and a watcher. *)
Lemma callRefresh_safe fs c st :
  is_Some (watcher (disc st)) ->
  Forall (fun p => MatchString patFileSDName p = true) (paths (disc st)) ->
  (callRefresh fs c st).1 = Ret tt /\
  is_Some (watcher (disc (callRefresh fs c st).2)) /\
  paths (disc (callRefresh fs c st).2) = paths (disc st).
Proof.
  intros [w Hw] Hpat. unfold callRefresh. rewrite refresh_phases.
  set (st0 := set_ctx (send_budget c) st).
  destruct (engine_step_scanAndDelete fs (range_order c) st0) as (Hp & Hw' & _).
  pose proof (fun msg => scanAndDelete_never_panics fs (range_order c) st0 msg Hpat) as Hnp.
  destruct (scanAndDelete fs (range_order c) st0) as [[ref| |msg] st2]; simpl in *.
  - rewrite Hw', Hw. simpl. split_and!; [done|by eexists|done].
  - rewrite Hw', Hw. split_and!; [done|by eexists|done].
  - by destruct (Hnp msg).
Qed.

Lemma keeps_interval_bind {A B} (c : M A) (k : A -> M B) :
  keeps_interval c -> (forall a, keeps_interval (k a)) -> keeps_interval (c ≫= k).
Proof.
  intros Hc Hk st. unfold mbind, M_bind, bind.
  specialize (Hc st). destruct (c st) as [[a| |msg] st1]; simpl in *; [|done..].
  by rewrite Hk.
Qed.

Lemma keeps_interval_send batch : keeps_interval (send batch).
Proof. intros st. unfold send. by repeat case_match. Qed.

Lemma keeps_interval_readFile fs p : keeps_interval (readFile fs p).
Proof. intros st. rewrite readFile_eq. simpl. by destruct (readGroups fs p). Qed.

Lemma keeps_interval_readLoop fs files ref : keeps_interval (readLoop fs files ref).
Proof.
  revert ref. induction files as [|p files IH]; intros ref; [done|].
  cbn [readLoop]. apply keeps_interval_bind; [apply keeps_interval_readFile|].
  intros [tgs|e].
  - apply keeps_interval_bind; [apply keeps_interval_send|done].
  - apply keeps_interval_bind; [done|]. intros _.
    apply keeps_interval_bind; [done|]. intros d. apply IH.
Qed.

Lemma keeps_interval_sendTombstones f i count :
  keeps_interval (sendTombstones f i count).
Proof.
  revert i. induction count as [|count IH]; intros i; [done|].
  cbn [sendTombstones]. apply keeps_interval_bind; [apply keeps_interval_send|done].
Qed.

Lemma keeps_interval_deleteLoop order ref : keeps_interval (deleteLoop order ref).
Proof.
  induction order as [|[f n] order IH]; [done|].
  cbn [deleteLoop]. apply keeps_interval_bind; [|done].
  case_match; [|done].
  apply keeps_interval_bind; [done|]. intros _. apply keeps_interval_sendTombstones.
Qed.

Lemma keeps_interval_watchFiles : keeps_interval watchFiles.
Proof. intros st. unfold watchFiles. by case_match. Qed.

(** No refresh changes the interval of the instance, however it ends. *)
Lemma callRefresh_keeps_interval fs c : keeps_interval (callRefresh fs c).
Proof.
  intros st. unfold callRefresh.
  assert (keeps_interval (refresh fs (range_order c))) as Hr.
  { intros st0. unfold refresh.
    match goal with |- context [let '(_, _) := ?b st0 in _] =>
      assert (keeps_interval b) as Hb;
        [|specialize (Hb st0); destruct (b st0) as [r st']; simpl in *;
          by rewrite Hb]
    end.
    apply keeps_interval_bind; [done|]. intros d.
    apply keeps_interval_bind; [apply keeps_interval_readLoop|]. intros ref.
    apply keeps_interval_bind; [apply keeps_interval_deleteLoop|]. intros _.
    apply keeps_interval_bind; [done|]. intros _. apply keeps_interval_watchFiles. }
  specialize (Hr (set_ctx (send_budget c) st)).
  destruct (refresh _ _ _) as [[| |] st']; exact Hr.
Qed.

Lemma runLoop_safe fs sched st :
  is_Some (watcher (disc st)) ->
  Forall (fun p => MatchString patFileSDName p = true) (paths (disc st)) ->
  (runLoop fs sched st).1 = Ret (loopReturns sched) /\
  is_Some (watcher (disc (runLoop fs sched st).2)) /\
  paths (disc (runLoop fs sched st).2) = paths (disc st) /\
  fileSDScanDuration (runLoop fs sched st).2
  = (fileSDScanDuration st + refreshCount sched)%nat.
Proof.
  revert st. induction sched as [|[sel c] sched IH]; intros st Hw Hpat.
  { simpl. split_and!; [done..|lia]. }
  assert (forall st1 : State,
            is_Some (watcher (disc st1)) -> paths (disc st1) = paths (disc st) ->
            (runLoop fs sched st1).1 = Ret (loopReturns sched) /\
            is_Some (watcher (disc (runLoop fs sched st1).2)) /\
            paths (disc (runLoop fs sched st1).2) = paths (disc st) /\
            fileSDScanDuration (runLoop fs sched st1).2
            = (fileSDScanDuration st1 + refreshCount sched)%nat) as Hnext.
  { intros st1 Hw1 Hp1. destruct (IH st1) as (? & ? & ? & ?); [done|by rewrite Hp1|].
    split_and!; [done..|congruence|done]. }
  assert ((callRefresh fs c ≫= fun _ => runLoop fs sched) st
          = runLoop fs sched (callRefresh fs c st).2 /\
          fileSDScanDuration (callRefresh fs c st).2 = S (fileSDScanDuration st) /\
          is_Some (watcher (disc (callRefresh fs c st).2)) /\
          paths (disc (callRefresh fs c st).2) = paths (disc st)) as (Hcall & Hscan & Hw2 & Hp2).
  { destruct (callRefresh_safe fs c st Hw Hpat) as (Hr & ? & ?).
    split_and!; [|apply callRefresh_observes_one_scan|done..].
    unfold mbind, M_bind, bind. destruct (callRefresh fs c st) as [r st1].
    simpl in Hr. by subst r. }
  destruct sel as [|event| |err]; cbn [runLoop refreshCount loopReturns].
  - simpl. split_and!; [done..|lia].
  - unfold onEvent. destruct (eventRequiresRefresh event).
    + rewrite Hcall. destruct (Hnext _ Hw2 Hp2) as (? & ? & ? & Hs).
      split_and!; [done..|]. rewrite Hs, Hscan. lia.
    + destruct (Hnext st Hw eq_refl) as (? & ? & ? & Hs).
      split_and!; [done..|]. change ((mret tt ≫= fun _ => runLoop fs sched) st)
        with (runLoop fs sched st). rewrite Hs. lia.
  - rewrite Hcall. destruct (Hnext _ Hw2 Hp2) as (? & ? & ? & Hs).
    split_and!; [done..|]. rewrite Hs, Hscan. lia.
  - destruct (Hnext st Hw eq_refl) as (? & ? & ? & Hs). split_and!; [done..|].
    rewrite Hs. lia.
Qed.

(** [Run] up to the ticker: the watcher is set, the first refresh has run,
    and [time.NewTicker] is about to read the interval the instance was
    created with. *)
Lemma Run_first_refresh fs first st :
  Forall (fun p => MatchString patFileSDName p = true) (paths (disc st)) ->
  let st0 := set_disc (set_watcher (Some []) (disc st)) st in
  let st1 := (callRefresh fs first st0).2 in
  (callRefresh fs first st0).1 = Ret tt /\
  is_Some (watcher (disc st1)) /\
  paths (disc st1) = paths (disc st) /\
  interval (disc st1) = interval (disc st) /\
  fileSDScanDuration st1 = S (fileSDScanDuration st).
Proof.
  intros Hpat st0 st1.
  assert (is_Some (watcher (disc st0))) as Hw0 by (by eexists).
  assert (Forall (fun p => MatchString patFileSDName p = true) (paths (disc st0)))
    as Hpat0 by done.
  destruct (callRefresh_safe fs first st0 Hw0 Hpat0) as (Hr1 & Hw1 & Hp1).
  split_and!; [done..| |].
  - unfold st1. by rewrite callRefresh_keeps_interval.
  - unfold st1. by rewrite callRefresh_observes_one_scan.
Qed.

(** [Run] on validated patterns and a positive interval, from its first
    refresh to the deferred [stop]. *)
Lemma Run_safe fs first sched st :
  Forall (fun p => MatchString patFileSDName p = true) (paths (disc st)) ->
  0 < interval (disc st) ->
  (Run fs (ok tt) first sched st).1 = Ret (loopReturns sched) /\
  (loopReturns sched = true ->
   watcher (disc (Run fs (ok tt) first sched st).2) = None) /\
  (loopReturns sched = false ->
   is_Some (watcher (disc (Run fs (ok tt) first sched st).2))) /\
  paths (disc (Run fs (ok tt) first sched st).2) = paths (disc st) /\
  fileSDScanDuration (Run fs (ok tt) first sched st).2
  = (fileSDScanDuration st + 1 + refreshCount sched)%nat.
Proof.
  intros Hpat Hpos.
  destruct (Run_first_refresh fs first st Hpat) as (Hr1 & Hw1 & Hp1 & Hi1 & Hs1).
  set (st0 := set_disc (set_watcher (Some []) (disc st)) st) in *.
  destruct (runLoop_safe fs sched (callRefresh fs first st0).2 Hw1)
    as (Hr2 & Hw2 & Hp2 & Hs2); [by rewrite Hp1|].
  assert (Run fs (ok tt) first sched st
          = if loopReturns sched
            then (Ret true, (stop (runLoop fs sched (callRefresh fs first st0).2).2).2)
            else (Ret false, (runLoop fs sched (callRefresh fs first st0).2).2)) as ->.
  { unfold Run, mbind, M_bind, bind, modify_disc, NewTicker. fold st0.
    destruct (callRefresh fs first st0) as [r1 st1].
    cbn [fst snd] in Hr1, Hr2, Hi1 |- *. subst r1.
    rewrite (proj2 (Z.leb_gt _ _)) by (by rewrite Hi1).
    destruct (runLoop fs sched st1) as [r2 st2]. cbn [fst snd] in Hr2 |- *. subst r2.
    by destruct (loopReturns sched). }
  cbn [fst snd] in Hp1, Hs1.
  destruct (loopReturns sched).
  - unfold stop, modify_disc.
    cbn [fst snd disc set_disc set_watcher watcher paths fileSDScanDuration].
    split_and!; [done..|by rewrite Hp2, Hp1|]. rewrite Hs2, Hs1. lia.
  - cbn [fst snd]. split_and!; [done..|by rewrite Hp2, Hp1|]. rewrite Hs2, Hs1. lia.
Qed.


(** X4. With validated patterns and a positive interval [Run] never panics.
    For every schedule of events, ticks, watcher errors and cancellations
    it has returned, with the watcher closed, exactly when the loop has
    taken [ctx.Done()]; otherwise it is still in its loop with the watcher
    open. Either way the patterns are untouched and there has been one
    refresh at start and one more per tick and per event that passes the
    filters, up to the first [ctx.Done()] taken by the loop. *)
Theorem X4_Run_returns_and_counts_scans fs first sched st :
  Forall (fun p => MatchString patFileSDName p = true) (paths (disc st)) ->
  0 < interval (disc st) ->
  (Run fs (ok tt) first sched st).1 = Ret (loopReturns sched) /\
  (loopReturns sched = true ->
   watcher (disc (Run fs (ok tt) first sched st).2) = None) /\
  (loopReturns sched = false ->
   is_Some (watcher (disc (Run fs (ok tt) first sched st).2))) /\
  paths (disc (Run fs (ok tt) first sched st).2) = paths (disc st) /\
  fileSDScanDuration (Run fs (ok tt) first sched st).2
  = (fileSDScanDuration st + 1 + refreshCount sched)%nat.
Proof. exact (Run_safe fs first sched st). Qed.

Lemma scanRef_dom fs last files ref :
  dom (scanRef fs last files ref) = dom ref ∪ list_to_set files.
Proof.
  revert ref. induction files as [|p files IH]; intros ref.
  - simpl. by rewrite (right_id_L ∅ (∪)).
  - cbn [scanRef list_to_set foldr].
    destruct (readGroups fs p); rewrite IH, dom_insert_L;
      by rewrite (comm_L (∪) {[p]}), <-(assoc_L (∪)).
Qed.

Lemma scanRef_read fs last files ref p tgs :
  readGroups fs p = Some tgs ->
  p ∈ files \/ ref !! p = Some (Z.of_nat (length tgs)) ->
  scanRef fs last files ref !! p = Some (Z.of_nat (length tgs)).
Proof.
  intros Hp. revert ref. induction files as [|q files IH]; intros ref Hin.
  - destruct Hin as [Hin|]; [by apply elem_of_nil in Hin|done].
  - cbn [scanRef]. destruct (decide (q = p)) as [->|Hne].
    + rewrite Hp. apply IH. right. apply lookup_insert_eq.
    + destruct Hin as [Hin|Href].
      * apply elem_of_cons in Hin as [->|Hin]; [done|].
        destruct (readGroups fs q); apply IH; by left.
      * destruct (readGroups fs q); apply IH; right; by rewrite lookup_insert_ne.
Qed.

Lemma scanRef_nonneg fs last files ref :
  map_Forall (fun _ n => 0 <= n) last ->
  map_Forall (fun _ n => 0 <= n) ref ->
  map_Forall (fun _ n => 0 <= n) (scanRef fs last files ref).
Proof.
  intros Hlast. revert ref. induction files as [|p files IH]; intros ref Href; [done|].
  cbn [scanRef]. destruct (readGroups fs p) as [tgs|]; apply IH.
  - apply map_Forall_insert_2; [lia|done].
  - apply map_Forall_insert_2; [|done]. unfold zlookup.
    destruct (last !! p) as [n|] eqn:Hn; simpl; [|done]. by apply (Hlast p).
Qed.

(** X5. After a refresh that runs to its end the baseline has an entry for
    exactly the paths the enumeration listed: a path that is no longer
    listed is dropped from it, and a listed path is in it even when its read
    failed. *)
Theorem X5_baseline_is_the_listed_files fs order st w :
  ctx st = None ->
  watcher (disc st) = Some w ->
  Forall (fun p => readPanics fs p = false) (listFiles fs (disc st)) ->
  exists st',
    refresh fs order st = (Ret tt, st') /\
    dom (lastRefresh (disc st')) = list_to_set (listFiles fs (disc st)) /\
    forall p, is_Some (lastRefresh (disc st') !! p) <-> p ∈ listFiles fs (disc st).
Proof.
  intros Hctx Hw Hpanic. eexists. split; [by apply refresh_spec|].
  cbn [disc lastRefresh]. rewrite scanRef_dom, dom_empty_L, (left_id_L ∅ (∪)).
  split; [done|]. intros p.
  rewrite <-elem_of_dom, scanRef_dom, dom_empty_L, (left_id_L ∅ (∪)).
  apply elem_of_list_to_set.
Qed.

(** X6. After a refresh that runs to its end the count of every listed path
    that was read is the number of groups read from it, and no count is
    negative when none was before. *)
Theorem X6_baseline_counts fs order st w :
  ctx st = None ->
  watcher (disc st) = Some w ->
  Forall (fun p => readPanics fs p = false) (listFiles fs (disc st)) ->
  exists st',
    refresh fs order st = (Ret tt, st') /\
    (forall p tgs,
       p ∈ listFiles fs (disc st) -> readGroups fs p = Some tgs ->
       lastRefresh (disc st') !! p = Some (Z.of_nat (length tgs))) /\
    (map_Forall (fun _ n => 0 <= n) (lastRefresh (disc st)) ->
     map_Forall (fun _ n => 0 <= n) (lastRefresh (disc st'))).
Proof.
  intros Hctx Hw Hpanic. eexists. split; [by apply refresh_spec|].
  cbn [disc lastRefresh]. split.
  - intros p tgs Hin Hp. apply scanRef_read; [done|by left].
  - intros Hlast. apply scanRef_nonneg; [done|]. apply map_Forall_empty.
Qed.

Lemma scanTimestamps_read fs files ts p tgs :
  readGroups fs p = Some tgs ->
  p ∈ files \/ ts !! p = Some (mtimeOf fs p) ->
  scanTimestamps fs files ts !! p = Some (mtimeOf fs p).
Proof.
  intros Hp. revert ts. unfold scanTimestamps.
  induction files as [|q files IH]; intros ts Hin.
  - destruct Hin as [Hin|]; [by apply elem_of_nil in Hin|done].
  - cbn [foldl]. destruct (decide (q = p)) as [->|Hne].
    + rewrite Hp. apply IH. right. apply lookup_insert_eq.
    + destruct Hin as [Hin|Hts].
      * apply elem_of_cons in Hin as [->|Hin]; [done|]. apply IH. by left.
      * apply IH. right. destruct (readGroups fs q); [|done].
        by rewrite lookup_insert_ne.
Qed.

Lemma scanTimestamps_is_Some fs files ts p :
  is_Some (scanTimestamps fs files ts !! p) -> is_Some (ts !! p) \/ p ∈ files.
Proof.
  revert ts. unfold scanTimestamps. induction files as [|q files IH]; intros ts.
  - by left.
  - cbn [foldl]. intros [Hts|Hin]%IH; [|right; by right].
    destruct (readGroups fs q); [|by left].
    destruct (decide (q = p)) as [->|Hne]; [right; by left|].
    left. by rewrite lookup_insert_ne in Hts.
Qed.

Lemma deleteTimestamps_keep order ref ts f :
  (forall n, (f, n) ∈ order -> shrunk ref f n = false) ->
  deleteTimestamps order ref ts !! f = ts !! f.
Proof.
  revert ts. unfold deleteTimestamps.
  induction order as [|[g n] order IH]; intros ts Hkeep; [done|].
  cbn [foldl]. rewrite IH.
  - destruct (shrunk ref g n) eqn:Hs; [|done].
    destruct (decide (g = f)) as [->|Hne]; [|by rewrite lookup_delete_ne].
    rewrite Hkeep in Hs; [done|by left].
  - intros k Hk. apply Hkeep. by right.
Qed.

(** X7. After a refresh that runs to its end, a listed file that was read
    has its modification time recorded, unless it holds fewer groups than
    its previous count: the second loop then removes the entry that the
    read had just written. *)
Theorem X7_timestamp_after_refresh fs order st w p tgs :
  ctx st = None ->
  watcher (disc st) = Some w ->
  Forall (fun p => readPanics fs p = false) (listFiles fs (disc st)) ->
  order ≡ₚ map_to_list (lastRefresh (disc st)) ->
  p ∈ listFiles fs (disc st) ->
  readGroups fs p = Some tgs ->
  exists st',
    refresh fs order st = (Ret tt, st') /\
    timestamps (disc st') !! p
    = if Z.of_nat (length tgs) <? zlookup (lastRefresh (disc st)) p
      then None else Some (mtimeOf fs p).
Proof.
  intros Hctx Hw Hpanic Hperm Hin Hp. eexists. split; [by apply refresh_spec|].
  cbn [disc timestamps].
  set (ref := scanRef fs (lastRefresh (disc st)) (listFiles fs (disc st)) ∅).
  assert (ref !! p = Some (Z.of_nat (length tgs))) as Href.
  { apply scanRef_read; [done|by left]. }
  assert (forall n, (p, n) ∈ order -> n = zlookup (lastRefresh (disc st)) p) as Hn.
  { intros n Hpn. rewrite Hperm in Hpn. apply elem_of_map_to_list in Hpn.
    unfold zlookup. by rewrite Hpn. }
  assert (forall n, shrunk ref p n = (Z.of_nat (length tgs) <? n)) as Hshrunk.
  { intros n. unfold shrunk, zlookup. rewrite Href.
    by rewrite bool_decide_eq_true_2 by (by eexists). }
  destruct (Z.ltb_spec (Z.of_nat (length tgs)) (zlookup (lastRefresh (disc st)) p))
    as [Hlt|Hge].
  - apply (deleteTimestamps_shrunk _ _ _ p (zlookup (lastRefresh (disc st)) p)).
    + rewrite Hperm. apply elem_of_map_to_list. unfold zlookup in *.
      destruct (lastRefresh (disc st) !! p); [done|simpl in Hlt; lia].
    + rewrite Hshrunk. by apply Z.ltb_lt.
  - rewrite deleteTimestamps_keep.
    + apply (scanTimestamps_read _ _ _ _ tgs); [done|by left].
    + intros n ->%Hn. rewrite Hshrunk. by apply Z.ltb_ge.
Qed.

(** X8. Refreshes that run to their end keep the timestamp map inside the
    baseline: when every path with a timestamp had a baseline entry before,
    the same holds after, so no gauge outlives the baseline entry of its
    file. *)
Theorem X8_timestamps_stay_within_baseline fs order st w :
  ctx st = None ->
  watcher (disc st) = Some w ->
  Forall (fun p => readPanics fs p = false) (listFiles fs (disc st)) ->
  order ≡ₚ map_to_list (lastRefresh (disc st)) ->
  dom (timestamps (disc st)) ⊆ dom (lastRefresh (disc st)) ->
  exists st',
    refresh fs order st = (Ret tt, st') /\
    dom (timestamps (disc st')) ⊆ dom (lastRefresh (disc st')).
Proof.
  intros Hctx Hw Hpanic Hperm Hinv. eexists. split; [by apply refresh_spec|].
  cbn [disc timestamps lastRefresh].
  set (ref := scanRef fs (lastRefresh (disc st)) (listFiles fs (disc st)) ∅).
  intros f Hf. apply elem_of_dom in Hf.
  destruct (ref !! f) as [m|] eqn:Href; [apply elem_of_dom; by eexists|].
  exfalso.
  assert (is_Some (scanTimestamps fs (listFiles fs (disc st)) (timestamps (disc st)) !! f))
    as Hscan.
  { destruct (scanTimestamps _ _ _ !! f) eqn:Hs; [by eexists|].
    rewrite deleteTimestamps_None in Hf by done. by destruct Hf. }
  apply scanTimestamps_is_Some in Hscan as [Hts|Hin].
  - apply elem_of_dom, Hinv, elem_of_dom in Hts as [n Hn].
    rewrite (deleteTimestamps_shrunk _ _ _ f n) in Hf; [by destruct Hf| |].
    + rewrite Hperm. by apply elem_of_map_to_list.
    + unfold shrunk. rewrite Href. by rewrite bool_decide_eq_false_2 by (by intros []).
  - assert (f ∈ dom ref) as Hd.
    { unfold ref. rewrite scanRef_dom. apply elem_of_union. right.
      by apply elem_of_list_to_set. }
    apply elem_of_dom in Hd as [? ?]. congruence.
Qed.
End Engine.



(** ** Source identifiers and watch directories *)

Section Sources.
Context {codec : Codec}.

Lemma bytes_app (s1 s2 : string) : bytes (s1 +:+ s2) = bytes s1 ++ bytes s2.
Proof. induction s1 as [|c s1 IH]; simpl; [done|]. by rewrite <-IH. Qed.

Lemma bytes_inj (s1 s2 : string) : bytes s1 = bytes s2 -> s1 = s2.
Proof. intros Heq. by rewrite <-(str_bytes s1), <-(str_bytes s2), Heq. Qed.

Lemma string_of_uint_digits d :
  ":"%char ∉ bytes (NilEmpty.string_of_uint d).
Proof.
  induction d; simpl; [apply not_elem_of_nil|..];
    (apply not_elem_of_cons; split; [done|exact IHd]).
Qed.

(** The decimal form of an integer holds no colon. *)
Lemma itoa_no_colon i : ":"%char ∉ bytes (itoa i).
Proof.
  unfold itoa, NilZero.string_of_int, NilZero.string_of_uint.
  destruct (Z.to_int i) as [d|d]; destruct d; simpl;
    repeat (apply not_elem_of_cons; split; [done|]);
    first [apply not_elem_of_nil | apply string_of_uint_digits].
Qed.

Lemma itoa_inj i j : itoa i = itoa j -> i = j.
Proof.
  unfold itoa. intros Heq. apply DecimalZ.to_int_inj.
  assert (forall k, NilZero.int_of_string (NilZero.string_of_int (Z.to_int k))
                    = Some (Z.to_int k)) as Hisi.
  { intros k. apply NilZero.isi; destruct k as [|p|p]; simpl; try done;
      intros [= Hp]; by apply (Unsigned.to_uint_nonnil p). }
  pose proof (Hisi i) as Hi. rewrite Heq, Hisi in Hi. by injection Hi.
Qed.

Lemma app_pivot_inj {A} (c : A) (l1 l2 a b : list A) :
  c ∉ a -> c ∉ b -> l1 ++ c :: a = l2 ++ c :: b -> l1 = l2 /\ a = b.
Proof.
  intros Ha Hb. revert l2. induction l1 as [|x l1 IH]; intros [|y l2] Heq;
    simplify_eq/=.
  - done.
  - exfalso. apply Ha, elem_of_app. right. by left.
  - exfalso. apply Hb, elem_of_app. right. by left.
  - destruct (IH l2) as [-> ->]; done.
Qed.

Lemma fileSource_inj f g i j : fileSource f i = fileSource g j -> f = g /\ i = j.
Proof.
  unfold fileSource. intros Heq.
  apply (f_equal bytes) in Heq. rewrite !bytes_app in Heq. simpl in Heq.
  apply app_pivot_inj in Heq as [Hf Hi]; [|apply itoa_no_colon..].
  split; [by apply bytes_inj|]. by apply itoa_inj, bytes_inj.
Qed.

(** X9. Source identifiers never collide: two of them are equal only for the
    same file name and the same index, also when file names hold colons or
    digits. *)
Theorem X9_fileSource_injective f g i j :
  fileSource f i = fileSource g j <-> f = g /\ i = j.
Proof.
  split.
  - apply fileSource_inj.
  - by intros [-> ->].
Qed.

Lemma stampGroups_sources filename i decoded tgs :
  stampGroups filename i decoded = ok tgs ->
  Source <$> tgs = fileSource filename <$> seqZ i (Z.of_nat (length decoded)).
Proof.
  revert i tgs. induction decoded as [|[tg|] decoded IH]; intros i tgs.
  - by intros [= <-].
  - cbn [stampGroups]. destruct (stampGroups filename (i + 1) decoded) as [l|] eqn:Hl;
      [|done]. intros [= <-]. rewrite fmap_cons. cbn [Source].
    rewrite (IH _ _ Hl). cbn [length]. rewrite Nat2Z.inj_succ, (seqZ_cons i) by lia.
    rewrite fmap_cons, Z.pred_succ. by replace (Z.succ i) with (i + 1) by lia.
  - done.
Qed.

(** X10. The groups [readFile] returns for one file carry pairwise distinct
    sources, the sources of the indices from 0 on, in order. *)
Theorem X10_readFile_sources_distinct fs filename st tgs st' :
  readFile fs filename st = (Ret (ok tgs), st') ->
  Source <$> tgs = fileSource filename <$> seqZ 0 (Z.of_nat (length tgs)) /\
  NoDup (Source <$> tgs).
Proof.
  unfold readFile, writeTimestamp. unfold_M.
  destruct (os_Open fs filename) as [fd|]; [|done].
  destruct (ReadAll fd); [|done]. destruct (StatModTime fd); [|done].
  destruct (decodeByExt _ _) as [[decoded|]|]; [|done..].
  destruct (stampGroups filename 0 decoded) as [l|] eqn:Hl; [|done].
  intros [= <- _]. pose proof (stampGroups_sources _ _ _ _ Hl) as Hsrc.
  assert (length l = length decoded) as Hlen.
  { apply (f_equal length) in Hsrc.
    by rewrite !length_fmap, length_seqZ, Nat2Z.id in Hsrc. }
  rewrite Hlen. split; [done|]. rewrite Hsrc.
  apply NoDup_fmap_2; [|apply NoDup_seqZ].
  intros i j Heq. by apply fileSource_inj in Heq as [_ ?].
Qed.

Lemma lastIndexSep_None file : Separator ∉ file -> lastIndexSep file = None.
Proof. intros Hfile. by rewrite <-(app_nil_l file), lastIndexSep_app. Qed.

Lemma lastIndexSep_pivot dir file :
  Separator ∉ file -> lastIndexSep (dir ++ Separator :: file) = Some (length dir).
Proof.
  intros Hfile. induction dir as [|c dir IH].
  - simpl. by rewrite lastIndexSep_None.
  - rewrite <-app_comm_cons. simpl. by rewrite IH.
Qed.

(** X11. The directory [watchFiles] watches for a pattern is the part of the
    pattern before its last separator, which is the empty string for a
    pattern directly under the root; a pattern without separator is watched
    through the current directory. *)
Theorem X11_watchDir_is_the_directory_part dir file :
  Separator ∉ file ->
  watchDir (str (dir ++ Separator :: file)) = str dir /\
  watchDir (str file) = "./".
Proof.
  intros Hfile. unfold watchDir. split.
  - rewrite bytes_str, lastIndexSep_pivot by done.
    by rewrite take_app_length.
  - by rewrite bytes_str, lastIndexSep_None.
Qed.

(** X12. The directory watched for a validated pattern holds no star: the
    validator only lets a star into the last element of the path, which
    [watchFiles] cuts off. *)
Theorem X12_validated_watchDir_has_no_star p :
  MatchString patFileSDName p = true -> "*"%char ∉ bytes (watchDir p).
Proof.
  intros (prefix & wild & ext & Hp & Hpre & Hwild & Hext)%MatchString_shape.
  pose proof (listedExt_plain _ Hext) as Hplain.
  assert (Separator ∉ wild ++ "."%char :: ext) as Hnosep.
  { intros [Hin|Hin]%elem_of_app.
    - destruct Hwild as [->|(suffix & -> & Hsuf)]; [by apply elem_of_nil in Hin|].
      apply elem_of_cons in Hin as [?|Hin]; done.
    - apply elem_of_cons in Hin as [?|Hin]; [done|].
      by apply (plainExt_not_elem ext Separator) in Hin. }
  unfold watchDir. rewrite Hp, lastIndexSep_app by done.
  destruct (lastIndexSep prefix) as [i|] eqn:Hi.
  - apply lastIndexSep_lt in Hi. rewrite bytes_str, take_app_le by lia.
    intros Hin. apply Hpre. by eapply subseteq_take.
  - apply (bool_decide_unpack _). by vm_compute.
Qed.

(** *** The file enumerator *)

Lemma listFilesLoop_concat fs patterns acc :
  listFilesLoop fs patterns acc
  = acc ++ concat ((fun p => default [] (Glob fs p)) <$> patterns).
Proof.
  revert acc. induction patterns as [|p patterns IH]; intros acc.
  - by rewrite app_nil_r.
  - cbn [listFilesLoop]. rewrite fmap_cons. cbn [concat].
    destruct (Glob fs p) as [files|]; rewrite IH; simpl; [|done].
    by rewrite <-app_assoc.
Qed.

(** X13. [listFiles] is the concatenation, in the order of the configured
    patterns, of what [Glob] returns for each: a file is listed exactly when
    the expansion of some configured pattern succeeds and holds it, and a
    pattern whose expansion fails does not stop the patterns after it. *)
Theorem X13_listFiles_concatenates fs d :
  listFiles fs d = concat ((fun p => default [] (Glob fs p)) <$> paths d) /\
  forall f,
    f ∈ listFiles fs d <->
    exists p files, p ∈ paths d /\ Glob fs p = Some files /\ f ∈ files.
Proof.
  unfold listFiles. rewrite listFilesLoop_concat. split; [done|].
  intros f. rewrite app_nil_l.
  induction (paths d) as [|p patterns IH].
  - split; [by intros ?%elem_of_nil|]. by intros (? & ? & ?%elem_of_nil & _).
  - rewrite fmap_cons. cbn [concat]. rewrite elem_of_app, IH. split.
    + intros [Hf|(q & files & Hq & Hglob & Hf)].
      * destruct (Glob fs p) as [files|] eqn:Hglob; [|by apply elem_of_nil in Hf].
        exists p, files. split_and!; [by left|done..].
      * exists q, files. split_and!; [by right|done..].
    + intros (q & files & [->|Hq]%elem_of_cons & Hglob & Hf).
      * left. by rewrite Hglob.
      * right. by exists q, files.
Qed.

Lemma hasMeta_false pattern :
  hasMeta pattern = false ->
  Forall (fun c => c <> "*"%char /\ c <> "?"%char /\ c <> "["%char /\ c <> "\"%char)
    pattern.
Proof.
  unfold hasMeta. intros Hmeta. apply Forall_forall. intros c Hc.
  assert (bool_decide (c ∈ bytes "*?[\") = false) as Hb.
  { destruct (bool_decide (c ∈ bytes "*?[\")) eqn:Hb; [|done].
    rewrite <-Hmeta. symmetry. apply existsb_exists. exists c.
    split; [by apply list_elem_of_In|done]. }
  apply bool_decide_eq_false in Hb.
  split_and!; intros ->; apply Hb; apply (bool_decide_unpack _); by vm_compute.
Qed.

Lemma scanLoop_plain pattern inrange :
  Forall (fun c => c <> "*"%char /\ c <> "?"%char /\ c <> "["%char /\ c <> "\"%char)
    pattern ->
  scanLoop pattern inrange = length pattern.
Proof.
  intros Hp. revert inrange. induction Hp as [|c pattern (Hs & _ & Hb & Hbs) _ IH];
    intros inrange; [done|].
  cbn [scanLoop].
  rewrite (bool_decide_eq_false_2 (c = "\"%char)), (bool_decide_eq_false_2 (c = "["%char)),
    (bool_decide_eq_false_2 (c = "*"%char)) by done.
  case_bool_decide; by rewrite IH.
Qed.

Lemma matchChunkLoop_failed_plain fuel chunk s :
  Forall (fun c => c <> "*"%char /\ c <> "?"%char /\ c <> "["%char /\ c <> "\"%char)
    chunk ->
  (length chunk <= fuel)%nat ->
  matchChunkLoop fuel chunk s true = ChunkNo.
Proof.
  intros Hchunk. revert fuel s.
  induction Hchunk as [|c chunk (_ & Hq & Hb & Hbs) _ IH]; intros fuel s Hfuel.
  - by destruct fuel.
  - destruct fuel as [|fuel]; [simpl in Hfuel; lia|]. cbn [matchChunkLoop orb].
    rewrite (bool_decide_eq_false_2 (c = "\"%char)), (bool_decide_eq_false_2 (c = "["%char)),
      (bool_decide_eq_false_2 (c = "?"%char)) by done.
    apply IH. simpl in Hfuel. lia.
Qed.

(** On a pattern without magic characters [Match] never reports a bad
    pattern against the empty name. *)
Lemma Match_plain_empty pattern :
  hasMeta pattern = false -> is_Some (Match pattern []).
Proof.
  intros Hmeta%hasMeta_false. unfold Match.
  destruct pattern as [|c pattern]; [by eexists|].
  cbn [length MatchLoop]. unfold scanChunk.
  assert (skipStars (c :: pattern) = (false, c :: pattern)) as ->.
  { simpl. rewrite bool_decide_eq_false_2; [done|].
    by apply Forall_cons in Hmeta as [[? _] _]. }
  rewrite scanLoop_plain, firstn_all, drop_all by done. cbn [andb].
  unfold matchChunk. cbn [length matchChunkLoop orb].
  apply Forall_cons in Hmeta as [(Hs & Hq & Hb & Hbs) Hmeta].
  rewrite (bool_decide_eq_false_2 (c = "\"%char)), (bool_decide_eq_false_2 (c = "["%char)),
    (bool_decide_eq_false_2 (c = "?"%char)) by done.
  rewrite matchChunkLoop_failed_plain by done. by eexists.
Qed.

Lemma Glob_plain fs p :
  hasMeta (bytes p) = false ->
  Glob fs p = Some (if os_Lstat fs p then [p] else []).
Proof.
  intros Hmeta. unfold Glob. cbn [GlobLoop].
  destruct (Match_plain_empty _ Hmeta) as [b ->].
  by rewrite Hmeta, str_bytes.
Qed.

(** X14. When no configured pattern holds a magic character of [Match],
    [listFiles] returns the configured names that exist, in the configured
    order and as often as they are configured. *)
Theorem X14_listFiles_of_plain_names fs d :
  Forall (fun p => hasMeta (bytes p) = false) (paths d) ->
  listFiles fs d = filter (fun p => os_Lstat fs p = true) (paths d).
Proof.
  unfold listFiles. rewrite listFilesLoop_concat, app_nil_l.
  induction 1 as [|p patterns Hp _ IH]; [done|].
  rewrite fmap_cons, filter_cons. cbn [concat]. rewrite IH, Glob_plain by done.
  by destruct (os_Lstat fs p).
Qed.

(** X15. [readFile] panics exactly on a file that it could open, read and
    stat and whose extension the decode dispatch does not handle; on such
    an extension a file that cannot be opened gives an error instead. *)
Theorem X15_readFile_panics_iff fs filename st :
  (exists msg, (readFile fs filename st).1 = Panicked msg) <->
  (exists fd content mtime,
     os_Open fs filename = ok fd /\ ReadAll fd = ok content /\
     StatModTime fd = ok mtime) /\
  handledExt filename = false.
Proof.
  assert (forall content, decodeByExt filename content = None <->
                          handledExt filename = false) as Hdec.
  { intros content. split.
    - intros Hnone. destruct (handledExt filename) eqn:Hh; [|done].
      by destruct (handledExt_decodes filename content Hh).
    - unfold handledExt, decodeByExt. intros Hh%bool_decide_eq_false.
      rewrite !elem_of_cons in Hh.
      rewrite !bool_decide_eq_false_2; [done|..]; intros Hext; apply Hh; auto. }
  unfold readFile, writeTimestamp. unfold_M.
  destruct (os_Open fs filename) as [fd|e] eqn:Hopen.
  2: { split; [by intros [? ?]|]. by intros [(? & ? & ? & ? & _) _]. }
  destruct (ReadAll fd) as [content|e] eqn:Hread.
  2: { split; [by intros [? ?]|]. intros [(? & ? & ? & [= <-] & ? & _) _].
       congruence. }
  destruct (StatModTime fd) as [mtime|e] eqn:Hstat.
  2: { split; [by intros [? ?]|]. intros [(? & ? & ? & [= <-] & _ & ?) _].
       congruence. }
  destruct (decodeByExt filename content) as [[decoded|e]|] eqn:Hd.
  - split.
    + destruct (stampGroups _ _ _); by intros [? ?].
    + intros [_ Hh]. apply (Hdec content) in Hh. congruence.
  - split; [by intros [? ?]|]. intros [_ Hh]. apply (Hdec content) in Hh. congruence.
  - split; [|by eexists]. intros _. split; [by exists fd, content, mtime|].
    by apply (Hdec content).
Qed.
End Sources.

(* ================================================================= *)
(** ** The registry of instances *)

Section Registry.

(** The paths [uniqueFiles] holds are those of the visited instances. *)
Lemma collectUnique_dom heap order f :
  is_Some (collectUnique heap order !! f) <->
  exists a fileSD, a ∈ order /\ heap !! a = Some fileSD /\
                   is_Some (timestamps fileSD !! f).
Proof.
  split.
  - intros [v (pre & a & post & fileSD & -> & Ha & Hv & _)%collectUnique_lookup].
    exists a, fileSD. split_and!; [|done|by eexists].
    apply elem_of_app. right. by left.
  - intros (a & fileSD & Ha & Hd & Hf). by eapply collectUnique_is_Some.
Qed.

Lemma Collect_filenames heap t visit emit f :
  emit (collectUnique heap (visit (discoverers t)))
    ≡ₚ map_to_list (collectUnique heap (visit (discoverers t))) ->
  f ∈ (metric_filename <$> Collect heap t visit emit) <->
  is_Some (collectUnique heap (visit (discoverers t)) !! f).
Proof.
  intros Hemit. unfold Collect. rewrite <-list_fmap_compose.
  erewrite (list_fmap_ext _ fst); [|by intros ? [? ?]].
  rewrite Hemit. rewrite <-elem_of_dom.
  by rewrite <-(elem_of_list_to_set (C := gset string)), <-dom_alt.
Qed.

Lemma Collect_sampled_paths heap t visit emit f :
  visit (discoverers t) ≡ₚ elements (discoverers t) ->
  emit (collectUnique heap (visit (discoverers t)))
    ≡ₚ map_to_list (collectUnique heap (visit (discoverers t))) ->
  f ∈ (metric_filename <$> Collect heap t visit emit) <->
  exists a fileSD, a ∈ discoverers t /\ heap !! a = Some fileSD /\
                   is_Some (timestamps fileSD !! f).
Proof.
  intros Hvisit Hemit. rewrite Collect_filenames, collectUnique_dom by done.
  by setoid_rewrite Hvisit; setoid_rewrite elem_of_elements.
Qed.

(** X16. Once [removeDiscoverer] has taken an instance out of the registry,
    [Collect] emits a sample for a path only when another registered
    instance holds it: what the removed instance still has in its
    timestamps is no longer reported. *)
Theorem X16_removed_instance_is_not_collected heap t a visit emit f :
  visit (discoverers (removeDiscoverer a t))
    ≡ₚ elements (discoverers (removeDiscoverer a t)) ->
  emit (collectUnique heap (visit (discoverers (removeDiscoverer a t))))
    ≡ₚ map_to_list (collectUnique heap (visit (discoverers (removeDiscoverer a t)))) ->
  f ∈ (metric_filename <$> Collect heap (removeDiscoverer a t) visit emit) <->
  exists b fileSD, b ∈ discoverers t /\ b <> a /\ heap !! b = Some fileSD /\
                   is_Some (timestamps fileSD !! f).
Proof.
  intros Hvisit Hemit. rewrite Collect_sampled_paths by done.
  unfold removeDiscoverer. cbn [discoverers]. split.
  - intros (b & fileSD & [Hb Hne]%elem_of_difference & Hd & Hf).
    exists b, fileSD. split_and!; [done| |done..].
    intros ->. apply Hne. by apply elem_of_singleton.
  - intros (b & fileSD & Hb & Hne & Hd & Hf). exists b, fileSD.
    split_and!; [|done..]. apply elem_of_difference. split; [done|].
    by intros ->%elem_of_singleton.
Qed.

(** X17. With a single instance registered [Collect] reports that
    instance's timestamps, one sample per entry with the entry's value. *)
Theorem X17_single_instance_collected_as_is heap a fileSD t visit emit :
  heap !! a = Some fileSD ->
  t = addDiscoverer a NewTimestampCollector ->
  visit (discoverers t) ≡ₚ elements (discoverers t) ->
  emit (collectUnique heap (visit (discoverers t)))
    ≡ₚ map_to_list (collectUnique heap (visit (discoverers t))) ->
  Collect heap t visit emit
    ≡ₚ (fun '(filename, timestamp) => mkMetric timestamp filename)
         <$> map_to_list (timestamps fileSD).
Proof.
  intros Ha Ht Hvisit Hemit. unfold Collect.
  assert (visit (discoverers t) = [a]) as Hone.
  { apply Permutation_singleton_r. rewrite Hvisit, Ht. unfold addDiscoverer.
    cbn [discoverers NewTimestampCollector].
    by rewrite (right_id_L ∅ (∪)), elements_singleton. }
  rewrite Hone in Hemit |- *. rewrite Hemit.
  unfold collectUnique. cbn [foldl]. rewrite Ha, mergeTimestamps_map.
  by rewrite (right_id_L ∅ (∪)).
Qed.

(** X18. [NewDiscovery] registers the new instance with no timestamps, so
    creating an instance at a fresh address changes nothing in the set of
    paths [Collect] reports. *)
Theorem X18_new_instance_adds_no_sample conf a heap t heap' t' visit emit f :
  heap !! a = None ->
  NewDiscovery conf a heap t = (heap', t') ->
  visit (discoverers t) ≡ₚ elements (discoverers t) ->
  emit (collectUnique heap (visit (discoverers t)))
    ≡ₚ map_to_list (collectUnique heap (visit (discoverers t))) ->
  visit (discoverers t') ≡ₚ elements (discoverers t') ->
  emit (collectUnique heap' (visit (discoverers t')))
    ≡ₚ map_to_list (collectUnique heap' (visit (discoverers t'))) ->
  f ∈ (metric_filename <$> Collect heap' t' visit emit) <->
  f ∈ (metric_filename <$> Collect heap t visit emit).
Proof.
  intros Hfresh [= <- <-] Hvisit Hemit Hvisit' Hemit'.
  rewrite !Collect_sampled_paths by done.
  unfold addDiscoverer. cbn [discoverers]. split.
  - intros (b & fileSD & Hb & Hd & Hf). destruct (decide (b = a)) as [->|Hne].
    + rewrite lookup_insert_eq in Hd. injection Hd as <-. cbn [timestamps] in Hf.
      rewrite lookup_empty in Hf. by destruct Hf.
    + rewrite lookup_insert_ne in Hd by done. exists b, fileSD.
      split_and!; [|done..].
      apply elem_of_union in Hb as [Hb%elem_of_singleton|Hb]; done.
  - intros (b & fileSD & Hb & Hd & Hf). exists b, fileSD.
    assert (b <> a) by (intros ->; congruence).
    split_and!; [|by rewrite lookup_insert_ne|done].
    apply elem_of_union. by right.
Qed.

End Registry.

(* ================================================================= *)
(** ** What a consumer of the channel sees *)

Section Protocol.
Context {codec : Codec}.

Lemma readGroups_sources fs p tgs :
  readGroups fs p = Some tgs ->
  Source <$> tgs = fileSource p <$> seqZ 0 (Z.of_nat (length tgs)).
Proof.
  unfold readGroups, readValue, readFile, writeTimestamp. unfold_M.
  destruct (os_Open fs p) as [fd|]; [|done].
  destruct (ReadAll fd); [|done]. destruct (StatModTime fd); [|done].
  destruct (decodeByExt _ _) as [[decoded|]|]; [|done..].
  destruct (stampGroups p 0 decoded) as [l|] eqn:Hl; [|done].
  intros [= <-]. pose proof (stampGroups_sources _ _ _ _ Hl) as Hsrc.
  assert (length l = length decoded) as Hlen.
  { apply (f_equal length) in Hsrc.
    by rewrite !length_fmap, length_seqZ, Nat2Z.id in Hsrc. }
  by rewrite Hlen.
Qed.

Lemma elem_of_concat {A} (x : A) (ls : list (list A)) :
  x ∈ concat ls <-> exists l, l ∈ ls /\ x ∈ l.
Proof.
  induction ls as [|l ls IH]; cbn [concat].
  - split; [by intros ?%elem_of_nil|]. by intros (? & ?%elem_of_nil & _).
  - rewrite elem_of_app, IH. split.
    + intros [Hx|(l' & Hl' & Hx)]; [exists l|exists l']; split; try done;
        [by left|by right].
    + intros (l' & [->|Hl']%elem_of_cons & Hx); [by left|right; by exists l'].
Qed.

Lemma deleteBatches_tombstone order ref f n i :
  (f, n) ∈ order -> zlookup ref f <= i < n ->
  [tombstone f i] ∈ deleteBatches order ref.
Proof.
  intros Hin Hi. unfold deleteBatches. apply elem_of_concat.
  exists (tombstoneBatches f (zlookup ref f) n). split.
  - apply list_elem_of_fmap. by exists (f, n).
  - eapply list_elem_of_lookup_2.
    rewrite (tombstoneBatches_lookup f _ n (Z.to_nat (i - zlookup ref f))) by lia.
    unfold tombstone. do 4 f_equal. lia.
Qed.

(** X20. A refresh that runs to its end answers every source of the
    previous baseline: for a path that had [n] groups and every index below
    [n], a group with that source is sent, either in the batch read from
    the file or as a tombstone, unless the file is listed and its read
    failed (its previous targets are then left as they are). *)
Theorem X20_every_old_source_is_answered fs order st w f n i :
  ctx st = None ->
  watcher (disc st) = Some w ->
  Forall (fun p => readPanics fs p = false) (listFiles fs (disc st)) ->
  order ≡ₚ map_to_list (lastRefresh (disc st)) ->
  lastRefresh (disc st) !! f = Some n ->
  0 <= i < n ->
  (f ∈ listFiles fs (disc st) -> readFails fs f = false) ->
  exists st' new batch g,
    refresh fs order st = (Ret tt, st') /\
    sent st' = sent st ++ new /\
    batch ∈ new /\ g ∈ batch /\ Source g = fileSource f i.
Proof.
  intros Hctx Hw Hread Horder Hf Hi Hfails.
  rewrite (refresh_spec fs order st w Hctx Hw Hread).
  set (files := listFiles fs (disc st)) in *.
  set (ref := scanRef fs (lastRefresh (disc st)) files ∅).
  assert ((f, n) ∈ order) as Hin.
  { rewrite Horder. by apply elem_of_map_to_list. }
  assert (forall m, zlookup ref f = m -> m <= i ->
            exists batch g, batch ∈ deleteBatches order ref /\ g ∈ batch /\
                            Source g = fileSource f i) as Htomb.
  { intros m Hm Hle. exists [tombstone f i], (tombstone f i). split_and!.
    - apply (deleteBatches_tombstone order ref f n i Hin). lia.
    - apply list_elem_of_here.
    - done. }
  eexists _, (scanBatches fs files ++ deleteBatches order ref).
  destruct (decide (f ∈ files)) as [Hlisted|Hunlisted].
  - pose proof (proj1 (Forall_forall _ _) Hread f Hlisted) as Hnp. cbn beta in Hnp.
    destruct (readValue_cases fs f Hnp) as [(tgs & _ & Hgroups & _)|(e & _ & _ & Hfail)].
    2: { rewrite (Hfails Hlisted) in Hfail. done. }
    assert (zlookup ref f = Z.of_nat (length tgs)) as Hcount.
    { unfold zlookup, ref. rewrite (scanRef_read fs _ files ∅ f tgs Hgroups); [done|].
      by left. }
    destruct (decide (i < Z.of_nat (length tgs))) as [Hlt|Hge].
    + pose proof (readGroups_sources fs f tgs Hgroups) as Hsrc.
      assert ((Source <$> tgs) !! Z.to_nat i = Some (fileSource f i)) as Hg.
      { rewrite Hsrc, list_lookup_fmap, lookup_seqZ_lt by lia. cbn. f_equal. f_equal. lia. }
      rewrite list_lookup_fmap in Hg.
      destruct (tgs !! Z.to_nat i) as [g|] eqn:Hgi; [|done].
      exists tgs, g. split_and!; [done..| | |].
      * apply elem_of_app. left. unfold scanBatches. apply list_elem_of_omap.
        by exists f.
      * by eapply list_elem_of_lookup_2.
      * by injection Hg.
    + destruct (Htomb _ Hcount) as (batch & g & Hb & Hg & Hs); [lia|].
      exists batch, g. split_and!; [done..| |done|done].
      apply elem_of_app. by right.
  - assert (zlookup ref f = 0) as Hcount.
    { unfold zlookup. replace (ref !! f) with (@None Z); [done|]. symmetry.
      apply not_elem_of_dom. unfold ref. rewrite scanRef_dom, dom_empty_L.
      rewrite (left_id_L ∅ (∪)). by rewrite elem_of_list_to_set. }
    destruct (Htomb _ Hcount) as (batch & g & Hb & Hg & Hs); [lia|].
    exists batch, g. split_and!; [done..| |done|done].
    apply elem_of_app. by right.
Qed.

(** X21. A refresh that runs to its end sends nothing else: every group it
    sends carries the source of a file it listed or of a path of the
    previous baseline. *)
Theorem X21_refresh_sends_only_known_sources fs order st w :
  ctx st = None ->
  watcher (disc st) = Some w ->
  Forall (fun p => readPanics fs p = false) (listFiles fs (disc st)) ->
  order ≡ₚ map_to_list (lastRefresh (disc st)) ->
  exists st' new,
    refresh fs order st = (Ret tt, st') /\
    sent st' = sent st ++ new /\
    Forall (Forall (fun g =>
              exists p i,
                Source g = fileSource p i /\
                (p ∈ listFiles fs (disc st) \/
                 is_Some (lastRefresh (disc st) !! p)))) new.
Proof.
  intros Hctx Hw Hread Horder.
  rewrite (refresh_spec fs order st w Hctx Hw Hread).
  set (files := listFiles fs (disc st)) in *.
  set (ref := scanRef fs (lastRefresh (disc st)) files ∅).
  eexists _, (scanBatches fs files ++ deleteBatches order ref).
  split_and!; [done..|]. apply Forall_app. split.
  - apply Forall_forall. intros batch (p & Hp & Hgroups)%list_elem_of_omap.
    apply Forall_forall. intros g Hg.
    assert (Source g ∈ Source <$> batch) as Hs.
    { apply list_elem_of_fmap. by exists g. }
    rewrite (readGroups_sources fs p batch Hgroups) in Hs.
    apply list_elem_of_fmap in Hs as (i & Hs & _).
    exists p, i. split; [done|by left].
  - apply Forall_forall. intros batch (l & Hl & Hbatch)%elem_of_concat.
    apply list_elem_of_fmap in Hl as ([f n] & -> & Hin).
    unfold tombstoneBatches in Hbatch.
    apply list_elem_of_fmap in Hbatch as (i & -> & _).
    apply Forall_singleton. exists f, i. split; [done|]. right.
    rewrite Horder in Hin. apply elem_of_map_to_list in Hin. by eexists.
Qed.


End Protocol.

(* ================================================================= *)
(** ** The Kafka target: what [run] forwards *)

Section KafkaTarget.
Context {Config : Type} (format : list (string * string) -> Config -> gmap string string).

Lemma runLoop_app (t : Kafka.Target Config) clock i messages trace :
  Kafka.runLoop format t clock i messages trace
  = trace ++ Kafka.runLoop format t clock i messages [].
Proof.
  revert i trace. induction messages as [|m messages IH]; intros i trace.
  - by rewrite app_nil_r.
  - cbn [Kafka.runLoop]. rewrite IH, (IH _ ([] ++ _)). by rewrite app_nil_l, app_assoc.
Qed.

(** The body of the loop in closed form: the branch on the size of the
    formatted labels makes no difference, since merging an empty label set
    changes nothing. *)
Lemma handle_eq (t : Kafka.Target Config) now m :
  Kafka.handle format t now m
  = [Kafka.Send
       {| Kafka.Line := Kafka.Value m;
          Kafka.EntryTimestamp :=
            Kafka.timestamp (Kafka.useIncomingTimestamp t) (Kafka.Timestamp m) now;
          Kafka.Labels :=
            Kafka.Merge (Kafka.lbs t)
              (format [("__meta_kafka_message_key",
                        if bool_decide (Kafka.Key m = "") then "none" else Kafka.Key m)]
                 (Kafka.relabelConfig t)) |};
     Kafka.MarkMessage m].
Proof.
  assert (forall l : gmap string string,
            (if bool_decide (0 < size l)%nat
             then Kafka.Merge (Kafka.lbs t) l else Kafka.lbs t)
            = Kafka.Merge (Kafka.lbs t) l) as Hmerge.
  { intros l. case_bool_decide as Hsize; [done|]. unfold Kafka.Merge.
    assert (l = ∅) as -> by (apply map_size_empty_iff; lia).
    by rewrite (left_id_L ∅ (∪)). }
  unfold Kafka.handle. cbv zeta. rewrite Hmerge.
  change Kafka.labelKeyKafkaMessageKey with "__meta_kafka_message_key".
  change Kafka.defaultKafkaMessageKey with "none".
  by destruct (Kafka.Key m).
Qed.

(** X19. [run] hands over one entry per message of the claim, in the order
    of the messages, marks each message right after its entry, and stops
    the client last. The entry of a message has the message's value as its
    line, the time stamp [timestamp] picks, and the labels of the target
    merged with what [format] makes of the label
    [__meta_kafka_message_key], whose value is the message key, or [none]
    for an empty key; the branch on the size of the formatted labels makes
    no difference to that. *)
Theorem X19_run_forwards_every_message (t : Kafka.Target Config) clock messages trace :
  exists new,
    Kafka.run format t clock messages trace = trace ++ new ++ [Kafka.Stop] /\
    (Kafka.Stop ∉ new) /\
    length (Kafka.sends new) = length messages /\
    Kafka.marks new = messages /\
    (forall pre, pre `prefix_of` new ->
       (length (Kafka.marks pre) <= length (Kafka.sends pre)
        <= S (length (Kafka.marks pre)))%nat) /\
    (forall (i : nat) m, messages !! i = Some m ->
       Kafka.sends new !! i
       = Some {| Kafka.Line := Kafka.Value m;
                 Kafka.EntryTimestamp :=
                   Kafka.timestamp (Kafka.useIncomingTimestamp t) (Kafka.Timestamp m)
                     (clock i);
                 Kafka.Labels :=
                   Kafka.Merge (Kafka.lbs t)
                     (format [("__meta_kafka_message_key",
                               if bool_decide (Kafka.Key m = "")
                               then "none" else Kafka.Key m)]
                        (Kafka.relabelConfig t)) |}).
Proof.
  unfold Kafka.run. rewrite runLoop_app.
  exists (Kafka.runLoop format t clock 0 messages []).
  split; [by rewrite <-app_assoc|].
  assert (forall i,
    (Kafka.Stop ∉ Kafka.runLoop format t clock i messages []) /\
    length (Kafka.sends (Kafka.runLoop format t clock i messages []))
    = length messages /\
    Kafka.marks (Kafka.runLoop format t clock i messages []) = messages /\
    (forall pre, pre `prefix_of` Kafka.runLoop format t clock i messages [] ->
       (length (Kafka.marks pre) <= length (Kafka.sends pre)
        <= S (length (Kafka.marks pre)))%nat) /\
    (forall (j : nat) m, messages !! j = Some m ->
       Kafka.sends (Kafka.runLoop format t clock i messages []) !! j
       = Some {| Kafka.Line := Kafka.Value m;
                 Kafka.EntryTimestamp :=
                   Kafka.timestamp (Kafka.useIncomingTimestamp t) (Kafka.Timestamp m)
                     (clock (i + j)%nat);
                 Kafka.Labels :=
                   Kafka.Merge (Kafka.lbs t)
                     (format [("__meta_kafka_message_key",
                               if bool_decide (Kafka.Key m = "")
                               then "none" else Kafka.Key m)]
                        (Kafka.relabelConfig t)) |})) as Hloop.
  { induction messages as [|m messages IH]; intros i.
    - cbn. split_and!; [apply not_elem_of_nil|done..| |done].
      intros pre ->%prefix_nil_inv. cbn. lia.
    - cbn [Kafka.runLoop]. rewrite app_nil_l, runLoop_app, handle_eq.
      destruct (IH (S i)) as (Hstop & Hlen & Hmarks & Hpre & Hsend).
      split_and!.
      + intros [Hin|Hin]%elem_of_app; [|done].
        apply elem_of_cons in Hin as [?|Hin]; [done|].
        by apply list_elem_of_singleton in Hin.
      + unfold Kafka.sends in *. rewrite omap_app, length_app, Hlen. done.
      + unfold Kafka.marks in *. rewrite omap_app, Hmarks. done.
      + intros pre Hprefix. cbn in Hprefix.
        destruct pre as [|a pre]; [cbn; lia|].
        apply prefix_cons_inv_1 in Hprefix as Ha. subst a.
        apply prefix_cons_inv_2 in Hprefix.
        destruct pre as [|a pre]; [cbn; lia|].
        apply prefix_cons_inv_1 in Hprefix as Ha. subst a.
        apply prefix_cons_inv_2 in Hprefix. apply Hpre in Hprefix.
        unfold Kafka.marks, Kafka.sends in *. cbn. lia.
      + intros j m' Hj. unfold Kafka.sends in *. rewrite omap_app.
        change (omap _ [Kafka.Send ?e; Kafka.MarkMessage m]) with [e].
        destruct j as [|j].
        * injection Hj as <-. cbn [app lookup list_lookup]. by rewrite Nat.add_0_r.
        * change (([?e] ++ ?l) !! S j) with (l !! j).
          rewrite (Hsend j m' Hj). by rewrite Nat.add_succ_r. }
  destruct (Hloop 0%nat) as (Hstop & Hlen & Hmarks & Hpre & Hsend).
  split_and!; [done..|]. intros i m Hi. exact (Hsend i m Hi).
Qed.

End KafkaTarget.

(** ** The theorems at work on the small world *)

Ltac by_computation := vm_compute; reflexivity.

Ltac each_by_computation :=
  repeat first
    [ apply Forall_nil_2
    | apply Forall_cons_2; [first [by_computation | eexists; by_computation]|] ].

Lemma C3_witness :
  exists tgs st',
    readFile (codec := exCodec) exFS "conf/a.json" idleState = (Ret (ok tgs), st') /\
    length tgs = 2%nat /\
    Source <$> tgs = ["conf/a.json:0"; "conf/a.json:1"].
Proof.
  destruct (C3_readFile_stamps_groups (codec := exCodec) exFS "conf/a.json" idleState
              (exFile "[a,b]" 1700000000) "[a,b]" 1700000000
              [exGroup "a:1"; exLabelled "b:2"])
    as (tgs & st' & Hr & Hlen & Hgroups & _); [by_computation..|].
  exists tgs, st'. split_and!; [done..|].
  destruct (Hgroups 0%nat _ eq_refl) as (g0 & ? & H0 & Hs0 & _).
  destruct (Hgroups 1%nat _ eq_refl) as (g1 & ? & H1 & Hs1 & _).
  destruct tgs as [|? [|? [|]]]; simplify_eq/=. by rewrite Hs0, Hs1.
Defined.

Lemma C4_witness :
  readFile (codec := exCodec) exFS "conf/n.json" idleState
  = (Ret (fail (errors_New "nil target group item found")), idleState).
Proof.
  apply (C4_readFile_null_group_fails (codec := exCodec) exFS "conf/n.json" idleState
           (exFile "[a,null]" 1700000300) "[a,null]" 1700000300
           [Some (exGroup "a:1"); None]); [by_computation..|].
  apply list_elem_of_further, list_elem_of_here.
Defined.

Lemma C10_witness :
  timestamps (disc (readFile (codec := exCodec) exFS "conf/n.json" exShrunk).2)
  = timestamps (disc exShrunk).
Proof.
  apply (C10_readFile_timestamp_only_on_success (codec := exCodec)
           exFS "conf/n.json" exShrunk
           (Ret (fail (errors_New "nil target group item found"))) _).
  - by_computation.
  - intros tgs. discriminate.
Defined.

Lemma C1_witness :
  exists st',
    refresh (codec := exCodec) exFS (map_to_list exLast) exShrunk = (Ret tt, st') /\
    timestamps (disc st') !! "conf/a.json" = None /\
    timestamps (disc st') !! "conf/gone.json" = None /\
    tombstoneBatches "conf/a.json" (zlookup (lastRefresh (disc st')) "conf/a.json") 3
    = [[{| Targets := []; Labels := None; Source := "conf/a.json:2" |}]] /\
    drop 2 (sent st')
    = [[{| Targets := []; Labels := None; Source := "conf/gone.json:0" |}];
       [{| Targets := []; Labels := None; Source := "conf/gone.json:1" |}];
       [{| Targets := []; Labels := None; Source := "conf/a.json:2" |}]].
Proof.
  destruct (C1_refresh_sends_tombstones (codec := exCodec) exFS
              (map_to_list exLast) exShrunk [])
    as (st' & Hr & Hsent & Hpath); [reflexivity|reflexivity| |reflexivity|].
  { replace (listFiles exFS (disc exShrunk))
      with ["conf/a.json"; "conf/x.json"; "conf/b.yml"] by by_computation.
    each_by_computation. }
  exists st'. split; [done|].
  assert (lastRefresh (disc st') = {["conf/a.json" := 2; "conf/x.json" := 4; "conf/b.yml" := 1]}) as Href.
  { vm_compute in Hr. injection Hr as <-. by_computation. }
  assert (zlookup (lastRefresh (disc st')) "conf/a.json" = 2) as Hm.
  { rewrite Href. by_computation. }
  destruct (Hpath "conf/a.json" 3) as [Ha _]; [by_computation|].
  destruct Ha as (Hts & Hlen & Hbatch); [rewrite Hm; lia|].
  split_and!.
  - exact Hts.
  - destruct (Hpath "conf/gone.json" 2) as [Hlt _]; [by_computation|].
    apply Hlt. rewrite Href. by_computation.
  - specialize (Hbatch 0%nat). rewrite Hm in Hbatch, Hlen |- *.
    destruct (tombstoneBatches "conf/a.json" 2 3) as [|batch [|? ?]];
      [discriminate Hlen| |discriminate Hlen].
    assert (Z.of_nat 0 < 3 - 2) as Hk by lia.
    apply Hbatch in Hk. injection Hk as ->. by_computation.
  - rewrite Hsent, Href. by_computation.
Defined.

Lemma C2_witness :
  readFails (codec := exCodec) exFS "conf/x.json" = true /\
  exists st',
    refresh (codec := exCodec) exFS (map_to_list exLast) exShrunk = (Ret tt, st') /\
    lastRefresh (disc st') !! "conf/x.json" = Some 4 /\
    fileSDReadErrorsCount st' = 1 /\
    tombstoneBatches "conf/x.json" (zlookup (lastRefresh (disc st')) "conf/x.json") 4 = [].
Proof.
  split; [by_computation|].
  assert (listFiles exFS (disc exShrunk)
          = ["conf/a.json"; "conf/x.json"; "conf/b.yml"]) as Hfiles by by_computation.
  destruct (C2_read_failure_carries_count (codec := exCodec) exFS
              (map_to_list exLast) exShrunk [] "conf/x.json")
    as (_ & st' & Hr & Href & Herr & _ & Htomb);
    [reflexivity|reflexivity| | |by_computation|].
  { rewrite Hfiles. each_by_computation. }
  { rewrite Hfiles. apply list_elem_of_further, list_elem_of_here. }
  exists st'. split_and!; [exact Hr|exact Href| |].
  - rewrite Herr, Hfiles. by_computation.
  - apply Htomb. by_computation.
Defined.

Lemma C6_witness :
  exists st1 st2,
    refresh (codec := exCodec) exFS [] exSteady = (Ret tt, st1) /\
    refresh (codec := exCodec) exFS (map_to_list (lastRefresh (disc st1))) st1
    = (Ret tt, st2) /\
    sent st2 = sent st1 ++ scanBatches (codec := exCodec) exFS ["conf/a.json"; "conf/b.yml"].
Proof.
  destruct (C6_second_refresh_idempotent (codec := exCodec) exFS [] exSteady [])
    as (st1 & Hr1 & _ & Hsecond); [reflexivity|reflexivity| |].
  { replace (listFiles exFS (disc exSteady))
      with ["conf/a.json"; "conf/b.yml"] by by_computation.
    each_by_computation. }
  destruct (Hsecond (map_to_list (lastRefresh (disc st1))))
    as (st2 & Hr2 & _ & _ & Hsent & _); [reflexivity|].
  exists st1, st2. split_and!; [exact Hr1|exact Hr2|].
  rewrite Hsent. f_equal.
Defined.

Lemma C8_witness :
  NoDup (metric_filename <$> Collect exHeap exCollector elements map_to_list).
Proof.
  apply (C8_Collect_one_sample_per_path exHeap exCollector elements map_to_list);
    reflexivity.
Defined.

Lemma C9_witness :
  runLoop (codec := exCodec) exFS
    [(SelEvent (mkEvent "conf/a.json" Write), mkChoice [] None)]
  = (callRefresh (codec := exCodec) exFS (mkChoice [] None) ≫= fun _ => runLoop (codec := exCodec) exFS []) /\
  forall st,
    runLoop (codec := exCodec) exFS
      [(SelEvent (mkEvent "conf/a.json" Chmod), mkChoice [] None)] st
    = runLoop (codec := exCodec) exFS [] st.
Proof.
  split.
  - apply (C9_event_triggers_refresh (codec := exCodec) exFS
             (mkEvent "conf/a.json" Write) (mkChoice [] None) []).
    split; discriminate.
  - apply (C9_event_triggers_refresh (codec := exCodec) exFS
             (mkEvent "conf/a.json" Chmod) (mkChoice [] None) []).
    by right.
Defined.

Lemma C5_witness :
  (UnmarshalYAML exTwoNames).2 = None /\
  (UnmarshalYAML (fun c => ok c)).2 <> None.
Proof.
  split.
  - destruct (UnmarshalYAML exTwoNames).2 eqn:Herr; [|done].
    exfalso. assert ((UnmarshalYAML exTwoNames).2 <> None) as Hfail by congruence.
    apply C5_UnmarshalYAML_fails_iff in Hfail. simpl in Hfail.
    destruct Hfail as [?|(name & Hin & Hn)]; [done|].
    apply Hn, MatchString_shape.
    apply elem_of_cons in Hin as [->|Hin%list_elem_of_singleton];
      [|subst name]; by_computation.
  - apply C5_UnmarshalYAML_fails_iff. by left.
Defined.

Lemma C7_witness :
  Forall (fun f => ToLower (Ext f) ∈ [".json"; ".yml"; ".yaml"])
    (listFiles exFS (disc exShrunk)) /\
  listFiles exFS (disc exShrunk) = ["conf/a.json"; "conf/x.json"; "conf/b.yml"].
Proof.
  split; [|by_computation].
  eapply Forall_impl.
  - apply (C7_validated_patterns_never_panic (codec := exCodec) exFS (disc exShrunk)).
    each_by_computation.
  - intros f (Hext & _). exact Hext.
Defined.

Lemma X1_witness :
  exists st',
    refresh (codec := exCodec) exFS (map_to_list exLast) exImpatient = (Cancelled, st') /\
    lastRefresh (disc st') = exLast /\
    length (sent st') = 1%nat.
Proof.
  set (r := refresh (codec := exCodec) exFS (map_to_list exLast) exImpatient).
  assert (r = (Cancelled, r.2)) as Hr by by_computation.
  destruct (X1_cancelled_refresh_keeps_baseline (codec := exCodec) exFS
              (map_to_list exLast) exImpatient r.2 Hr)
    as (Hlast & _ & _ & _ & k & new & Hk & Hsent & Hlen & _).
  exists r.2. split_and!; [exact Hr|exact Hlast|].
  injection Hk as <-. rewrite Hsent, length_app, Hlen. reflexivity.
Defined.

Lemma X2_witness :
  (refresh (codec := exCodec) exFS (map_to_list exLast) exShrunk).1
  <> Panicked "no watcher configured" /\
  paths (disc (refresh (codec := exCodec) exFS (map_to_list exLast) exShrunk).2)
  = ["conf/*.json"; "conf/b.yml"].
Proof.
  destruct (X2_refresh_never_panics (codec := exCodec) exFS (map_to_list exLast) exShrunk)
    as (Hpanic & _ & Hpaths).
  - eexists. reflexivity.
  - each_by_computation.
  - split; [apply Hpanic|exact Hpaths].
Defined.

Lemma X3_witness :
  exists st',
    refresh (codec := exCodec) exFS [] exUnwatched
    = (Panicked "no watcher configured", st') /\
    lastRefresh (disc st') = {["conf/b.yml" := 1]} /\
    length (sent st') = 1%nat.
Proof.
  destruct (X3_refresh_without_watcher (codec := exCodec) exFS [] exUnwatched)
    as (st' & Hr & Hlast & Hsent & _); [reflexivity|reflexivity| |].
  { replace (listFiles exFS (disc exUnwatched)) with ["conf/b.yml"] by by_computation.
    each_by_computation. }
  exists st'. split_and!; [exact Hr| |].
  - rewrite Hlast. by_computation.
  - rewrite Hsent. by_computation.
Defined.

Lemma X4_witness :
  (Run (codec := exCodec) exFS (ok tt) (mkChoice (map_to_list exLast) None)
     exSchedule exShrunk).1 = Ret true /\
  watcher (disc (Run (codec := exCodec) exFS (ok tt)
                   (mkChoice (map_to_list exLast) None) exSchedule exShrunk).2)
  = None /\
  fileSDScanDuration
    (Run (codec := exCodec) exFS (ok tt) (mkChoice (map_to_list exLast) None)
       exSchedule exShrunk).2 = 3%nat /\
  (Run (codec := exCodec) exFS (ok tt) (mkChoice (map_to_list exLast) None)
     (take 3 exSchedule) exShrunk).1 = Ret false /\
  is_Some (watcher (disc (Run (codec := exCodec) exFS (ok tt)
                            (mkChoice (map_to_list exLast) None)
                            (take 3 exSchedule) exShrunk).2)).
Proof.
  destruct (X4_Run_returns_and_counts_scans (codec := exCodec) exFS
              (mkChoice (map_to_list exLast) None) exSchedule exShrunk)
    as (Hret & Hclosed & _ & _ & Hscans); [each_by_computation|by_computation|].
  destruct (X4_Run_returns_and_counts_scans (codec := exCodec) exFS
              (mkChoice (map_to_list exLast) None) (take 3 exSchedule) exShrunk)
    as (Hwait & _ & Hopen & _); [each_by_computation|by_computation|].
  split_and!.
  - exact Hret.
  - apply Hclosed. reflexivity.
  - rewrite Hscans. reflexivity.
  - exact Hwait.
  - apply Hopen. reflexivity.
Defined.

Lemma X5_witness :
  exists st',
    refresh (codec := exCodec) exFS (map_to_list exLast) exShrunk = (Ret tt, st') /\
    lastRefresh (disc st') !! "conf/gone.json" = None /\
    is_Some (lastRefresh (disc st') !! "conf/x.json").
Proof.
  assert (listFiles exFS (disc exShrunk)
          = ["conf/a.json"; "conf/x.json"; "conf/b.yml"]) as Hfiles by by_computation.
  destruct (X5_baseline_is_the_listed_files (codec := exCodec) exFS
              (map_to_list exLast) exShrunk [])
    as (st' & Hr & _ & Hlisted); [reflexivity|reflexivity| |].
  { rewrite Hfiles. each_by_computation. }
  exists st'. split_and!; [exact Hr| |].
  - apply eq_None_not_Some. intros Hin%Hlisted. rewrite Hfiles in Hin.
    by repeat (apply elem_of_cons in Hin as [?|Hin]; [done|]);
      apply elem_of_nil in Hin.
  - apply Hlisted. rewrite Hfiles. apply list_elem_of_further, list_elem_of_here.
Defined.

Lemma X6_witness :
  exists st',
    refresh (codec := exCodec) exFS (map_to_list exLast) exShrunk = (Ret tt, st') /\
    lastRefresh (disc st') !! "conf/a.json" = Some 2 /\
    map_Forall (fun _ n => 0 <= n) (lastRefresh (disc st')).
Proof.
  assert (listFiles exFS (disc exShrunk)
          = ["conf/a.json"; "conf/x.json"; "conf/b.yml"]) as Hfiles by by_computation.
  destruct (X6_baseline_counts (codec := exCodec) exFS (map_to_list exLast) exShrunk [])
    as (st' & Hr & Hcount & Hnonneg); [reflexivity|reflexivity| |].
  { rewrite Hfiles. each_by_computation. }
  exists st'. split_and!; [exact Hr| |].
  - apply (Hcount "conf/a.json"
             (default [] (readGroups (codec := exCodec) exFS "conf/a.json"))).
    + rewrite Hfiles. apply list_elem_of_here.
    + by_computation.
  - apply Hnonneg. apply (bool_decide_unpack _). by_computation.
Defined.

Lemma X7_witness :
  exists st',
    refresh (codec := exCodec) exFS (map_to_list exLast) exShrunk = (Ret tt, st') /\
    timestamps (disc st') !! "conf/a.json" = None /\
    timestamps (disc st') !! "conf/b.yml" = Some 1700000100.
Proof.
  assert (listFiles exFS (disc exShrunk)
          = ["conf/a.json"; "conf/x.json"; "conf/b.yml"]) as Hfiles by by_computation.
  assert (Forall (fun p => readPanics (codec := exCodec) exFS p = false)
            (listFiles exFS (disc exShrunk))) as Hread.
  { rewrite Hfiles. each_by_computation. }
  destruct (X7_timestamp_after_refresh (codec := exCodec) exFS (map_to_list exLast)
              exShrunk [] "conf/a.json"
              (default [] (readGroups (codec := exCodec) exFS "conf/a.json")))
    as (st' & Hr & Ha); [reflexivity|reflexivity|exact Hread|reflexivity| |by_computation|].
  { rewrite Hfiles. apply list_elem_of_here. }
  destruct (X7_timestamp_after_refresh (codec := exCodec) exFS (map_to_list exLast)
              exShrunk [] "conf/b.yml"
              (default [] (readGroups (codec := exCodec) exFS "conf/b.yml")))
    as (st'' & Hr' & Hb); [reflexivity|reflexivity|exact Hread|reflexivity| |by_computation|].
  { rewrite Hfiles. do 2 apply list_elem_of_further. apply list_elem_of_here. }
  rewrite Hr in Hr'. injection Hr' as <-.
  exists st'. split_and!; [exact Hr| |].
  - rewrite Ha. by_computation.
  - rewrite Hb. by_computation.
Defined.

Lemma X8_witness :
  exists st',
    refresh (codec := exCodec) exFS (map_to_list exLast) exShrunk = (Ret tt, st') /\
    dom (timestamps (disc st')) ⊆ dom (lastRefresh (disc st')).
Proof.
  apply (X8_timestamps_stay_within_baseline (codec := exCodec) exFS
           (map_to_list exLast) exShrunk []); [reflexivity|reflexivity| |reflexivity|].
  - replace (listFiles exFS (disc exShrunk))
      with ["conf/a.json"; "conf/x.json"; "conf/b.yml"] by by_computation.
    each_by_computation.
  - change (dom (∅ : gmap string Z) ⊆ dom exLast).
    rewrite dom_empty_L. apply empty_subseteq.
Defined.

Lemma X10_witness :
  exists tgs st',
    readFile (codec := exCodec) exFS "conf/a.json" idleState = (Ret (ok tgs), st') /\
    Source <$> tgs = ["conf/a.json:0"; "conf/a.json:1"] /\
    NoDup (Source <$> tgs).
Proof.
  set (r := readFile (codec := exCodec) exFS "conf/a.json" idleState).
  set (tgs := match r.1 with Ret (ok tgs) => tgs | _ => [] end).
  assert (r = (Ret (ok tgs), r.2)) as Hr by by_computation.
  destruct (X10_readFile_sources_distinct (codec := exCodec) exFS "conf/a.json"
              idleState tgs r.2 Hr) as (Hsources & Hnodup).
  exists tgs, r.2. split_and!; [exact Hr| |exact Hnodup].
  rewrite Hsources. by_computation.
Defined.

Lemma X11_witness :
  watchDir (str (bytes "conf" ++ Separator :: bytes "*.json")) = str (bytes "conf") /\
  watchDir (str (bytes "*.json")) = "./".
Proof.
  apply (X11_watchDir_is_the_directory_part (bytes "conf") (bytes "*.json")).
  apply (bool_decide_unpack _). by_computation.
Defined.

Lemma X12_witness : "*"%char ∉ bytes (watchDir "conf/*.json").
Proof.
  apply (X12_validated_watchDir_has_no_star "conf/*.json"). by_computation.
Defined.

Lemma X14_witness :
  listFiles exFS (disc exSteady)
  = filter (fun p => os_Lstat exFS p = true) (paths (disc exSteady)).
Proof.
  apply (X14_listFiles_of_plain_names exFS (disc exSteady)). each_by_computation.
Defined.

Lemma X16_witness :
  "conf/a.json" ∈ (metric_filename
                     <$> Collect exHeap (removeDiscoverer 2 exCollector)
                           elements map_to_list) /\
  "conf/a.json" ∉ (metric_filename
                     <$> Collect exHeap
                           (removeDiscoverer 1 (removeDiscoverer 2 exCollector))
                           elements map_to_list).
Proof.
  split.
  - apply (X16_removed_instance_is_not_collected exHeap exCollector 2
             elements map_to_list "conf/a.json"); [reflexivity..|].
    exists 1%positive,
      (default (disc idleState) (exHeap !! 1%positive)).
    split_and!; [apply (bool_decide_unpack _); by_computation|done|by_computation|].
    eexists. by_computation.
  - intros Hin.
    apply (X16_removed_instance_is_not_collected exHeap
             (removeDiscoverer 2 exCollector) 1
             elements map_to_list "conf/a.json") in Hin; [|reflexivity..].
    destruct Hin as (b & fileSD & Hb & Hne & _).
    apply elem_of_difference in Hb as [Hb Hne2].
    apply elem_of_union in Hb as [Hb|Hb].
    + apply Hne2. exact Hb.
    + apply elem_of_union in Hb as [Hb|Hb].
      * apply elem_of_singleton in Hb. done.
      * by apply elem_of_empty in Hb.
Defined.

Lemma X17_witness :
  Collect exHeap (addDiscoverer 1 NewTimestampCollector) elements map_to_list
    ≡ₚ [mkMetric 100 "conf/a.json"].
Proof.
  rewrite (X17_single_instance_collected_as_is exHeap 1
             (default (disc idleState) (exHeap !! 1%positive))
             (addDiscoverer 1 NewTimestampCollector) elements map_to_list);
    [|by_computation|reflexivity..].
  by_computation.
Defined.

Lemma X18_witness :
  "conf/a.json" ∈ (metric_filename
                     <$> Collect (NewDiscovery (exConf ["conf/c.json"]) 3 exHeap exCollector).1
                           (NewDiscovery (exConf ["conf/c.json"]) 3 exHeap exCollector).2
                           elements map_to_list) <->
  "conf/a.json" ∈ (metric_filename <$> Collect exHeap exCollector elements map_to_list).
Proof.
  apply (X18_new_instance_adds_no_sample (exConf ["conf/c.json"]) 3 exHeap exCollector);
    [by_computation|reflexivity..].
Defined.

Lemma X20_witness :
  exists st' new batch g,
    refresh (codec := exCodec) exFS (map_to_list exLast) exShrunk = (Ret tt, st') /\
    sent st' = new /\
    batch ∈ new /\ g ∈ batch /\ Source g = "conf/a.json:2".
Proof.
  destruct (X20_every_old_source_is_answered (codec := exCodec) exFS
              (map_to_list exLast) exShrunk [] "conf/a.json" 3 2)
    as (st' & new & batch & g & Hr & Hsent & Hb & Hg & Hs);
    [reflexivity|reflexivity| |reflexivity|by_computation|lia| |].
  { replace (listFiles exFS (disc exShrunk))
      with ["conf/a.json"; "conf/x.json"; "conf/b.yml"] by by_computation.
    each_by_computation. }
  { intros _. by_computation. }
  exists st', new, batch, g. split_and!; [exact Hr|exact Hsent|exact Hb|exact Hg|].
  rewrite Hs. by_computation.
Defined.

Lemma X21_witness :
  exists st' new,
    refresh (codec := exCodec) exFS (map_to_list exLast) exShrunk = (Ret tt, st') /\
    sent st' = new /\
    length new = 5%nat.
Proof.
  destruct (X21_refresh_sends_only_known_sources (codec := exCodec) exFS
              (map_to_list exLast) exShrunk [])
    as (st' & new & Hr & Hsent & _); [reflexivity|reflexivity| |reflexivity|].
  { replace (listFiles exFS (disc exShrunk))
      with ["conf/a.json"; "conf/x.json"; "conf/b.yml"] by by_computation.
    each_by_computation. }
  exists st', new. split_and!; [exact Hr|exact Hsent|].
  vm_compute in Hr. injection Hr as <-. vm_compute in Hsent.
  rewrite <-Hsent. reflexivity.
Defined.

